(** * Request deduplication and memoization layer of the economics assistant

    A shallow embedding of the helper functions of the tool library
    ([src/src/lib/context-manager.ts], lines 245-638):
    the retrying timeout wrapper, the in-flight coalescer, the key
    canonicalizer, the identity resolver, the deduplicator and the
    per-session memo store; of the other helpers of that file, the
    conversation truncation (lines 17-196), [parseApiContent], the helpers
    of the code execution tool, the validation of Python code and the
    size-limited download of the file reading tools; followed by the
    properties proved of them.

    Conventions.
    - A JavaScript string is a [string]: a sequence of code units below 256.
    - A value that may be [undefined] is an [option]; a thrown error or a
      rejected promise is the [inr] of a sum.
    - Process-wide [Map]s and [Set]s are passed explicitly; a [Map] whose
      insertion order matters is an association list, the others are
      [gmap]s and [gset]s.
    - A JavaScript object is the list of its own properties in the order
      the engine enumerates them: array-index keys first, in numeric order,
      then the other keys in the order they were created.
    - Promises are numbered; the event loop is a sequence of turns, each
      the synchronous part of a call or the resumption of an async
      function after an [await].
    - Platform functions whose behaviour is not part of the repository
      ([String.prototype.localeCompare], number formatting, the WHATWG URL
      parser) are section variables. SHA-256 is modelled in full. *)

From Stdlib Require Import ZArith NArith List String Ascii Lia Permutation Sorted.
From Stdlib Require Import DecimalString OrderedTypeEx.
From stdpp Require Import gmap strings list fin_maps sorting.
Import ListNotations.
Local Open Scope string_scope.

(* ===================================================================== *)
(** * JavaScript strings *)
(* ===================================================================== *)

(** [!s] for a string: only the empty string is falsy. *)
Definition falsy (s : string) : bool := String.eqb s "".

(** [a || b] where [a] may be [undefined] and [b] is a string. *)
Definition orElse (a : option string) (b : string) : string :=
  match a with
  | Some s => if falsy s then b else s
  | None => b
  end.

(** [a || b] where both sides may be [undefined]. *)
Definition orElseOpt (a b : option string) : option string :=
  match a with
  | Some s => if falsy s then b else Some s
  | None => b
  end.

(** [s.includes(needle)] *)
Fixpoint includes (s needle : string) : bool :=
  String.prefix needle s ||
  match s with
  | EmptyString => false
  | String _ rest => includes rest needle
  end.

(** [s.startsWith(p)] *)
Definition startsWith (s p : string) : bool := String.prefix p s.

Definition code (c : ascii) : N := N_of_ascii c.

Definition between (lo hi : N) (c : ascii) : bool :=
  ((lo <=? code c) && (code c <=? hi))%N.

Definition isUpperAZ (c : ascii) : bool := between 65 90 c.
Definition isLowerAZ (c : ascii) : bool := between 97 122 c.
Definition isDigit (c : ascii) : bool := between 48 57 c.

(** White space and line terminators below 256: TAB, LF, VT, FF, CR, SP, NBSP. *)
Definition isSpace (c : ascii) : bool :=
  between 9 13 c || (code c =? 32)%N || (code c =? 160)%N.

(** [toLowerCase] on one code unit: A-Z, and the Latin-1 capitals
    U+00C0..U+00DE except the multiplication sign U+00D7. *)
Definition lowerChar (c : ascii) : ascii :=
  if isUpperAZ c || (between 192 222 c && negb (code c =? 215)%N)
  then ascii_of_N (code c + 32)
  else c.

Fixpoint toLowerCase (s : string) : string :=
  match s with
  | EmptyString => EmptyString
  | String c rest => String (lowerChar c) (toLowerCase rest)
  end.

Fixpoint trimStart (s : string) : string :=
  match s with
  | EmptyString => EmptyString
  | String c rest => if isSpace c then trimStart rest else s
  end.

(** Drops trailing white space: a character is kept when something that is
    kept follows it, or when it is not white space itself. *)
Fixpoint trimEnd (s : string) : string :=
  match s with
  | EmptyString => EmptyString
  | String c rest =>
      match trimEnd rest with
      | EmptyString => if isSpace c then EmptyString else String c EmptyString
      | kept => String c kept
      end
  end.

(** [s.trim()] *)
Definition trim (s : string) : string := trimEnd (trimStart s).

(** [s.replace(/\s+/g, " ")]: every maximal run of white space becomes one
    space. *)
Fixpoint collapseSpaces (s : string) : string :=
  match s with
  | EmptyString => EmptyString
  | String c rest =>
      if isSpace c
      then String " " (trimStart (collapseSpaces rest))
      else String c (collapseSpaces rest)
  end.

(** [path.replace(/\/+$/, "")]: removes the slashes the string ends with. *)
Fixpoint stripTrailingSlashes (s : string) : string :=
  match s with
  | EmptyString => EmptyString
  | String c rest =>
      match stripTrailingSlashes rest with
      | EmptyString => if Ascii.eqb c "/" then EmptyString else String c EmptyString
      | kept => String c kept
      end
  end.

(** Decimal text of a non-negative integer, as [String(n)] gives it. *)
Definition decimal (n : N) : string := NilEmpty.string_of_uint (N.to_uint n).

(** [ls.join(sep)] *)
Definition join (sep : string) (ls : list string) : string := String.concat sep ls.

(* ===================================================================== *)
(** * Retrying timeout wrapper: [callValyuWithTimeout] (lines 245-295) *)
(* ===================================================================== *)

(** What [Promise.race([valyu.search(..), timeoutPromise])] sees first in one
    attempt: the call fulfils, the call rejects with an [Error] carrying
    [message], or the timer set for [timeoutMs] fires. Times are in
    milliseconds; [took] is how long the call ran, [late] how long after
    its due time the timer fired (a timer never fires early). *)
Inductive attempt (R : Type) : Type :=
  | Fulfils (response : R) (took : N)
  | Rejects (message : string) (took : N)
  | Stalls (late : N).
Arguments Fulfils {R}.
Arguments Rejects {R}.
Arguments Stalls {R}.

(** What an observer of the wrapper sees, in order. *)
Inductive event : Type :=
  | Called (at_ms : N)                    (* [valyu.search] invoked *)
  | Failed (at_ms : N) (message : string) (* the attempt failed *)
  | Slept (ms : N).                       (* backoff [setTimeout(resolve, ms)] *)

Record timeline : Type := Timeline { now : N; trace : list event }.

Definition record (e : event) (w : timeline) : timeline :=
  Timeline (now w) (trace w ++ [e]).

Definition advance (ms : N) (w : timeline) : timeline :=
  Timeline (now w + ms) (trace w).

(** The catch block's classification of an error message. *)
Definition isRetryable (message : string) : bool :=
  includes message "timeout" ||
  includes message "ECONNRESET" ||
  includes message "ENOTFOUND" ||
  includes message "ETIMEDOUT".

Section Retry.
Context {Query Options R : Type}.

(** [valyu.search(searchQuery, searchOptions)] at its [n]-th invocation by
    the wrapper, raced against the timer. *)
Variable valyu : Query -> Options -> Z -> attempt R.

(** How late the backoff timer of attempt [n] fires. *)
Variable backoffLate : Z -> N.

Variables (searchQuery : Query) (searchOptions : Options).
Variables (timeoutMs : N) (maxRetries : Z).

(** The body of [for (let attempt = 0; attempt <= maxRetries; attempt++)].
    [remaining] counts the iterations the loop condition still admits,
    [maxRetries + 1 - attempt] of them; when none is left the statement
    after the loop runs. The result is the resolved value or the message of
    the [Error] thrown. *)
Fixpoint attemptLoop (remaining : nat) (attempt : Z) (lastError : option string)
         (w : timeline) : timeline * (R + string) :=
  match remaining with
  | O => (w, inr (default "All retry attempts failed" lastError))
  | S remaining' =>
      let w := record (Called (now w)) w in
      let failed (message : string) (w : timeline) :=
        let w := record (Failed (now w) message) w in
        if isRetryable message && (attempt <? maxRetries)%Z
        then
          let delay := Z.to_N (2 ^ attempt * 1000) in
          let w := advance (delay + backoffLate attempt) (record (Slept delay) w) in
          attemptLoop remaining' (attempt + 1)%Z (Some message) w
        else (w, inr message) in
      match valyu searchQuery searchOptions attempt with
      | Fulfils response took => (advance took w, inl response)
      | Rejects message took => failed message (advance took w)
      | Stalls late =>
          failed ("Request timeout after " ++ decimal timeoutMs ++ "ms")
                 (advance (timeoutMs + late) w)
      end
  end.

Definition callValyuWithTimeout (w : timeline) : timeline * (R + string) :=
  attemptLoop (Z.to_nat (maxRetries + 1)) 0%Z None w.
End Retry.

(** The observable invocations of the underlying call in a trace. *)
Definition invocations (tr : list event) : nat :=
  length (List.filter (fun e => match e with Called _ => true | _ => false end) tr).

(** The backoff delays in a trace, in order. *)
Definition backoffs (tr : list event) : list N :=
  flat_map (fun e => match e with Slept ms => [ms] | _ => [] end) tr.

(* ===================================================================== *)
(** * Regular expressions of the identity helpers *)
(* ===================================================================== *)

(** The fragment of JavaScript regular expressions the helpers use, matched
    by backtracking as the engine does: greedy quantifiers over a character
    class, alternatives tried left to right, one capture group, the
    leftmost match wins. *)
Inductive regex : Type :=
  | RChar (c : ascii)
  | RClass (p : ascii -> bool)
  | RSeq (r1 r2 : regex)
  | RAlt (r1 r2 : regex)
  | RRep (p : ascii -> bool) (lo : nat) (hi : option nat)
  | RGroup (r : regex).

Definition upperChar (c : ascii) : ascii :=
  if isLowerAZ c then ascii_of_N (code c - 32) else c.

Definition lowerAZ (c : ascii) : ascii :=
  if isUpperAZ c then ascii_of_N (code c + 32) else c.

(** Character comparison, under the [i] flag when [ci] is set. *)
Definition sameChar (ci : bool) (a b : ascii) : bool :=
  if ci then Ascii.eqb (upperChar a) (upperChar b) else Ascii.eqb a b.

Definition inClass (ci : bool) (p : ascii -> bool) (c : ascii) : bool :=
  if ci then p c || p (upperChar c) || p (lowerAZ c) else p c.

(** The text consumed between [s] and its suffix [rest]. *)
Definition consumed (s rest : string) : string :=
  String.substring 0 (String.length s - String.length rest) s.

Section Matcher.
Context {A : Type}.
Variable ci : bool.

(** Greedy [class{lo,hi}]: take one more character when allowed, and fall
    back to stopping here when the rest of the pattern then fails. *)
Fixpoint repeatClass (p : ascii -> bool) (lo : nat) (hi : option nat)
         (s : string) (k : string -> option A) : option A :=
  let stop := match lo with O => k s | S _ => None end in
  let more := match hi with Some O => false | _ => true end in
  match s with
  | String c rest =>
      if more && inClass ci p c
      then match repeatClass p (Nat.pred lo) (option_map Nat.pred hi) rest k with
           | Some r => Some r
           | None => stop
           end
      else stop
  | EmptyString => stop
  end.

(** [matchAt r s cap k]: match [r] at the start of [s], then continue with
    [k] on the rest and the capture. *)
Fixpoint matchAt (r : regex) (s : string) (cap : option string)
         (k : string -> option string -> option A) : option A :=
  match r with
  | RChar c =>
      match s with
      | String c' rest => if sameChar ci c c' then k rest cap else None
      | EmptyString => None
      end
  | RClass p =>
      match s with
      | String c' rest => if inClass ci p c' then k rest cap else None
      | EmptyString => None
      end
  | RSeq r1 r2 => matchAt r1 s cap (fun rest cap' => matchAt r2 rest cap' k)
  | RAlt r1 r2 =>
      match matchAt r1 s cap k with
      | Some res => Some res
      | None => matchAt r2 s cap k
      end
  | RRep p lo hi => repeatClass p lo hi s (fun rest => k rest cap)
  | RGroup r1 => matchAt r1 s cap (fun rest _ => k rest (Some (consumed s rest)))
  end.
End Matcher.

(** [s.match(r)]: the leftmost match, as the pair of the matched text
    ([m[0]]) and the capture ([m[1]]). *)
Fixpoint regexMatch (ci : bool) (r : regex) (s : string) : option (string * option string) :=
  match matchAt ci r s None (fun rest cap => Some (consumed s rest, cap)) with
  | Some m => Some m
  | None =>
      match s with
      | String _ rest => regexMatch ci r rest
      | EmptyString => None
      end
  end.

(** A literal piece of a pattern. *)
Fixpoint RLit (s : string) : regex :=
  match s with
  | EmptyString => RRep (fun _ => false) 0 (Some 0)
  | String c EmptyString => RChar c
  | String c rest => RSeq (RChar c) (RLit rest)
  end.

Definition oneOf (chars : string) (c : ascii) : bool :=
  existsb (Ascii.eqb c) (list_ascii_of_string chars).

(** [\w] *)
Definition isWord (c : ascii) : bool :=
  isUpperAZ c || isLowerAZ c || isDigit c || Ascii.eqb c "_".

(** [/arxiv\.org\/(?:abs|pdf)\/([\w.\-]+)/i] *)
Definition arxivPattern : regex :=
  RSeq (RLit "arxiv.org/")
    (RSeq (RAlt (RLit "abs") (RLit "pdf"))
       (RSeq (RChar "/")
          (RGroup (RRep (fun c => isWord c || oneOf ".-" c) 1 None)))).

(** [/10\.\d{4,9}\/[-._;()/:A-Z0-9]+/i] *)
Definition doiPattern : regex :=
  RSeq (RLit "10.")
    (RSeq (RRep isDigit 4 (Some 9))
       (RSeq (RChar "/")
          (RRep (fun c => oneOf "-._;()/:" c || isUpperAZ c || isDigit c) 1 None))).

(** [extractArxivId] (lines 383-387) *)
Definition extractArxivId (url : option string) : option string :=
  match url with
  | None => None
  | Some u =>
      if falsy u then None
      else match regexMatch true arxivPattern u with
           | Some (_, cap) => cap
           | None => None
           end
  end.

(** [extractDoi] (lines 388-392) *)
Definition extractDoi (s : option string) : option string :=
  match s with
  | None => None
  | Some text =>
      if falsy text then None
      else match regexMatch true doiPattern text with
           | Some (m0, _) => Some (toLowerCase m0)
           | None => None
           end
  end.

(* ===================================================================== *)
(** * SHA-256 and [keyToUuid] (lines 372-382) *)
(* ===================================================================== *)

(** [createHash("sha256")] of node:crypto, after FIPS 180-4, on 32-bit words
    held in [N] with the wrap-around written out. *)
Module Sha256.
Local Open Scope N_scope.

Definition w32 (x : N) : N := x mod 2 ^ 32.
Definition add32 (x y : N) : N := w32 (x + y).
Definition rotr (n x : N) : N := N.lor (N.shiftr x n) (w32 (N.shiftl x (32 - n))).
Definition not32 (x : N) : N := N.lxor x 0xffffffff.

Definition Ch (x y z : N) : N := N.lxor (N.land x y) (N.land (not32 x) z).
Definition Maj (x y z : N) : N :=
  N.lxor (N.lxor (N.land x y) (N.land x z)) (N.land y z).
Definition Sigma0 (x : N) : N := N.lxor (N.lxor (rotr 2 x) (rotr 13 x)) (rotr 22 x).
Definition Sigma1 (x : N) : N := N.lxor (N.lxor (rotr 6 x) (rotr 11 x)) (rotr 25 x).
Definition sigma0 (x : N) : N := N.lxor (N.lxor (rotr 7 x) (rotr 18 x)) (N.shiftr x 3).
Definition sigma1 (x : N) : N := N.lxor (N.lxor (rotr 17 x) (rotr 19 x)) (N.shiftr x 10).

(** The first 64 primes. *)
Definition isPrime (n : N) : bool :=
  (1 <? n) && forallb (fun d => negb (n mod d =? 0)) (map N.of_nat (seq 2 (N.to_nat n - 2))).

Definition primes : list N :=
  Eval vm_compute in firstn 64 (List.filter isPrime (map N.of_nat (seq 2 400))).

(** The integer part of the cube root, found bit by bit from the top. *)
Fixpoint cbrtBits (bits : nat) (x root : N) : N :=
  match bits with
  | O => root
  | S bits' =>
      let candidate := N.lor root (N.shiftl 1 (N.of_nat bits')) in
      cbrtBits bits' x (if candidate * candidate * candidate <=? x then candidate else root)
  end.

(** The round constants: the first 32 bits of the fractional parts of the
    cube roots of the first 64 primes. *)
Definition K : list N :=
  Eval vm_compute in map (fun p => w32 (cbrtBits 40 (p * 2 ^ 96) 0)) primes.

(** The initial hash value: the first 32 bits of the fractional parts of
    the square roots of the first 8 primes. *)
Definition H0 : list N :=
  Eval vm_compute in map (fun p => w32 (N.sqrt (p * 2 ^ 64))) (firstn 8 primes).

(** The [n] low bytes of [x], most significant first. *)
Fixpoint be_bytes (n : nat) (x : N) : list N :=
  match n with
  | O => []
  | S n' => N.shiftr x (8 * N.of_nat n') mod 256 :: be_bytes n' x
  end.

Definition be_word (bs : list N) : N :=
  fold_left (fun acc b => acc * 256 + b) bs 0.

(** Padding: the byte 0x80, zeros up to 56 modulo 64, the bit length on
    eight bytes. *)
Definition pad (msg : list N) : list N :=
  let len := length msg in
  let zeros := ((64 - (len + 9) mod 64) mod 64)%nat in
  msg ++ [0x80] ++ repeat 0 zeros ++ be_bytes 8 (8 * N.of_nat len).

Fixpoint chunks (fuel : nat) (n : nat) (bs : list N) : list (list N) :=
  match fuel with
  | O => []
  | S fuel' =>
      match bs with
      | [] => []
      | _ => firstn n bs :: chunks fuel' n (skipn n bs)
      end
  end.

(** The message schedule, newest word first: W[t-k] is entry [k-1]. *)
Fixpoint extend (n : nat) (rev_w : list N) : list N :=
  match n with
  | O => rev_w
  | S n' =>
      let back k := nth k rev_w 0 in
      let wt := add32 (add32 (sigma1 (back 1%nat)) (back 6%nat))
                      (add32 (sigma0 (back 14%nat)) (back 15%nat)) in
      extend n' (wt :: rev_w)
  end.

Definition schedule (block : list N) : list N :=
  rev (extend 48 (rev (map be_word (chunks 16 4 block)))).

Record regs : Type :=
  Regs { ra : N; rb : N; rc : N; rd : N; re : N; rf : N; rg : N; rh : N }.

Definition round (s : regs) (kw : N * N) : regs :=
  let t1 := add32 (add32 (add32 (rh s) (Sigma1 (re s))) (Ch (re s) (rf s) (rg s)))
                  (add32 (fst kw) (snd kw)) in
  let t2 := add32 (Sigma0 (ra s)) (Maj (ra s) (rb s) (rc s)) in
  Regs (add32 t1 t2) (ra s) (rb s) (rc s) (add32 (rd s) t1) (re s) (rf s) (rg s).

Definition regs_of (h : list N) : regs :=
  Regs (nth 0 h 0) (nth 1 h 0) (nth 2 h 0) (nth 3 h 0)
       (nth 4 h 0) (nth 5 h 0) (nth 6 h 0) (nth 7 h 0).

Definition words_of (s : regs) : list N :=
  [ra s; rb s; rc s; rd s; re s; rf s; rg s; rh s].

Definition compress (h : list N) (block : list N) : list N :=
  let s := fold_left round (combine K (schedule block)) (regs_of h) in
  map (fun p => add32 (fst p) (snd p)) (combine h (words_of s)).

(** The 32 bytes of the digest. *)
Definition digest (msg : list N) : list N :=
  let padded := pad msg in
  let blocks := chunks (length padded) 64 padded in
  flat_map (be_bytes 4) (fold_left compress blocks H0).
End Sha256.

(** UTF-8 bytes of a string of code units below 256, as [hash.update(key)]
    encodes it. *)
Definition utf8 (s : string) : list N :=
  flat_map (fun c => let n := code c in
                     if (n <? 128)%N then [n]
                     else [N.lor 192 (N.shiftr n 6); N.lor 128 (N.land n 63)])
           (list_ascii_of_string s).

Definition hexDigit (n : N) : ascii :=
  match n with
  | 0 => "0" | 1 => "1" | 2 => "2" | 3 => "3" | 4 => "4" | 5 => "5" | 6 => "6" | 7 => "7"
  | 8 => "8" | 9 => "9" | 10 => "a" | 11 => "b" | 12 => "c" | 13 => "d" | 14 => "e" | _ => "f"
  end%N%char.

(** [bytes.toString("hex")] *)
Fixpoint toHex (bs : list N) : string :=
  match bs with
  | [] => ""
  | b :: rest => String (hexDigit (b / 16)) (String (hexDigit (b mod 16)) (toHex rest))
  end.

(** [bytes[i] = f(bytes[i])] on a buffer of bytes. *)
Definition setByte (i : nat) (f : N -> N) (bytes : list N) : list N :=
  match bytes !! i with
  | Some b => <[i := f b]> bytes
  | None => bytes
  end.

(** [hex.slice(from, to)] and [hex.slice(from)] *)
Definition slice (from to : nat) (s : string) : string :=
  String.substring from (to - from) s.
Definition sliceFrom (from : nat) (s : string) : string :=
  String.substring from (String.length s - from) s.

Definition keyToUuid (key : string) : string :=
  let hash := Sha256.digest (utf8 key) in
  let bytes := firstn 16 hash in
  let bytes := setByte 6 (fun b => N.lor (N.land b 0x0f) 0x40) bytes in
  let bytes := setByte 8 (fun b => N.lor (N.land b 0x3f) 0x80) bytes in
  let hex := toHex bytes in
  slice 0 8 hex ++ "-" ++ slice 8 12 hex ++ "-" ++ slice 12 16 hex ++ "-" ++
  slice 16 20 hex ++ "-" ++ sliceFrom 20 hex.

(* ===================================================================== *)
(** * Identity resolver: [normalizeUrl], [resultId] (lines 354-371, 446-461) *)
(* ===================================================================== *)

(** The parts of a parsed [URL] that [normalizeUrl] reads. *)
Record URL : Type := MkURL {
  protocol : string;
  host : string;
  pathname : string;
  searchParams : list (string * string)
}.

(** [r.data] and [r.metadata] of a raw result, as far as [resultId] reads
    them. *)
Record resultData : Type := MkData { data_nct_id : option string }.

Record resultMetadata : Type := MkMetadata {
  metadata_pmid : option string;
  metadata_doi : option string;
  metadata_setid : option string
}.

(** A raw result record of the search API. [content] is [None] when the
    field is absent or not a string. *)
Record result : Type := MkResult {
  nct_id : option string;
  data : option resultData;
  metadata : option resultMetadata;
  pmid : option string;
  doi : option string;
  url : option string;
  title : option string;
  source : option string;
  date : option string;
  content : option string
}.

(** Whether an operand of [||] is falsy: [undefined] or the empty string. *)
Definition isEmpty (a : option string) : bool :=
  match a with
  | Some s => falsy s
  | None => true
  end.

(** [o?.field] *)
Definition optField {A : Type} (o : option A) (field : A -> option string) : option string :=
  match o with
  | Some x => field x
  | None => None
  end.

(** The operands of [resultId]'s chain that precede the DOI fields:
    [r.nct_id || r.data?.nct_id || r.metadata?.pmid || r.pmid]. *)
Definition registryId (r : result) : option string :=
  orElseOpt (nct_id r)
  (orElseOpt (optField (data r) data_nct_id)
  (orElseOpt (optField (metadata r) metadata_pmid) (pmid r))).

(** The DOI operands of the chain: [r.metadata?.doi || r.doi]. *)
Definition fieldDoi (r : result) : option string :=
  orElseOpt (optField (metadata r) metadata_doi) (doi r).

(** The DOI the [webSearch] tool extracts (lines 2275-2277):
    [extractDoi(r.url) || extractDoi(typeof r.content === "string" ? r.content : "")]. *)
Definition extractedDoi (r : result) : option string :=
  orElseOpt (extractDoi (url r)) (extractDoi (Some (default "" (content r)))).

Section Identity.
(** [new URL(url)]: [None] when the constructor throws. *)
Variable URL_parse : string -> option URL.
(** [u.searchParams.toString()] *)
Variable URLSearchParams_toString : list (string * string) -> string.

Definition isTrackingParam (k : string) : bool :=
  startsWith k "utm_" || String.eqb k "ref" || String.eqb k "ref_src".

Definition normalizeUrl (url : option string) : string :=
  match url with
  | None => ""
  | Some text =>
      if falsy text then ""
      else match URL_parse text with
           | Some u =>
               let params :=
                 List.filter (fun kv => negb (isTrackingParam (fst kv))) (searchParams u) in
               let host := toLowerCase (host u) in
               let path := stripTrailingSlashes (pathname u) in
               let qs := URLSearchParams_toString params in
               protocol u ++ "//" ++ host ++ path ++
               (if falsy qs then "" else "?" ++ qs)
           | None => trim text
           end
  end.

(** The natural key [resultId] hashes: the first truthy operand of its
    [||] chain. *)
Definition resultKey (r : result) : string :=
  orElse (nct_id r)
  (orElse (optField (data r) data_nct_id)
  (orElse (optField (metadata r) metadata_pmid)
  (orElse (pmid r)
  (orElse (optField (metadata r) metadata_doi)
  (orElse (doi r)
  (orElse (optField (metadata r) metadata_setid)
  (orElse (extractArxivId (url r))
  (orElse (Some (normalizeUrl (url r)))
     (toLowerCase (orElse (title r) "") ++ "|" ++
      toLowerCase (orElse (source r) "") ++ "|" ++
      orElse (date r) ""))))))))).

Definition resultId (r : result) : string := keyToUuid (resultKey r).

(** The [id] the [webSearch] tool attaches to a raw result
    (lines 2274-2282): DOI, then arXiv id, then normalized URL, and
    [resultId] when all three are empty. *)
Definition webSearchId (r : result) : string :=
  let doi := extractedDoi r in
  let arxiv := extractArxivId (url r) in
  let normalized := normalizeUrl (url r) in
  let key := orElse (orElseOpt doi arxiv) normalized in
  if falsy key then resultId r else keyToUuid key.
End Identity.

(* ===================================================================== *)
(** * Deduplicator: [dedupeBy], [dedupeAgainstRequest] (lines 462-472, 593-612) *)
(* ===================================================================== *)

Section Dedupe.
Context {T : Type}.
Variable getId : T -> string.

(** [arr.filter(x => { if (!id || seen.has(id)) return false;
    seen.add(id); return true; })] with the set passed along; returns
    the kept records and the set as the filter leaves it. *)
Fixpoint filterUnseen (seen : gset string) (arr : list T) : list T * gset string :=
  match arr with
  | [] => ([], seen)
  | x :: rest =>
      let id := getId x in
      if falsy id || bool_decide (id ∈ seen)
      then filterUnseen seen rest
      else let '(kept, seen') := filterUnseen ({[id]} ∪ seen) rest in
           (x :: kept, seen')
  end.

Definition dedupeBy (arr : list T) : list T := fst (filterUnseen ∅ arr).

(** [seenByRequest] is passed in and returned. The bag of a request is a
    [Set] held by reference in the map, so what the filter adds to it is
    in the map afterwards. *)
Definition dedupeAgainstRequest (requestId : option string) (items : list T)
           (seenByRequest : gmap string (gset string))
  : list T * gmap string (gset string) :=
  match requestId with
  | None => (items, seenByRequest)
  | Some rid =>
      if falsy rid then (items, seenByRequest)
      else
        let bag := default ∅ (seenByRequest !! rid) in
        let '(kept, bag') := filterUnseen bag items in
        (kept, <[rid := bag']> seenByRequest)
  end.
End Dedupe.

(* ===================================================================== *)
(** * Session memo store: [withSessionMemo] (lines 614-638) *)
(* ===================================================================== *)

(** A JavaScript [Map] with string keys: the entries in insertion order,
    without duplicate keys. *)
Section JsMap.
Context {V : Type}.

Definition Map_has (m : list (string * V)) (k : string) : bool :=
  existsb (fun kv => String.eqb (fst kv) k) m.

Fixpoint Map_get (m : list (string * V)) (k : string) : option V :=
  match m with
  | [] => None
  | (k', v) :: rest => if String.eqb k' k then Some v else Map_get rest k
  end.

(** [m.set(k, v)]: an existing key keeps its position. *)
Fixpoint Map_set (m : list (string * V)) (k : string) (v : V) : list (string * V) :=
  match m with
  | [] => [(k, v)]
  | (k', v') :: rest =>
      if String.eqb k' k then (k, v) :: rest else (k', v') :: Map_set rest k v
  end.

Definition Map_delete (m : list (string * V)) (k : string) : list (string * V) :=
  List.filter (fun kv => negb (String.eqb (fst kv) k)) m.

(** [m.keys().next().value] *)
Definition Map_firstKey (m : list (string * V)) : option string :=
  match m with
  | [] => None
  | (k, _) :: _ => Some k
  end.

Definition Map_size (m : list (string * V)) : nat := length m.
End JsMap.

Definition SESSION_MEMO_MAX_KEYS : nat := 200.

Section SessionMemo.
Context {V : Type}.

(** [memoBySession.get(sessionId)], creating the bag when there is none. *)
Definition sessionBag (sessionId : string) (memoBySession : gmap string (list (string * V)))
  : list (string * V) :=
  default [] (memoBySession !! sessionId).

(** Whether a call would be served from the memo. *)
Definition cached (sessionId : option string) (key : string)
           (memoBySession : gmap string (list (string * V))) : bool :=
  match sessionId with
  | Some sid => negb (falsy sid) && Map_has (sessionBag sid memoBySession) key
  | None => false
  end.

(** How a call goes up to its [await run()]. *)
Inductive memoLookup : Type :=
  | Bypass               (* no session: [return run()] *)
  | Hit (value : V)      (* [bag.has(key)]: the cached value, [run] not invoked *)
  | Miss (sid : string). (* [run()] is invoked and awaited *)

Definition memoBegin (sessionId : option string) (key : string)
           (memoBySession : gmap string (list (string * V)))
  : gmap string (list (string * V)) * memoLookup :=
  match sessionId with
  | None => (memoBySession, Bypass)
  | Some sid =>
      if falsy sid then (memoBySession, Bypass)
      else
        let bag := sessionBag sid memoBySession in
        let store := <[sid := bag]> memoBySession in
        if Map_has bag key
        then match Map_get bag key with
             | Some value => (store, Hit value)
             | None => (store, Miss sid)
             end
        else (store, Miss sid)
  end.

(** [if (bag.size >= SESSION_MEMO_MAX_KEYS) { const firstKey =
    bag.keys().next().value; if (firstKey) bag.delete(firstKey); }] *)
Definition evictOldest (bag : list (string * V)) : list (string * V) :=
  if (SESSION_MEMO_MAX_KEYS <=? Map_size bag)%nat
  then match Map_firstKey bag with
       | Some firstKey => if falsy firstKey then bag else Map_delete bag firstKey
       | None => bag
       end
  else bag.

(** The statements after [await run()] once it has resolved to [value]:
    the eviction and [bag.set(key, value)], on the bag the call holds,
    which is the one in the map. *)
Definition bagStore (bag : list (string * V)) (key : string) (value : V)
  : list (string * V) :=
  Map_set (evictOldest bag) key value.

Definition memoStore (sid : string) (key : string) (value : V)
           (memoBySession : gmap string (list (string * V)))
  : gmap string (list (string * V)) :=
  <[sid := bagStore (sessionBag sid memoBySession) key value]> memoBySession.

(** The process state a sequence of calls runs against: the memo and the
    number of times [run] functions have been invoked. *)
Record memoWorld : Type := MemoWorld {
  memoBySession : gmap string (list (string * V));
  runCalls : nat
}.

(** [withSessionMemo(sessionId, key, run)] run to completion. [run n] is
    what the promise of run's [n]-th invocation settles to: [inl] a value,
    [inr] the error it rejects with. *)
Definition withSessionMemo (sessionId : option string) (key : string)
           (run : nat -> V + string) (w : memoWorld) : memoWorld * (V + string) :=
  let '(store, found) := memoBegin sessionId key (memoBySession w) in
  match found with
  | Hit value => (MemoWorld store (runCalls w), inl value)
  | Bypass => (MemoWorld store (S (runCalls w)), run (runCalls w))
  | Miss sid =>
      match run (runCalls w) with
      | inl value =>
          (MemoWorld (memoStore sid key value store) (S (runCalls w)), inl value)
      | inr error => (MemoWorld store (S (runCalls w)), inr error)
      end
  end.

(** What a call whose [run] succeeds with [value] does to the bag of its
    session. *)
Definition bagCall (value : V) (bag : list (string * V)) (key : string) : list (string * V) :=
  if Map_has bag key then bag else bagStore bag key value.

(** A sequence of calls for one session, each run to completion before the
    next is made. *)
Definition sequentially (sessionId : option string) (keys : list string)
           (run : nat -> V + string) (w : memoWorld) : memoWorld :=
  fold_left (fun w key => fst (withSessionMemo sessionId key run w)) keys w.

(** What a call does to the memo between two awaits. A call runs up to its
    [await run()] ([Begin]); when its [run] has resolved to a value, the
    call is resumed, evicts and stores ([Store]). Calls overlap, so the
    events of different calls come in any order. *)
Inductive memoEvent : Type :=
  | Begin (sessionId : option string) (key : string)
  | Store (sid : string) (key : string) (value : V).

Definition eventKey (e : memoEvent) : string :=
  match e with
  | Begin _ key => key
  | Store _ key _ => key
  end.

Definition memoStep (memoBySession : gmap string (list (string * V))) (e : memoEvent)
  : gmap string (list (string * V)) :=
  match e with
  | Begin sessionId key => fst (memoBegin sessionId key memoBySession)
  | Store sid key value => memoStore sid key value memoBySession
  end.

(** The memo after a sequence of events, from the start of the process.
    Every run of the program gives such a sequence; the sequences are not
    restricted further, so a [Store] need not follow a [Begin] that
    missed. *)
Definition memoAfter (events : list memoEvent) : gmap string (list (string * V)) :=
  fold_left memoStep events ∅.

(** What every bag of the memo keeps: no key twice, no empty key, at most
    [SESSION_MEMO_MAX_KEYS] entries. *)
Definition bagOk (bag : list (string * V)) : Prop :=
  NoDup (map fst bag) /\ Forall (fun k => k <> "") (map fst bag) /\
  (length bag <= SESSION_MEMO_MAX_KEYS)%nat.
End SessionMemo.
Arguments memoEvent V : clear implicits.

(** The key that is the decimal text of [n]. *)
Definition numberedKey (n : nat) : string := decimal (N.of_nat n).

(** A bag filled to capacity with the keys 1 to 200, oldest first. *)
Definition fullBag : list (string * nat) :=
  map (fun n => (numberedKey n, n)) (seq 1 200).

(* ===================================================================== *)
(** * Key canonicalizer: [canonQuery], [canonOptions], [buildToolKey]
      (lines 326-353) and the in-flight coalescer [once] (lines 297-323) *)
(* ===================================================================== *)

(** Stable insertion sort by a comparator: what [Array.prototype.sort]
    returns for a comparator that is a consistent order. An element goes
    before the first element it does not compare greater than. *)
Section Sort.
Context {A : Type}.
Variable cmp : A -> A -> comparison.

Fixpoint insertBy (x : A) (l : list A) : list A :=
  match l with
  | [] => [x]
  | y :: rest =>
      match cmp x y with
      | Gt => y :: insertBy x rest
      | _ => x :: l
      end
  end.

Definition sortBy (l : list A) : list A := fold_right insertBy [] l.
End Sort.

(** The quotation mark, code unit 34. *)
Definition dquote : ascii := ascii_of_N 34.

(** [JSON.stringify] of a string: the quoted text, with the quotation mark,
    the backslash and the control characters escaped. *)
Definition escapeChar (c : ascii) : string :=
  let n := code c in
  if (n =? 34)%N then String "\" (String dquote EmptyString)
  else if (n =? 92)%N then "\\"
  else if (n =? 8)%N then "\b"
  else if (n =? 12)%N then "\f"
  else if (n =? 10)%N then "\n"
  else if (n =? 13)%N then "\r"
  else if (n =? 9)%N then "\t"
  else if (n <? 32)%N
       then "\u00" ++ String (hexDigit (n / 16)) (String (hexDigit (n mod 16)) EmptyString)
       else String c EmptyString.

Fixpoint escapeString (s : string) : string :=
  match s with
  | EmptyString => EmptyString
  | String c rest => escapeChar c ++ escapeString rest
  end.

Definition quote (s : string) : string :=
  String dquote (escapeString s ++ String dquote EmptyString).

(** A canonical array index: the decimal text of an integer below 2^32 - 1.
    Properties with such keys are enumerated first, in ascending numeric
    order, whatever the order they were created in. *)
Fixpoint parseDigits (acc : N) (s : string) : option N :=
  match s with
  | EmptyString => Some acc
  | String c rest =>
      if isDigit c then parseDigits (acc * 10 + (code c - 48)) rest else None
  end.

Definition arrayIndex (k : string) : option N :=
  match k with
  | EmptyString => None
  | _ =>
      match parseDigits 0 k with
      | Some n => if String.eqb (decimal n) k && (n <? 4294967295)%N then Some n else None
      | None => None
      end
  end.

(** Strings in strictly ascending order of code units. *)
Fixpoint ascending (keys : list string) : bool :=
  match keys with
  | k1 :: (k2 :: _) as rest =>
      match String.compare k1 k2 with
      | Lt => ascending rest
      | _ => false
      end
  | _ => true
  end.

Definition isSome {A : Type} (o : option A) : bool :=
  match o with
  | Some _ => true
  | None => false
  end.

(** A comparator that orders its arguments linearly: only identical
    arguments compare equal, swapping the arguments swaps the answer, and
    less-than is transitive. *)
Definition linearOrder {A : Type} (cmp : A -> A -> comparison) : Prop :=
  (forall a b, cmp a b = Eq -> a = b) /\
  (forall a b, cmp b a = CompOpp (cmp a b)) /\
  (forall a b c, cmp a b = Lt -> cmp b c = Lt -> cmp a c = Lt).

(** A consistent comparator, which [Array.prototype.sort] needs and
    [localeCompare] is required to be: swapping the arguments swaps the
    answer, and not-after is transitive. Different arguments may compare
    equal. *)
Definition consistentComparator {A : Type} (cmp : A -> A -> comparison) : Prop :=
  (forall a b, cmp b a = CompOpp (cmp a b)) /\
  (forall a b c, cmp a b <> Gt -> cmp b c <> Gt -> cmp a c <> Gt).

(** [x] is not after [y]. *)
Definition notAfter {A : Type} (cmp : A -> A -> comparison) (x y : A) : Prop :=
  cmp x y <> Gt.

Section Json.
(** JavaScript numbers, with the text [JSON.stringify] gives one and its
    truthiness. *)
Variable number : Type.
Variable Number_toJSON : number -> string.
Variable Number_truthy : number -> bool.
(** [a.localeCompare(b)], by its sign. *)
Variable localeCompare : string -> string -> comparison.

(** The values an options argument is made of. An object is the list of
    its own enumerable properties in enumeration order. *)
#[local] Set Warnings "-register-all".
Inductive value : Type :=
  | Undefined
  | Null
  | Bool (b : bool)
  | Num (n : number)
  | Str (s : string)
  | Arr (items : list value)
  | Obj (props : list (string * value)).

Definition nullish (v : value) : bool :=
  match v with
  | Undefined | Null => true
  | _ => false
  end.

Definition isUndefined (v : value) : bool :=
  match v with
  | Undefined => true
  | _ => false
  end.

Definition truthy (v : value) : bool :=
  match v with
  | Undefined | Null => false
  | Bool b => b
  | Num n => Number_truthy n
  | Str s => negb (falsy s)
  | Arr _ | Obj _ => true
  end.

(** [JSON.stringify(v)]; [None] is [undefined]. An [undefined] array
    element is written [null], a property with an [undefined] value is
    left out. *)
Fixpoint JSON_stringify (v : value) : option string :=
  match v with
  | Undefined => None
  | Null => Some "null"
  | Bool b => Some (if b then "true" else "false")
  | Num n => Some (Number_toJSON n)
  | Str s => Some (quote s)
  | Arr items =>
      Some ("[" ++ join "," (map (fun x => default "null" (JSON_stringify x)) items) ++ "]")
  | Obj props =>
      Some ("{" ++
            join "," (flat_map (fun kv => match JSON_stringify (snd kv) with
                                          | Some text => [quote (fst kv) ++ ":" ++ text]
                                          | None => []
                                          end) props) ++
            "}")
  end.

(** A value inside a template literal. *)
Definition interpolate (text : option string) : string := default "undefined" text.

(** [Object.keys(o)] *)
Definition Object_keys (props : list (string * value)) : list string := map fst props.

(** [o[k]]; [None] when [o] has no property [k]. *)
Fixpoint obj_get (props : list (string * value)) (k : string) : option value :=
  match props with
  | [] => None
  | (k', v) :: rest => if String.eqb k' k then Some v else obj_get rest k
  end.

Definition obj_has (props : list (string * value)) (k : string) : bool :=
  existsb (fun kv => String.eqb (fst kv) k) props.

Fixpoint obj_replace (props : list (string * value)) (k : string) (v : value)
  : list (string * value) :=
  match props with
  | [] => []
  | (k', v') :: rest =>
      if String.eqb k' k then (k, v) :: rest else (k', v') :: obj_replace rest k v
  end.

(** A new array-index property takes its numeric place among the index
    properties, which precede all others. *)
Fixpoint obj_insertIndex (props : list (string * value)) (n : N) (k : string) (v : value)
  : list (string * value) :=
  match props with
  | [] => [(k, v)]
  | (k', v') :: rest =>
      match arrayIndex k' with
      | Some n' =>
          if (n <? n')%N then (k, v) :: props
          else (k', v') :: obj_insertIndex rest n k v
      | None => (k, v) :: props
      end
  end.

(** [out[k] = v] on an object created by [{}]. Assigning to [__proto__]
    goes to the setter inherited from [Object.prototype] and creates no
    own property; an existing property keeps its place; a new one is
    enumerated by the rule for its kind of key. *)
Definition obj_set (props : list (string * value)) (k : string) (v : value)
  : list (string * value) :=
  if String.eqb k "__proto__" then props
  else if obj_has props k then obj_replace props k v
  else match arrayIndex k with
       | Some n => obj_insertIndex props n k v
       | None => props ++ [(k, v)]
       end.

(** The comparator of [canonOptions]:
    [(a, b) => JSON.stringify(a).localeCompare(JSON.stringify(b))]. *)
Definition compareJson (a b : value) : comparison :=
  localeCompare (interpolate (JSON_stringify a)) (interpolate (JSON_stringify b)).

(** [arr.sort(cmp)]: the [undefined] elements go last and are not shown
    to the comparator. *)
Definition Array_sort (cmp : value -> value -> comparison) (arr : list value) : list value :=
  sortBy cmp (List.filter (fun v => negb (isUndefined v)) arr) ++
  List.filter isUndefined arr.

(** [keys.sort()]: strings in the order of their code units. *)
Definition sortKeys (keys : list string) : list string := sortBy String.compare keys.

(** The [forEach] body of [canonOptions], with [recur k] standing for
    [canonOptions(input[k])]. *)
Definition canonStep (input : list (string * value)) (recur : string -> value)
           (out : list (string * value)) (k : string) : list (string * value) :=
  match obj_get input k with
  | Some v => if nullish v then out else obj_set out k (recur k)
  | None => out
  end.

(** [canonOptions]. In the object case the recursive results are computed
    for all properties first and looked up by key in the loop. *)
Fixpoint canonOptions (input : value) : value :=
  match input with
  | Arr items => Arr (Array_sort compareJson (map canonOptions items))
  | Obj props =>
      let canon := map (fun kv => (fst kv, canonOptions (snd kv))) props in
      Obj (fold_left (canonStep props (fun k => default Undefined (obj_get canon k)))
                     (sortKeys (Object_keys props)) [])
  | _ => input
  end.

(** [canonQuery], for a query that is a string. *)
Definition canonQuery (q : string) : string :=
  toLowerCase (collapseSpaces (trim q)).

Definition buildToolKey (tool : string) (query : string) (opts : value) : string :=
  tool ++ "::" ++ canonQuery query ++ "::" ++ interpolate (JSON_stringify (canonOptions opts)).

(** [inflightKey]; [opts || {}] replaces a falsy [opts] by an empty object. *)
Definition inflightKey (tool : string) (query : string) (opts : value) : string :=
  tool ++ "::" ++ toLowerCase (trim query) ++ "::" ++
  interpolate (JSON_stringify (if truthy opts then opts else Obj [])).

(** ** What the canonical form is claimed to look like *)

(** [o[k]] when the property is there and its value is neither [null] nor
    [undefined]: the properties [canonOptions] keeps. *)
Definition liveGet (props : list (string * value)) (k : string) : option value :=
  match obj_get props k with
  | Some v => if nullish v then None else Some v
  | None => None
  end.

(** Two option values that differ only by the order of the keys of their
    objects and by keys whose value is [null] or [undefined], at any depth:
    the objects have the same keys with a value, and equivalent values
    under each of them. *)
Inductive sameUpToKeys : value -> value -> Prop :=
  | sameUpToKeys_refl (v : value) : sameUpToKeys v v
  | sameUpToKeys_arr (xs ys : list value) :
      Forall2 sameUpToKeys xs ys -> sameUpToKeys (Arr xs) (Arr ys)
  | sameUpToKeys_obj (ps qs : list (string * value)) :
      NoDup (Object_keys ps) -> NoDup (Object_keys qs) ->
      (forall k v, liveGet ps k = Some v -> exists w, liveGet qs k = Some w /\ sameUpToKeys v w) ->
      (forall k w, liveGet qs k = Some w -> exists v, liveGet ps k = Some v) ->
      sameUpToKeys (Obj ps) (Obj qs).

(** Two option values that differ only by the order of the elements of
    their arrays, at any depth. *)
Inductive reordered : value -> value -> Prop :=
  | reordered_refl (v : value) : reordered v v
  | reordered_arr (xs ys zs : list value) :
      Permutation xs ys -> Forall2 reordered ys zs -> reordered (Arr xs) (Arr zs)
  | reordered_obj (ps qs : list (string * value)) :
      Object_keys ps = Object_keys qs ->
      Forall2 reordered (map snd ps) (map snd qs) ->
      reordered (Obj ps) (Obj qs).

(** A property of the property list of every object inside a value. *)
Fixpoint everyObject (ok : list (string * value) -> bool) (v : value) : bool :=
  match v with
  | Arr items => forallb (everyObject ok) items
  | Obj props => ok props && forallb (fun kv => everyObject ok (snd kv)) props
  | _ => true
  end.

Definition noNullishValue (props : list (string * value)) : bool :=
  forallb (fun kv => negb (nullish (snd kv))) props.

(** The keys are in strictly ascending order of code units. *)
Definition keysAscending (props : list (string * value)) : bool :=
  ascending (Object_keys props).

(** The keys that are not array indices, in their order. *)
Definition nameKeys (props : list (string * value)) : list string :=
  List.filter (fun k => negb (isSome (arrayIndex k))) (Object_keys props).

(** The same of the keys that are not array indices. *)
Definition nameKeysAscending (props : list (string * value)) : bool :=
  ascending (nameKeys props).

(** The keys the loop of [canonOptions] assigns, in the order it assigns
    them. *)
Definition liveKeys (props : list (string * value)) : list string :=
  List.filter (fun k => isSome (liveGet props k)) (sortKeys (Object_keys props)).

(** The texts of the elements of a sorted array: the sorted texts of the
    elements that have one, then [null] for each [undefined]. *)
Definition sortedTexts (texts : list (option string)) : list string :=
  (sortBy localeCompare (omap id texts) ++
   repeat "null" (length (List.filter (fun o => negb (isSome o)) texts)))%list.

(** No two different texts of the list compare equal under
    [localeCompare]. *)
Definition untied (texts : list string) : bool :=
  forallb (fun a => forallb (fun b => match localeCompare a b with
                                      | Eq => String.eqb a b
                                      | _ => true
                                      end) texts) texts.

(** In every array inside the value, at any depth, the texts that the
    comparator of [canonOptions] is shown are [untied]. *)
Fixpoint tieFree (v : value) : bool :=
  match v with
  | Arr items =>
      forallb tieFree items &&
      untied (omap id (map (fun x => JSON_stringify (canonOptions x)) items))
  | Obj props => forallb (fun kv => tieFree (snd kv)) props
  | _ => true
  end.

(** Objects with the same keys in the same order and values of the same
    text. *)
Definition sameText (out1 out2 : list (string * value)) : Prop :=
  Forall2 (fun p q => fst p = fst q /\ JSON_stringify (snd p) = JSON_stringify (snd q))
          out1 out2.

(** Property lists with the same keys in the same order, whose values
    agree on being [null] or [undefined] and on the text of their canonical
    form. *)
Definition sameShape (ps qs : list (string * value)) : Prop :=
  Forall2 (fun p q => fst p = fst q /\ nullish (snd p) = nullish (snd q) /\
                      JSON_stringify (canonOptions (snd p)) =
                      JSON_stringify (canonOptions (snd q))) ps qs.
End Json.

Arguments JSON_stringify {number}.
Arguments nullish {number}.
Arguments isUndefined {number}.
Arguments truthy {number}.
Arguments Object_keys {number}.
Arguments obj_get {number}.
Arguments obj_has {number}.
Arguments obj_replace {number}.
Arguments obj_insertIndex {number}.
Arguments obj_set {number}.
Arguments compareJson {number}.
Arguments Array_sort {number}.
Arguments canonStep {number}.
Arguments canonOptions {number}.
Arguments buildToolKey {number}.
Arguments inflightKey {number}.
Arguments liveGet {number}.
Arguments sameUpToKeys {number}.
Arguments reordered {number}.
Arguments everyObject {number}.
Arguments noNullishValue {number}.
Arguments keysAscending {number}.
Arguments nameKeysAscending {number}.
Arguments nameKeys {number}.
Arguments liveKeys {number}.
Arguments sameText {number}.
Arguments sameShape {number}.
Arguments tieFree {number}.
Arguments Undefined {number}.
Arguments Null {number}.
Arguments Bool {number}.
Arguments Num {number}.
Arguments Str {number}.
Arguments Arr {number}.
Arguments Obj {number}.

(** An instance of the platform parameters for the examples: integers as
    the numbers, with their decimal text and zero as the falsy one, and the
    order of code units as the collation. *)
Definition intToJSON (n : Z) : string :=
  if (n <? 0)%Z then "-" ++ decimal (Z.to_N (- n)) else decimal (Z.to_N n).

Definition intTruthy (n : Z) : bool := negb (n =? 0)%Z.

Definition codeUnitCompare : string -> string -> comparison := String.compare.

(** The soft hyphen, code unit 173. *)
Definition softHyphen : ascii := ascii_of_N 173.

Fixpoint withoutSoftHyphens (s : string) : string :=
  match s with
  | EmptyString => EmptyString
  | String c rest =>
      if Ascii.eqb c softHyphen then withoutSoftHyphens rest
      else String c (withoutSoftHyphens rest)
  end.

(** A collation with an ignorable character: the soft hyphen is skipped, as
    the root collation of ICU skips it, and what is left is compared by code
    units. Texts that differ only by soft hyphens compare equal. *)
Definition ignoringSoftHyphens (a b : string) : comparison :=
  String.compare (withoutSoftHyphens a) (withoutSoftHyphens b).

(** The key the [n]-th of a series of web searches is memoized under
    (line 2256). *)
Definition searchKey (n : nat) : string :=
  buildToolKey intToJSON codeUnitCompare "webSearch" ("gdp " ++ numberedKey n)
               (Obj [("searchType", Str "all")]).

(** A promise is pending or settled; a settled promise never changes. *)
Inductive settlement (T : Type) : Type :=
  | Pending
  | Fulfilled (value : T)
  | Rejected (error : string).
Arguments Pending {T}.
Arguments Fulfilled {T}.
Arguments Rejected {T}.

Definition isPending {T : Type} (s : settlement T) : bool :=
  match s with
  | Pending => true
  | _ => false
  end.

(** The settled state a promise takes from the outcome of [run]. *)
Definition settledAs {T : Type} (outcome : T + string) : settlement T :=
  match outcome with
  | inl v => Fulfilled v
  | inr e => Rejected e
  end.

(** The promise [p] that a call of [once] creates for a key: the key its
    closure holds and its state. *)
Record sharedCall (T : Type) : Type := SharedCall {
  callKey : string;
  callState : settlement T
}.
Arguments SharedCall {T}.
Arguments callKey {T}.
Arguments callState {T}.

(** The process state [once] runs against: the [inflight] map from a key to
    the promise registered under it (promises are numbered in creation
    order), the promises, and the keys for which [run] was invoked, oldest
    first. *)
Record coalescer (T : Type) : Type := Coalescer {
  inflight : gmap string nat;
  promises : list (sharedCall T);
  runLog : list string
}.
Arguments Coalescer {T}.
Arguments inflight {T}.
Arguments promises {T}.
Arguments runLog {T}.

Definition emptyCoalescer {T : Type} : coalescer T := Coalescer ∅ [] [].

Section Coalescer.
Variable number : Type.
Variable Number_toJSON : number -> string.
Variable Number_truthy : number -> bool.
Context {T : Type}.

(** The synchronous part of [once(tool, query, opts, run)], where [run] is
    an async function: it returns the promise registered under the key,
    or invokes [run], creates the promise [p] that awaits it and registers
    [p]. Nothing else runs in between. The result is the shared promise:
    [once] being async, each caller holds a promise of its own that follows
    the shared one and takes its outcome. *)
Definition once (tool query : string) (opts : value number) (st : coalescer T)
  : coalescer T * nat :=
  let key := inflightKey Number_toJSON Number_truthy tool query opts in
  match inflight st !! key with
  | Some p => (st, p)
  | None =>
      let p := length (promises st) in
      (Coalescer (<[key := p]> (inflight st))
                 (promises st ++ [SharedCall key Pending])
                 (runLog st ++ [key]),
       p)
  end.

(** The rest of the async closure of promise [p], resumed when the promise
    of [run] has settled: [finally { inflight.delete(key) }], then [p]
    settles the same way. A closure is resumed once, so this does nothing
    on a promise that is not pending. *)
Definition settle (p : nat) (outcome : T + string) (st : coalescer T) : coalescer T :=
  match promises st !! p with
  | Some call =>
      if isPending (callState call)
      then Coalescer (delete (callKey call) (inflight st))
                     (<[p := SharedCall (callKey call) (settledAs outcome)]> (promises st))
                     (runLog st)
      else st
  | None => st
  end.

(** What happens in the process, one turn of the event loop at a time. *)
Inductive turn : Type :=
  | CallOnce (tool query : string) (opts : value number)
  | Settle (p : nat) (outcome : T + string).

Definition step (st : coalescer T) (t : turn) : coalescer T :=
  match t with
  | CallOnce tool query opts => fst (once tool query opts st)
  | Settle p outcome => settle p outcome st
  end.

Definition steps (st : coalescer T) (ts : list turn) : coalescer T :=
  fold_left step ts st.

(** The state of promise [p]. *)
Definition outcomeOf (st : coalescer T) (p : nat) : option (settlement T) :=
  callState <$> promises st !! p.

(** The number of times [run] was invoked for [key]. *)
Definition runsFor (key : string) (st : coalescer T) : nat :=
  length (List.filter (String.eqb key) (runLog st)).

(** The pending promises of calls made for [key]. *)
Definition pendingFor (key : string) (st : coalescer T) : list nat :=
  List.filter (fun p => match promises st !! p with
                        | Some call => String.eqb (callKey call) key && isPending (callState call)
                        | None => false
                        end)
              (seq 0 (length (promises st))).

(** Promise [p] belongs to a call made for [key] and has not settled. *)
Definition inFlightFor (key : string) (st : coalescer T) (p : nat) : Prop :=
  exists call, promises st !! p = Some call /\ callKey call = key /\ callState call = Pending.

(** The registry and the promises agree: a registered promise is the
    pending promise of a call for that key, and a pending promise is the
    one registered under its key. *)
Definition consistent (st : coalescer T) : Prop :=
  (forall key p, inflight st !! key = Some p -> inFlightFor key st p) /\
  (forall key p, inFlightFor key st p -> inflight st !! key = Some p).

Definition settles (p : nat) (t : turn) : bool :=
  match t with
  | Settle q _ => Nat.eqb p q
  | CallOnce _ _ _ => false
  end.
End Coalescer.

Arguments once {number} Number_toJSON Number_truthy {T}.
Arguments settle {T}.
Arguments turn : clear implicits.
Arguments CallOnce {number T}.
Arguments Settle {number T}.
Arguments step {number} Number_toJSON Number_truthy {T}.
Arguments steps {number} Number_toJSON Number_truthy {T}.
Arguments outcomeOf {T}.
Arguments runsFor {T}.
Arguments pendingFor {T}.
Arguments inFlightFor {T}.
Arguments consistent {T}.
Arguments settles {number T}.

(* ===================================================================== *)
(** * What a pattern matches *)
(* ===================================================================== *)

(** The texts a pattern matches, with the capture before and after. *)
Fixpoint denotes (ci : bool) (r : regex) (text : string) (cap cap' : option string) : Prop :=
  match r with
  | RChar c => (exists c', text = String c' "" /\ sameChar ci c c' = true) /\ cap' = cap
  | RClass p => (exists c', text = String c' "" /\ inClass ci p c' = true) /\ cap' = cap
  | RSeq r1 r2 =>
      exists t1 t2 mid, text = t1 ++ t2 /\ denotes ci r1 t1 cap mid /\ denotes ci r2 t2 mid cap'
  | RAlt r1 r2 => denotes ci r1 text cap cap' \/ denotes ci r2 text cap cap'
  | RRep p lo hi =>
      (forallb (inClass ci p) (list_ascii_of_string text) = true /\
       (lo <= String.length text)%nat /\
       match hi with Some h => (String.length text <= h)%nat | None => True end) /\
      cap' = cap
  | RGroup r1 => (exists inner, denotes ci r1 text cap inner) /\ cap' = Some text
  end.

(** The characters of the results of the identity helpers. *)
Definition isLowerHex (c : ascii) : bool := oneOf "0123456789abcdef" c.

Definition isDoiSuffixChar (c : ascii) : bool :=
  oneOf "-._;()/:" c || isLowerAZ c || isDigit c.

Definition isArxivIdChar (c : ascii) : bool := isWord c || oneOf ".-" c.

(* ===================================================================== *)
(** * Helpers of the code execution tool: [extractMissingModuleName],
      [escapeModuleTag] (lines 474-485) *)
(* ===================================================================== *)

(** [\'] or the quotation mark. *)
Definition isQuote (c : ascii) : bool := Ascii.eqb c "'" || Ascii.eqb c dquote.

(** The pattern of [extractMissingModuleName]: the text
    [ModuleNotFoundError: No module named ], a quote of either kind, a
    captured non-empty run of characters that are not quotes, and a quote
    of either kind. *)
Definition missingModulePattern : regex :=
  RSeq (RLit "ModuleNotFoundError: No module named ")
    (RSeq (RClass isQuote)
       (RSeq (RGroup (RRep (fun c => negb (isQuote c)) 1 None))
          (RClass isQuote))).

(** [extractMissingModuleName] (lines 474-480); [None] is [null]. *)
Definition extractMissingModuleName (message : option string) : option string :=
  match message with
  | None => None
  | Some text =>
      if falsy text then None
      else match regexMatch false missingModulePattern text with
           | Some (_, cap) => cap
           | None => None
           end
  end.

(** [s.replace(/needle/g, replacement)] for a pattern that is a literal,
    non-empty text and a replacement without [$]: the text is scanned from
    the left;
    where the needle starts, the replacement is written and the scan goes
    on after the needle. [skip] counts the characters of a needle just
    replaced that are still to be passed over. *)
Fixpoint replaceFrom (needle replacement : string) (skip : nat) (s : string) : string :=
  match s with
  | EmptyString => EmptyString
  | String c rest =>
      match skip with
      | S skip' => replaceFrom needle replacement skip' rest
      | O =>
          if String.prefix needle s
          then replacement ++ replaceFrom needle replacement (String.length needle - 1) rest
          else String c (replaceFrom needle replacement 0 rest)
      end
  end.

Definition replaceAll (needle replacement : string) (s : string) : string :=
  replaceFrom needle replacement 0 s.

(** [escapeModuleTag] (lines 482-485) *)
Definition escapeModuleTag (text : option string) : string :=
  match text with
  | None => ""
  | Some t => if falsy t then "" else replaceAll "<module>" "&lt;module&gt;" t
  end.

(* ===================================================================== *)
(** * [parseApiContent] (lines 394-444) *)
(* ===================================================================== *)

(** [s.endsWith(suffix)] *)
Definition endsWith (s suffix : string) : bool :=
  (String.length suffix <=? String.length s)%nat &&
  String.eqb (String.substring (String.length s - String.length suffix)
                               (String.length suffix) s) suffix.

Definition backslash : ascii := ascii_of_N 92.

(** The four replacements of [parseApiContent], one after the other: a
    backslash followed by a quotation mark, by [n], by [r] or by [t]
    becomes the quotation mark, a line feed, a carriage return or a tab. *)
Definition unescape (s : string) : string :=
  let escaped (c : ascii) := String backslash (String c EmptyString) in
  let control (n : N) := String (ascii_of_N n) EmptyString in
  replaceAll (escaped "t"%char) (control 9%N)
    (replaceAll (escaped "r"%char) (control 13%N)
       (replaceAll (escaped "n"%char) (control 10%N)
          (replaceAll (escaped dquote) (String dquote EmptyString) s))).

Section ParseApiContent.
Variable number : Type.
(** [JSON.parse(text)]; [None] when it throws. *)
Variable JSON_parse : string -> option (value number).

(** The loop of [parseApiContent] (lines 400-441) with [fuel] iterations
    left; [current] is a string whenever the loop is entered. *)
Fixpoint parseRounds (fuel : nat) (current : string) : value number :=
  match fuel with
  | O => Str current
  | S fuel' =>
      let trimmed := trim current in
      if falsy trimmed then Str ""
      else
        match JSON_parse trimmed with
        | Some (Str parsed) => parseRounds fuel' parsed
        | Some parsed => parsed
        | None =>
            let quoted (q : string) := startsWith trimmed q && endsWith trimmed q in
            if quoted (String dquote EmptyString) || quoted "'"
            then parseRounds fuel' (slice 1 (String.length trimmed - 1) trimmed)
            else
              let unescaped := unescape trimmed in
              if negb (String.eqb unescaped trimmed)
              then parseRounds fuel' unescaped
              else Str current
        end
  end.

(** [parseApiContent] (lines 394-444) *)
Definition parseApiContent (content : value number) (maxDepth : nat) : value number :=
  match content with
  | Str s => parseRounds maxDepth s
  | _ => content
  end.
End ParseApiContent.

Arguments parseRounds {number}.
Arguments parseApiContent {number}.

(** A parser for the examples: it knows the texts [null] and [true] and
    rejects everything else. *)
Definition parseLiteral (text : string) : option (value Z) :=
  if String.eqb text "null" then Some Null
  else if String.eqb text "true" then Some (Bool true)
  else None.

(* ===================================================================== *)
(** * Streamed download under a size limit: [readTextFromUrl]
      (lines 686-706) *)
(* ===================================================================== *)

(** How reading a response body ends: with the bytes of
    [Buffer.concat(chunks)], which the tool then decodes or parses, or with
    the message that the file exceeds the limit of [limit] bytes. *)
Inductive download : Type :=
  | Complete (buffer : list N)
  | ExceedsLimit (limit : N).

(** [maxBytes || fallback] *)
Definition downloadLimit (maxBytes : option N) (fallback : N) : N :=
  match maxBytes with
  | Some n => if (n =? 0)%N then fallback else n
  | None => fallback
  end.

(** The [while (true)] loop over [reader.read()] (lines 694-704, and the
    same at 781-791 and 867-877). [stream] holds the [value] of each read
    that is not [done], [None] when it is [undefined]; the read after the
    last one is [done]. *)
Fixpoint readChunks (limit : N) (stream : list (option (list N))) (downloaded : N)
         (chunks : list (list N)) : download :=
  match stream with
  | [] => Complete (concat chunks)
  | None :: rest => readChunks limit rest downloaded chunks
  | Some value :: rest =>
      let downloaded := (downloaded + N.of_nat (length value))%N in
      if (limit <? downloaded)%N then ExceedsLimit limit
      else readChunks limit rest downloaded (chunks ++ [value])
  end.

(** The body of [readTextFromUrl] as far as the limit goes; the default
    of that tool is 10 MB. *)
Definition readBody (maxBytes : option N) (fallback : N) (stream : list (option (list N)))
  : download :=
  readChunks (downloadLimit maxBytes fallback) stream 0 [].

(** The bytes a stream delivers. *)
Definition streamBytes (stream : list (option (list N))) : list N :=
  concat (omap id stream).

(* ===================================================================== *)
(** * Conversation truncation: [estimateTokenCount],
      [calculateConversationTokens], [truncateConversationHistory],
      [truncateMessageContent] (lines 17-196) *)
(* ===================================================================== *)

Module Conversation.

Section Conversation.
(** The properties of a part or a message that the functions do not read;
    the copies they make carry them along. *)
Context {Other : Type}.

(** A part of a message: its [type], its [text] when it has one. *)
Record part : Type := Part {
  partType : string;
  partText : option string;
  partOther : Other
}.

(** [message.content]: a string or an array of parts. *)
Inductive messageContent : Type :=
  | ContentString (s : string)
  | ContentParts (ps : list part).

(** A chat message, in any of the three formats the functions accept. An
    entry of a conversation that is [null] or [undefined] is [None]. *)
Record message : Type := Message {
  parts : option (list part);
  content : option messageContent;
  text : option string;
  messageOther : Other
}.

Definition isTextPart (p : part) : bool := String.eqb (partType p) "text".

(** [ps.filter(part => part.type === "text").map(part => part.text || "").join(" ")] *)
Definition joinText (ps : list part) : string :=
  join " " (map (fun p => orElse (partText p) "") (List.filter isTextPart ps)).

(** The text both functions extract from a message: [parts] when there
    are some, else a truthy [content], else a truthy [text]. *)
Definition messageText (m : message) : string :=
  let fromText := orElse (text m) "" in
  match parts m with
  | Some ps => joinText ps
  | None =>
      match content m with
      | Some (ContentString s) => if falsy s then fromText else s
      | Some (ContentParts ps) => joinText ps
      | None => fromText
      end
  end.

(** [estimateTokenCount] (lines 17-44): [Math.ceil(text.length / 4)]. *)
Definition estimateTokenCount (m : option message) : Z :=
  match m with
  | None => 0
  | Some m => (Z.of_nat (String.length (messageText m)) + 3) / 4
  end.

(** [calculateConversationTokens] (lines 49-55) *)
Definition calculateConversationTokens (messages : list (option message)) : Z :=
  fold_left (fun total m => total + estimateTokenCount m)%Z messages 0%Z.

(** [{ ...part, text: truncatedText }] for a text part, the part itself
    otherwise. *)
Definition retext (truncatedText : string) (p : part) : part :=
  if isTextPart p then Part (partType p) (Some truncatedText) (partOther p) else p.

(** [truncateMessageContent] (lines 135-196); [None] is [null]. The limit
    is a whole number of tokens. *)
Definition truncateMessageContent (m : option message) (maxTokens : Z) : option message :=
  match m with
  | None => None
  | Some m =>
      if (maxTokens <? 50)%Z then None
      else
        let text0 := messageText m in
        if falsy text0 then Some m
        else
          let maxChars := (maxTokens * 4)%Z in
          if (Z.of_nat (String.length text0) <=? maxChars)%Z then Some m
          else
            let truncatedText :=
              String.substring 0 (Z.to_nat (maxChars - 100)) text0 ++ "... [truncated]" in
            let intoText :=
              match text m with
              | Some t => if falsy t then m
                          else Message (parts m) (content m) (Some truncatedText) (messageOther m)
              | None => m
              end in
            Some match parts m with
                 | Some ps =>
                     Message (Some (map (retext truncatedText) ps)) (content m) (text m)
                             (messageOther m)
                 | None =>
                     match content m with
                     | Some (ContentString s) =>
                         if falsy s then intoText
                         else Message (parts m) (Some (ContentString truncatedText)) (text m)
                                      (messageOther m)
                     | Some (ContentParts ps) =>
                         Message (parts m) (Some (ContentParts (map (retext truncatedText) ps)))
                                 (text m) (messageOther m)
                     | None => intoText
                     end
                 end
  end.

(** The loop of [truncateConversationHistory] (lines 94-118), over the
    messages before the last, newest first; [acc] is [truncatedMessages],
    to which messages are added at the front. *)
Fixpoint keepRecent (maxTokens : Z) (older : list (option message)) (currentTokens : Z)
         (acc : list (option message)) : list (option message) :=
  match older with
  | [] => acc
  | m :: rest =>
      let messageTokens := estimateTokenCount m in
      if (currentTokens + messageTokens >? maxTokens)%Z
      then
        let remainingTokens := (maxTokens - currentTokens)%Z in
        if (remainingTokens >? 100)%Z
        then match truncateMessageContent m remainingTokens with
             | Some truncated => Some truncated :: acc
             | None => acc
             end
        else acc
      else keepRecent maxTokens rest (currentTokens + messageTokens)%Z (m :: acc)
  end.

(** [truncateConversationHistory] (lines 61-130), for a limit that is a
    whole number of tokens. *)
Definition truncateConversationHistory (messages : list (option message)) (maxTokens : Z)
  : list (option message) :=
  match rev messages with
  | [] => messages
  | lastMessage :: older =>
      if (calculateConversationTokens messages <=? maxTokens)%Z then messages
      else
        match lastMessage with
        | Some _ => keepRecent maxTokens older (estimateTokenCount lastMessage) [lastMessage]
        | None => keepRecent maxTokens older 0%Z []
        end
  end.

(** The number of places the text of a message is read from: its text
    parts when it is made of parts, one otherwise. *)
Definition textSources (m : message) : nat :=
  match parts m with
  | Some ps => length (List.filter isTextPart ps)
  | None =>
      match content m with
      | Some (ContentParts ps) => length (List.filter isTextPart ps)
      | _ => 1%nat
      end
  end.

(** A message with at most one text part; [null] counts as one. *)
Definition singleText (m : option message) : bool :=
  match m with
  | None => true
  | Some m => (textSources m <=? 1)%nat
  end.
End Conversation.

Arguments part : clear implicits.
Arguments message : clear implicits.
Arguments messageContent : clear implicits.
End Conversation.

(* ===================================================================== *)
(** * Validation of Python code: [extractImportedModules],
      [detectCodeIssues] (lines 504-591) *)
(* ===================================================================== *)

(** [s.split(sep)] for a separator of one character: the pieces between
    the separators; a text without separator is one piece. *)
Fixpoint splitOn (sep : ascii) (s : string) : list string :=
  match s with
  | EmptyString => [EmptyString]
  | String c rest =>
      if Ascii.eqb c sep then EmptyString :: splitOn sep rest
      else match splitOn sep rest with
           | piece :: more => String c piece :: more
           | [] => [String c EmptyString]
           end
  end.

(** [s.split(sep)[0]] *)
Fixpoint takeUntil (sep : ascii) (s : string) : string :=
  match s with
  | EmptyString => EmptyString
  | String c rest => if Ascii.eqb c sep then EmptyString else String c (takeUntil sep rest)
  end.

(** [code.split(/\r?\n/)]: lines end at a line feed, with the carriage
    return before it when there is one. *)
Fixpoint splitLines (s : string) : list string :=
  match s with
  | EmptyString => [EmptyString]
  | String c rest =>
      let keep := match splitLines rest with
                  | line :: more => String c line :: more
                  | [] => [String c EmptyString]
                  end in
      if (code c =? 10)%N then EmptyString :: splitLines rest
      else if (code c =? 13)%N
           then match rest with
                | String c' rest' =>
                    if (code c' =? 10)%N then EmptyString :: splitLines rest' else keep
                | EmptyString => keep
                end
           else keep
  end.

(** [line.match(/^.../)]: a match of the pattern at the start of the line;
    the result is the capture. *)
Definition matchStart (ci : bool) (r : regex) (line : string) : option (option string) :=
  matchAt ci r line None (fun _ cap => Some cap).

(** [s.split(r)[0]] for a pattern that matches no empty text: what stands
    before the leftmost match, the whole text when there is none. *)
Fixpoint beforeMatch (ci : bool) (r : regex) (s : string) : string :=
  match s with
  | EmptyString => EmptyString
  | String c rest =>
      match matchAt ci r s None (fun _ _ => Some tt) with
      | Some _ => EmptyString
      | None => String c (beforeMatch ci r rest)
      end
  end.

(** [A-Za-z0-9_.] *)
Definition isModulePathChar (c : ascii) : bool := isWord c || Ascii.eqb c ".".

(** [.]: any character but a line terminator. *)
Definition isNotLineEnd (c : ascii) : bool := negb ((code c =? 10)%N || (code c =? 13)%N).

Definition spaces : regex := RRep isSpace 1 None.

(** [/^from\s+([A-Za-z0-9_.]+)\s+import\s+/] *)
Definition fromPattern : regex :=
  RSeq (RLit "from")
    (RSeq spaces
       (RSeq (RGroup (RRep isModulePathChar 1 None))
          (RSeq spaces (RSeq (RLit "import") spaces)))).

(** [/^import\s+(.+)/] *)
Definition importPattern : regex :=
  RSeq (RLit "import") (RSeq spaces (RGroup (RRep isNotLineEnd 1 None))).

(** [/\s+as\s+/i] *)
Definition asPattern : regex := RSeq spaces (RSeq (RLit "as") spaces).

(** [modules.add(name)] on a [Set] kept in insertion order. *)
Definition Set_add (name : string) (modules : list string) : list string :=
  if existsb (String.eqb name) modules then modules else (modules ++ [name])%list.

(** The body of the inner loop over the targets of an [import] line. *)
Definition addTarget (modules : list string) (target : string) : list string :=
  if startsWith target "." then modules
  else
    let base := trim (takeUntil "." (beforeMatch true asPattern target)) in
    if falsy base then modules else Set_add base modules.

(** The body of the loop over the lines. *)
Definition addLine (modules : list string) (rawLine : string) : list string :=
  let line := trim rawLine in
  if falsy line || startsWith line "#" then modules
  else
    match matchStart false fromPattern line with
    | Some fromMatch =>
        let base := default "" fromMatch in
        if startsWith base "." then modules else Set_add (takeUntil "." base) modules
    | None =>
        match matchStart false importPattern line with
        | Some importMatch =>
            let targets :=
              List.filter (fun t => negb (falsy t))
                          (map trim (splitOn "," (default "" importMatch))) in
            fold_left addTarget targets modules
        | None => modules
        end
    end.

(** [extractImportedModules] (lines 504-540) *)
Definition extractImportedModules (code : string) : list string :=
  fold_left addLine (splitLines code) [].

Definition LF : string := String (ascii_of_N 10) EmptyString.
Definition CRLF : string := String (ascii_of_N 13) LF.

(** What every name in the result looks like. *)
Definition isModuleName (name : string) : Prop :=
  name <> "" /\
  trim name = name /\
  forallb (fun c => negb (Ascii.eqb c ".")) (list_ascii_of_string name) = true /\
  forallb (fun c => negb (Ascii.eqb c ",")) (list_ascii_of_string name) = true.

Definition moduleSet (modules : list string) : Prop :=
  NoDup modules /\ Forall isModuleName modules.

(** A [ValidationItem]; [status] is ["pass"] or ["fail"]. *)
Record ValidationItem : Type := MkValidationItem {
  label : string;
  status : string;
  detail : string
}.

(** [A-Za-z_] *)
Definition isIdentStart (c : ascii) : bool := isUpperAZ c || isLowerAZ c || Ascii.eqb c "_".

(** The pattern of a NumPy import with an alias: [import], [numpy] and
    [as] separated by white space, then the captured alias, a character
    of [A-Za-z_] followed by any number of [A-Za-z0-9_]. *)
Definition numpyAliasPattern : regex :=
  RSeq (RLit "import")
    (RSeq spaces
       (RSeq (RLit "numpy")
          (RSeq spaces
             (RSeq (RLit "as")
                (RSeq spaces
                   (RGroup (RSeq (RClass isIdentStart) (RRep isWord 0 None)))))))).

(** [\b] after a word character: the text goes on with no word character. *)
Definition wordEnds (rest : string) : bool :=
  match rest with
  | EmptyString => true
  | String c _ => negb (isWord c)
  end.

(** [/^keyword\s+numpy\b/.test(line)] *)
Definition namesNumpy (keyword : string) (line : string) : bool :=
  isSome (matchAt false (RSeq (RLit keyword) (RSeq spaces (RLit "numpy"))) line None
            (fun rest _ => if wordEnds rest then Some tt else None)).

(** A search for [np], white space and [next] at a place that no word
    character precedes: [/\bnp\s*\./.test(code)] with a dot for [next],
    and [/(^|[^A-Za-z0-9_])np\s*=\s*/.test(code)] with an equals sign,
    whose first group says the same as [\b] does before the word character
    [n]. [afterWord] tells whether the character before [s] is a word
    character. *)
Fixpoint npFollowedBy (next : ascii) (afterWord : bool) (s : string) : bool :=
  (negb afterWord &&
   isSome (matchAt false (RSeq (RLit "np") (RSeq (RRep isSpace 0 None) (RChar next))) s None
             (fun _ _ => Some tt))) ||
  match s with
  | EmptyString => false
  | String c rest => npFollowedBy next (isWord c) rest
  end.

(** The loop of [detectCodeIssues] over the lines: the aliases seen and
    whether NumPy is imported. *)
Definition noteLine (st : list string * bool) (rawLine : string) : list string * bool :=
  let line := trim rawLine in
  if falsy line || startsWith line "#" then st
  else
    match matchStart false numpyAliasPattern line with
    | Some importAlias => (Set_add (default "" importAlias) (fst st), true)
    | None =>
        if namesNumpy "import" line || namesNumpy "from" line
        then (Set_add "numpy" (fst st), true)
        else st
    end.

(** [detectCodeIssues] (lines 542-591); [None] is [null]. *)
Definition detectCodeIssues (code : string) : option ValidationItem :=
  let '(numpyAliases, importsNumpy) := fold_left noteLine (splitLines code) ([], false) in
  if importsNumpy
  then
    let usesNpIdentifier := npFollowedBy "." false code in
    let overridesNp := npFollowedBy "=" false code in
    let hasNpAlias := existsb (String.eqb "np") numpyAliases in
    if usesNpIdentifier && negb hasNpAlias
    then Some (MkValidationItem "NumPy Alias Safety" "fail"
                 "The code calls `np.` functions but never assigns the `np` alias. Import NumPy as `np` (not allowed here) or reference the chosen alias consistently.")
    else if overridesNp
    then Some (MkValidationItem "NumPy Alias Safety" "fail"
                 "The identifier `np` is reassigned in the script, so subsequent calls like `np.exp()` will break. Avoid assigning new values to `np` after importing NumPy.")
    else None
  else None.

(* ===================================================================== *)
(** * Properties of the deduplicator *)
(* ===================================================================== *)

Section DedupeFacts.
Context {T : Type}.
Variable getId : T -> string.

Lemma falsy_true (s : string) : falsy s = true <-> s = "".
Proof. unfold falsy. apply String.eqb_eq. Qed.

Lemma falsy_false (s : string) : falsy s = false <-> s <> "".
Proof. unfold falsy. apply String.eqb_neq. Qed.

(** One step of the filter, by cases on the id of the head. *)
Lemma filterUnseen_cons (seen : gset string) (x : T) (rest : list T) :
  filterUnseen getId seen (x :: rest) =
  if falsy (getId x) || bool_decide (getId x ∈ seen)
  then filterUnseen getId seen rest
  else (x :: fst (filterUnseen getId ({[getId x]} ∪ seen) rest),
        snd (filterUnseen getId ({[getId x]} ∪ seen) rest)).
Proof.
  simpl. destruct (falsy (getId x) || bool_decide (getId x ∈ seen)); [done|].
  by destruct (filterUnseen getId ({[getId x]} ∪ seen) rest).
Qed.

(** Every kept record has a non-empty id the set did not hold. *)
Lemma filterUnseen_kept (arr : list T) :
  forall (seen : gset string) (x : T),
    x ∈ fst (filterUnseen getId seen arr) -> getId x <> "" /\ getId x ∉ seen.
Proof.
  induction arr as [|y rest IH]; intros seen x Hx.
  - simpl in Hx. by apply elem_of_nil in Hx.
  - rewrite filterUnseen_cons in Hx.
    destruct (falsy (getId y)) eqn:Hf; simpl in Hx; [by apply IH|].
    case_bool_decide as Hin; simpl in Hx; [by apply IH|].
    apply elem_of_cons in Hx as [->|Hx].
    + split; [by apply falsy_false|done].
    + apply IH in Hx as [? Hn]. split; [done|]. set_solver.
Qed.

(** The kept records are a subsequence of the input. *)
Lemma filterUnseen_sublist (arr : list T) :
  forall seen : gset string, sublist (fst (filterUnseen getId seen arr)) arr.
Proof.
  induction arr as [|y rest IH]; intros seen.
  - simpl. constructor.
  - rewrite filterUnseen_cons.
    destruct (falsy (getId y) || bool_decide (getId y ∈ seen)); simpl.
    + by apply sublist_cons.
    + by apply sublist_skip.
Qed.

(** The ids of the kept records are pairwise distinct. *)
Lemma filterUnseen_NoDup (arr : list T) :
  forall seen : gset string, NoDup (getId <$> fst (filterUnseen getId seen arr)).
Proof.
  induction arr as [|y rest IH]; intros seen.
  - simpl. constructor.
  - rewrite filterUnseen_cons.
    destruct (falsy (getId y) || bool_decide (getId y ∈ seen)); simpl; [done|].
    apply NoDup_cons. split; [|done].
    intros Hin. apply list_elem_of_fmap in Hin as (z & Hz & Hzin).
    apply filterUnseen_kept in Hzin as [_ Hn]. set_solver.
Qed.

Lemma filter_none {A : Type} (p : A -> bool) (l : list A) :
  (forall y, y ∈ l -> p y = false) -> List.filter p l = [].
Proof.
  induction l as [|y l IH]; intros H; [done|]. simpl.
  rewrite (H y) by (apply elem_of_cons; by left).
  apply IH. intros z Hz. apply H. apply elem_of_cons. by right.
Qed.

(** The survivors with a given non-empty, unseen id are exactly the first
    record of the input that has it. *)
Lemma filterUnseen_first (pre : list T) :
  forall (seen : gset string) (x : T) (post : list T),
    getId x <> "" -> getId x ∉ seen ->
    (forall y, y ∈ pre -> getId y <> getId x) ->
    List.filter (fun y => String.eqb (getId y) (getId x))
                (fst (filterUnseen getId seen (pre ++ x :: post))) = [x].
Proof.
  induction pre as [|z pre IH]; intros seen x post Hne Hseen Hpre.
  - simpl app. rewrite filterUnseen_cons.
    apply falsy_false in Hne as Hf. rewrite Hf. rewrite bool_decide_eq_false_2 by done.
    simpl. rewrite String.eqb_refl. f_equal.
    apply filter_none. intros y Hy.
    apply filterUnseen_kept in Hy as [_ Hy].
    apply String.eqb_neq. set_solver.
  - simpl app. rewrite filterUnseen_cons.
    assert (Hz : getId z <> getId x) by (apply Hpre, elem_of_cons; by left).
    assert (Hrest : forall y, y ∈ pre -> getId y <> getId x)
      by (intros y Hy; apply Hpre, elem_of_cons; by right).
    destruct (falsy (getId z) || bool_decide (getId z ∈ seen)); simpl.
    + by apply IH.
    + apply String.eqb_neq in Hz as Hzb. rewrite Hzb.
      apply IH; [done| |done]. set_solver.
Qed.

(** With a request id, the filter of [dedupeAgainstRequest] is the one of
    [dedupeBy], started from the bag of the request. *)
Lemma dedupeAgainstRequest_present (rid : string) (items : list T)
      (seenByRequest : gmap string (gset string)) :
  rid <> "" ->
  fst (dedupeAgainstRequest getId (Some rid) items seenByRequest) =
  fst (filterUnseen getId (default ∅ (seenByRequest !! rid)) items).
Proof.
  intros Hrid. unfold dedupeAgainstRequest.
  apply falsy_false in Hrid. rewrite Hrid.
  by destruct (filterUnseen getId (default ∅ (seenByRequest !! rid)) items).
Qed.
End DedupeFacts.

(** C9. [dedupeAgainstRequest] without a request id ([undefined], or the
    empty string, which is as falsy) returns the list it was given and
    leaves the process-wide map of seen sets as it was, for every list and
    every id function. *)
Theorem dedupeAgainstRequest_absent_is_passthrough :
  forall (T : Type) (getId : T -> string) (items : list T)
         (seenByRequest : gmap string (gset string)),
    dedupeAgainstRequest getId None items seenByRequest = (items, seenByRequest) /\
    dedupeAgainstRequest getId (Some "") items seenByRequest = (items, seenByRequest).
Proof. intros T getId items seenByRequest. split; reflexivity. Qed.

(** C10. [dedupeBy] keeps no record whose id is empty, not even the first;
    its output is a subsequence of the input with pairwise distinct ids;
    and for every record of the input with a non-empty id that no earlier
    record has, the survivors with that id are exactly that record. With a
    request id, [dedupeAgainstRequest] keeps no record with an empty id
    either. *)
Theorem dedupeBy_drops_empty_ids_keeps_first :
  forall (T : Type) (getId : T -> string) (arr : list T),
    (forall x, x ∈ dedupeBy getId arr -> getId x <> "") /\
    sublist (dedupeBy getId arr) arr /\
    NoDup (getId <$> dedupeBy getId arr) /\
    (forall (pre : list T) (x : T) (post : list T),
        arr = (pre ++ x :: post)%list ->
        getId x <> "" ->
        (forall y, y ∈ pre -> getId y <> getId x) ->
        List.filter (fun y => String.eqb (getId y) (getId x)) (dedupeBy getId arr) = [x]) /\
    (forall (rid : string) (seenByRequest : gmap string (gset string)) (x : T),
        rid <> "" ->
        x ∈ fst (dedupeAgainstRequest getId (Some rid) arr seenByRequest) ->
        getId x <> "").
Proof.
  intros T getId arr. unfold dedupeBy. repeat split.
  - intros x Hx. by apply filterUnseen_kept in Hx as [? _].
  - apply filterUnseen_sublist.
  - apply filterUnseen_NoDup.
  - intros pre x post -> Hne Hpre. apply filterUnseen_first; [done|set_solver|done].
  - intros rid seenByRequest x Hrid Hx.
    rewrite dedupeAgainstRequest_present in Hx by done.
    by apply filterUnseen_kept in Hx as [? _].
Qed.

(** The records with an empty id at the head, in the middle and at the end
    of a list are all dropped; of two records with id [a] the first stays. *)
Example dedupeBy_example :
  let items : list (string * nat) := [("", 1); ("a", 2); ("", 3); ("b", 4); ("a", 5)] in
  let seen : gmap string (gset string) := {["req-1" := {["b"]}]} in
  (dedupeBy fst items = [("a", 2); ("b", 4)]) /\
  (fst (dedupeAgainstRequest fst (Some "req-1") items seen) = [("a", 2)]).
Proof. split; vm_compute; reflexivity. Qed.

(* ===================================================================== *)
(** * Properties of the retrying timeout wrapper *)
(* ===================================================================== *)

Section RetryFacts.
Context {Query Options R : Type}.
Variable valyu : Query -> Options -> Z -> attempt R.
Variable backoffLate : Z -> N.
Variables (searchQuery : Query) (searchOptions : Options).
Variables (timeoutMs : N) (maxRetries : Z).

Local Abbreviation loop :=
  (attemptLoop valyu backoffLate searchQuery searchOptions timeoutMs maxRetries).

(** An attempt whose call rejects with a retryable message, with a retry
    left: the wrapper sleeps [2^attempt] seconds and goes round again. *)
Lemma attemptLoop_retry (remaining : nat) (attempt : Z) (lastError : option string)
      (w : timeline) (message : string) (took : N) :
  valyu searchQuery searchOptions attempt = Rejects message took ->
  isRetryable message = true ->
  (attempt < maxRetries)%Z ->
  loop (S remaining) attempt lastError w =
  loop remaining (attempt + 1)%Z (Some message)
       (Timeline (now w + took + (Z.to_N (2 ^ attempt * 1000) + backoffLate attempt))
                 (trace w ++ [Called (now w); Failed (now w + took)%N message;
                              Slept (Z.to_N (2 ^ attempt * 1000))])).
Proof.
  intros Hcall Hretry Hlt. simpl. rewrite Hcall, Hretry.
  apply Z.ltb_lt in Hlt. rewrite Hlt. simpl.
  unfold advance, record. simpl. by rewrite <- !app_assoc.
Qed.

(** An attempt whose call rejects and is not retried: the error of the
    call is thrown. *)
Lemma attemptLoop_throw (remaining : nat) (attempt : Z) (lastError : option string)
      (w : timeline) (message : string) (took : N) :
  valyu searchQuery searchOptions attempt = Rejects message took ->
  isRetryable message && (attempt <? maxRetries)%Z = false ->
  loop (S remaining) attempt lastError w =
  (Timeline (now w + took) (trace w ++ [Called (now w); Failed (now w + took)%N message]),
   inr message).
Proof.
  intros Hcall Hstop. simpl. rewrite Hcall, Hstop.
  unfold advance, record. simpl. by rewrite <- !app_assoc.
Qed.
End RetryFacts.

Lemma invocations_app (tr1 tr2 : list event) :
  invocations (tr1 ++ tr2) = (invocations tr1 + invocations tr2)%nat.
Proof. unfold invocations. by rewrite List.filter_app, length_app. Qed.

Lemma backoffs_app (tr1 tr2 : list event) :
  backoffs (tr1 ++ tr2) = (backoffs tr1 ++ backoffs tr2)%list.
Proof. unfold backoffs. by rewrite flat_map_app. Qed.

(** C4. When every invocation of the underlying call rejects with a message
    that contains ETIMEDOUT, [callValyuWithTimeout] with [maxRetries = 2]
    invokes the call exactly three times, sleeps 1000 ms and then 2000 ms
    in between, starts the second attempt no earlier than 1000 ms after the
    first failed and the third no earlier than 2000 ms after the second
    failed, and throws the error of the third attempt. *)
Theorem callValyuWithTimeout_ETIMEDOUT_three_attempts :
  forall (Query Options R : Type) (valyu : Query -> Options -> Z -> attempt R)
         (backoffLate : Z -> N) (searchQuery : Query) (searchOptions : Options)
         (timeoutMs : N) (w : timeline) (message : Z -> string) (took : Z -> N),
    (forall n, valyu searchQuery searchOptions n = Rejects (message n) (took n)) ->
    (forall n, includes (message n) "ETIMEDOUT" = true) ->
    let r := callValyuWithTimeout valyu backoffLate searchQuery searchOptions timeoutMs 2 w in
    snd r = inr (message 2%Z) /\
    invocations (trace (fst r)) = (invocations (trace w) + 3)%nat /\
    backoffs (trace (fst r)) = (backoffs (trace w) ++ [1000; 2000])%N%list /\
    exists start2 start3 : N,
      trace (fst r) =
      (trace w ++ [Called (now w); Failed (now w + took 0%Z) (message 0%Z); Slept 1000;
                   Called start2; Failed (start2 + took 1%Z) (message 1%Z); Slept 2000;
                   Called start3; Failed (start3 + took 2%Z) (message 2%Z)])%N%list /\
      (now w + took 0%Z + 1000 <= start2)%N /\
      (start2 + took 1%Z + 2000 <= start3)%N.
Proof.
  intros Query Options R valyu backoffLate q o timeoutMs w message took Hcall Hmsg r.
  assert (Hretry : forall n, isRetryable (message n) = true).
  { intros n. unfold isRetryable. rewrite Hmsg. by rewrite !orb_true_r. }
  assert (Hr : r =
    (Timeline (now w + took 0%Z + (1000 + backoffLate 0%Z) + took 1%Z +
               (2000 + backoffLate 1%Z) + took 2%Z)
       (trace w ++ [Called (now w); Failed (now w + took 0%Z) (message 0%Z); Slept 1000;
          Called (now w + took 0%Z + (1000 + backoffLate 0%Z));
          Failed (now w + took 0%Z + (1000 + backoffLate 0%Z) + took 1%Z) (message 1%Z);
          Slept 2000;
          Called (now w + took 0%Z + (1000 + backoffLate 0%Z) + took 1%Z +
                  (2000 + backoffLate 1%Z));
          Failed (now w + took 0%Z + (1000 + backoffLate 0%Z) + took 1%Z +
                  (2000 + backoffLate 1%Z) + took 2%Z) (message 2%Z)]),
     inr (message 2%Z))%N).
  { subst r. unfold callValyuWithTimeout.
    change (Z.to_nat (2 + 1)) with 3%nat.
    rewrite (attemptLoop_retry _ _ _ _ _ _ _ _ _ _ _ _ (Hcall 0%Z) (Hretry 0%Z)) by lia.
    rewrite (attemptLoop_retry _ _ _ _ _ _ _ _ _ _ _ _ (Hcall (0 + 1)%Z) (Hretry (0 + 1)%Z)) by lia.
    rewrite (attemptLoop_throw _ _ _ _ _ _ _ _ _ _ _ _ (Hcall (0 + 1 + 1)%Z)).
    2:{ rewrite Hretry. reflexivity. }
    simpl. rewrite <- !app_assoc. reflexivity. }
  rewrite Hr. simpl. repeat split.
  - rewrite invocations_app. reflexivity.
  - rewrite backoffs_app. reflexivity.
  - eexists _, _. split; [reflexivity|]. lia.
Qed.

Lemma callValyuWithTimeout_ETIMEDOUT_three_attempts_witness :
  let valyu := fun (_ _ : unit) (_ : Z) => @Rejects unit "connect ETIMEDOUT 10.0.0.1:443" 40 in
  let r := callValyuWithTimeout valyu (fun _ => 3%N) tt tt 30000 2 (Timeline 0 []) in
  snd r = inr "connect ETIMEDOUT 10.0.0.1:443" /\
  invocations (trace (fst r)) = 3%nat /\
  backoffs (trace (fst r)) = [1000; 2000]%N.
Proof.
  intros valyu r.
  pose proof (callValyuWithTimeout_ETIMEDOUT_three_attempts unit unit unit valyu (fun _ => 3%N)
                tt tt 30000%N (Timeline 0 [])
                (fun _ => "connect ETIMEDOUT 10.0.0.1:443") (fun _ => 40%N)
                (fun n => eq_refl) (fun n => eq_refl)) as (Hres & Hinv & Hback & _).
  exact (conj Hres (conj Hinv Hback)).
Defined.

(** C5. When the underlying call rejects with a message that contains none
    of timeout, ECONNRESET, ENOTFOUND and ETIMEDOUT, [callValyuWithTimeout]
    invokes the call exactly once, sleeps for no backoff and throws that
    error, whatever the number of retries allowed. *)
Theorem callValyuWithTimeout_nonretryable_once :
  forall (Query Options R : Type) (valyu : Query -> Options -> Z -> attempt R)
         (backoffLate : Z -> N) (searchQuery : Query) (searchOptions : Options)
         (timeoutMs : N) (maxRetries : Z) (w : timeline) (message : string) (took : N),
    (0 <= maxRetries)%Z ->
    valyu searchQuery searchOptions 0%Z = Rejects message took ->
    includes message "timeout" = false ->
    includes message "ECONNRESET" = false ->
    includes message "ENOTFOUND" = false ->
    includes message "ETIMEDOUT" = false ->
    let r := callValyuWithTimeout valyu backoffLate searchQuery searchOptions
               timeoutMs maxRetries w in
    snd r = inr message /\
    trace (fst r) = (trace w ++ [Called (now w); Failed (now w + took)%N message])%list /\
    invocations (trace (fst r)) = (invocations (trace w) + 1)%nat /\
    backoffs (trace (fst r)) = backoffs (trace w) /\
    now (fst r) = (now w + took)%N.
Proof.
  intros Query Options R valyu backoffLate q o timeoutMs maxRetries w message took
         Hmax Hcall H1 H2 H3 H4 r.
  subst r. unfold callValyuWithTimeout.
  replace (Z.to_nat (maxRetries + 1)) with (S (Z.to_nat maxRetries)) by lia.
  rewrite (attemptLoop_throw _ _ _ _ _ _ _ _ _ _ _ _ Hcall).
  2:{ unfold isRetryable. by rewrite H1, H2, H3, H4. }
  simpl. repeat split.
  - rewrite invocations_app. reflexivity.
  - rewrite backoffs_app. simpl. by rewrite app_nil_r.
Qed.

Lemma callValyuWithTimeout_nonretryable_once_witness :
  let valyu := fun (_ _ : unit) (_ : Z) => @Rejects unit "401 unauthorized" 25 in
  let r := callValyuWithTimeout valyu (fun _ => 0%N) tt tt 30000 2 (Timeline 0 []) in
  snd r = inr "401 unauthorized" /\
  trace (fst r) = [Called 0; Failed 25 "401 unauthorized"].
Proof.
  intros valyu r.
  pose proof (callValyuWithTimeout_nonretryable_once unit unit unit valyu (fun _ => 0%N)
                tt tt 30000%N 2%Z (Timeline 0 []) "401 unauthorized" 25%N
                ltac:(lia) eq_refl eq_refl eq_refl eq_refl eq_refl) as (Hres & Htrace & _).
  exact (conj Hres Htrace).
Defined.

(** The loop from any attempt on, when every invocation rejects with a
    retryable message: one invocation per attempt left, a sleep of
    [2^attempt] seconds after each but the last, the last error thrown. *)
Lemma attemptLoop_exhausts {Query Options R : Type}
      (valyu : Query -> Options -> Z -> attempt R) (backoffLate : Z -> N)
      (searchQuery : Query) (searchOptions : Options) (timeoutMs : N) (maxRetries : Z)
      (message : Z -> string) (took : Z -> N) :
  (forall n, valyu searchQuery searchOptions n = Rejects (message n) (took n)) ->
  (forall n, isRetryable (message n) = true) ->
  forall (left : nat) (attempt : Z) (lastError : option string) (w : timeline),
    (attempt + Z.of_nat left = maxRetries)%Z ->
    let r := attemptLoop valyu backoffLate searchQuery searchOptions timeoutMs maxRetries
               (S left) attempt lastError w in
    snd r = inr (message maxRetries) /\
    invocations (trace (fst r)) = (invocations (trace w) + S left)%nat /\
    backoffs (trace (fst r)) =
    (backoffs (trace w) ++
     map (fun i => Z.to_N (2 ^ i * 1000)) (seqZ attempt (Z.of_nat left)))%list.
Proof.
  intros Hcall Hretry. induction left as [|left IH]; intros attempt lastError w Hleft r.
  - subst r. rewrite (attemptLoop_throw _ _ _ _ _ _ _ _ _ _ _ _ (Hcall attempt)).
    2:{ replace attempt with maxRetries by lia. by rewrite Z.ltb_irrefl, andb_false_r. }
    simpl. replace attempt with maxRetries by lia. repeat split.
    + rewrite invocations_app. simpl. reflexivity.
    + rewrite backoffs_app. reflexivity.
  - subst r.
    rewrite (attemptLoop_retry _ _ _ _ _ _ _ _ _ _ _ _ (Hcall attempt) (Hretry attempt)) by lia.
    specialize (IH (attempt + 1)%Z (Some (message attempt))
                   (Timeline (now w + took attempt +
                              (Z.to_N (2 ^ attempt * 1000) + backoffLate attempt))
                             (trace w ++ [Called (now w);
                                          Failed (now w + took attempt)%N (message attempt);
                                          Slept (Z.to_N (2 ^ attempt * 1000))]))
                   ltac:(lia)).
    cbv zeta in IH. destruct IH as (Hres & Hinv & Hback).
    split; [exact Hres|]. split.
    + rewrite Hinv. simpl trace. rewrite invocations_app. simpl. unfold invocations at 2.
      simpl. lia.
    + rewrite Hback. simpl trace. rewrite backoffs_app.
      rewrite Nat2Z.inj_succ, (seqZ_cons attempt) by lia.
      rewrite Z.pred_succ. replace (Z.succ attempt) with (attempt + 1)%Z by lia.
      rewrite <- app_assoc. reflexivity.
Qed.

(** For any number of retries: when every invocation rejects with a
    retryable message, the wrapper invokes the call [maxRetries + 1] times,
    sleeps [2^attempt] seconds after each attempt but the last, and throws
    the error of the last attempt. *)
Theorem callValyuWithTimeout_exhausts_retries :
  forall (Query Options R : Type) (valyu : Query -> Options -> Z -> attempt R)
         (backoffLate : Z -> N) (searchQuery : Query) (searchOptions : Options)
         (timeoutMs : N) (maxRetries : Z) (w : timeline)
         (message : Z -> string) (took : Z -> N),
    (0 <= maxRetries)%Z ->
    (forall n, valyu searchQuery searchOptions n = Rejects (message n) (took n)) ->
    (forall n, isRetryable (message n) = true) ->
    let r := callValyuWithTimeout valyu backoffLate searchQuery searchOptions
               timeoutMs maxRetries w in
    snd r = inr (message maxRetries) /\
    invocations (trace (fst r)) = (invocations (trace w) + Z.to_nat (maxRetries + 1))%nat /\
    backoffs (trace (fst r)) =
    (backoffs (trace w) ++ map (fun i => Z.to_N (2 ^ i * 1000)) (seqZ 0 maxRetries))%list.
Proof.
  intros Query Options R valyu backoffLate q o timeoutMs maxRetries w message took
         Hmax Hcall Hretry r.
  subst r. unfold callValyuWithTimeout.
  replace (Z.to_nat (maxRetries + 1)) with (S (Z.to_nat maxRetries)) by lia.
  pose proof (attemptLoop_exhausts valyu backoffLate q o timeoutMs maxRetries message took
                Hcall Hretry (Z.to_nat maxRetries) 0%Z None w ltac:(lia)) as H.
  cbv zeta in H. rewrite Z2Nat.id in H by lia. exact H.
Qed.

Lemma callValyuWithTimeout_exhausts_retries_witness :
  let valyu := fun (_ _ : unit) (_ : Z) => @Rejects unit "read ECONNRESET" 10 in
  let r := callValyuWithTimeout valyu (fun _ => 0%N) tt tt 15000 4 (Timeline 0 []) in
  snd r = inr "read ECONNRESET" /\
  invocations (trace (fst r)) = 5%nat /\
  backoffs (trace (fst r)) = [1000; 2000; 4000; 8000]%N.
Proof.
  intros valyu r.
  exact (callValyuWithTimeout_exhausts_retries unit unit unit valyu (fun _ => 0%N) tt tt
           15000%N 4%Z (Timeline 0 []) (fun _ => "read ECONNRESET") (fun _ => 10%N)
           ltac:(lia) (fun n => eq_refl) (fun n => eq_refl)).
Defined.

(** A rate-limit error is not retried either; a call that stalls is, and a
    negative number of retries makes no attempt at all. *)
Example callValyuWithTimeout_examples :
  snd (callValyuWithTimeout (fun (_ _ : unit) (_ : Z) => @Rejects unit "429 Too Many Requests" 5)
         (fun _ => 0%N) tt tt 30000 2 (Timeline 0 [])) = inr "429 Too Many Requests" /\
  callValyuWithTimeout (fun (_ _ : unit) (n : Z) => if (n =? 1)%Z then Fulfils tt 7 else Stalls 1)
    (fun _ => 3%N) tt tt 30000 2 (Timeline 0 []) =
  (Timeline 31011 [Called 0; Failed 30001 "Request timeout after 30000ms"; Slept 1000;
                   Called 31004], inl tt) /\
  callValyuWithTimeout (fun (_ _ : unit) (_ : Z) => @Stalls unit 0)
    (fun _ => 0%N) tt tt 30000 (-1) (Timeline 0 []) =
  (Timeline 0 [], inr "All retry attempts failed").
Proof. repeat split; vm_compute; reflexivity. Qed.

(* ===================================================================== *)
(** * Properties of the session memo store *)
(* ===================================================================== *)

Section JsMapFacts.
Context {V : Type}.
Implicit Types (m : list (string * V)) (k : string) (v : V).

Lemma Map_has_get m k : Map_has m k = true <-> exists v, Map_get m k = Some v.
Proof.
  induction m as [|[k' v'] m IH]; simpl.
  - split; [done|]. by intros [v ?].
  - destruct (String.eqb k' k); simpl; [|done]. split; eauto.
Qed.

Lemma Map_has_false_get m k : Map_has m k = false <-> Map_get m k = None.
Proof.
  induction m as [|[k' v'] m IH]; simpl; [done|].
  destruct (String.eqb k' k); simpl; [|done]. split; done.
Qed.

Lemma Map_set_length m k v : (length (Map_set m k v) <= S (length m))%nat.
Proof.
  induction m as [|[k' v'] m IH]; simpl; [lia|].
  destruct (String.eqb k' k); simpl; lia.
Qed.

Lemma Map_set_fresh m k v : Map_has m k = false -> Map_set m k v = (m ++ [(k, v)])%list.
Proof.
  induction m as [|[k' v'] m IH]; simpl; [done|].
  destruct (String.eqb k' k); simpl; [done|]. intros H. by rewrite IH.
Qed.

Lemma Map_delete_length m k : (length (Map_delete m k) <= length m)%nat.
Proof. unfold Map_delete. apply List.filter_length_le. Qed.

(** Deleting a key leaves the other entries, in their order. *)
Lemma Map_delete_absent m k : Map_has m k = false -> Map_delete m k = m.
Proof.
  induction m as [|[k' v'] m IH]; simpl; [done|].
  destruct (String.eqb k' k) eqn:E; simpl; [done|]. intros H. by rewrite IH.
Qed.

Lemma Map_has_delete_other m k k' :
  k <> k' -> Map_has (Map_delete m k) k' = Map_has m k'.
Proof.
  intros Hne. induction m as [|[k0 v0] m IH]; simpl; [done|].
  destruct (String.eqb k0 k) eqn:E; simpl.
  - apply String.eqb_eq in E as ->.
    apply String.eqb_neq in Hne. by rewrite Hne.
  - by rewrite IH.
Qed.
End JsMapFacts.

Section SessionMemoFacts.
Context {V : Type}.
Implicit Types (store : gmap string (list (string * V))) (w : @memoWorld V).

Lemma sessionBag_insert store (sid : string) (bag : list (string * V)) :
  sessionBag sid (<[sid := bag]> store) = bag.
Proof. unfold sessionBag. by rewrite lookup_insert_eq. Qed.

Lemma sessionBag_insert_ne store (sid sid' : string) (bag : list (string * V)) :
  sid <> sid' -> sessionBag sid' (<[sid := bag]> store) = sessionBag sid' store.
Proof. intros H. unfold sessionBag. by rewrite lookup_insert_ne. Qed.

(** Creating the bag of a session changes the bag of no session. *)
Lemma sessionBag_create store (sid sid' : string) :
  sessionBag sid' (<[sid := sessionBag sid store]> store) = sessionBag sid' store.
Proof.
  destruct (decide (sid = sid')) as [->|Hne].
  - apply sessionBag_insert.
  - by apply sessionBag_insert_ne.
Qed.

(** A call that is not served from the memo invokes [run] once and
    returns what it settles to. *)
Lemma withSessionMemo_uncached (sessionId : option string) (key : string)
      (run : nat -> V + string) w :
  cached sessionId key (memoBySession w) = false ->
  snd (withSessionMemo sessionId key run w) = run (runCalls w) /\
  runCalls (fst (withSessionMemo sessionId key run w)) = S (runCalls w).
Proof.
  intros Hc. unfold withSessionMemo, memoBegin.
  destruct sessionId as [sid|]; [|done].
  simpl in Hc. destruct (falsy sid); [done|]. simpl in Hc. rewrite Hc.
  by destruct (run (runCalls w)).
Qed.

(** A call whose [run] rejects leaves every bag as it was. *)
Lemma withSessionMemo_rejected (sessionId : option string) (key : string)
      (run : nat -> V + string) w (error : string) :
  cached sessionId key (memoBySession w) = false ->
  run (runCalls w) = inr error ->
  forall sid', sessionBag sid' (memoBySession (fst (withSessionMemo sessionId key run w))) =
               sessionBag sid' (memoBySession w).
Proof.
  intros Hc Hrun sid'. unfold withSessionMemo, memoBegin.
  destruct sessionId as [sid|]; [|done].
  simpl in Hc. destruct (falsy sid); [done|]. simpl in Hc. rewrite Hc, Hrun. simpl.
  apply sessionBag_create.
Qed.
End SessionMemoFacts.

(** C3. If the key is not in the memo of the session and [run] rejects,
    then [withSessionMemo] rejects with the error of [run] after invoking
    it once, no bag of any session gains or loses an entry, the key is
    still not in the memo, and a second call with the same session and key
    invokes its [run] again and returns what that settles to. *)
Theorem withSessionMemo_failure_not_cached :
  forall (V : Type) (sessionId : option string) (key : string)
         (run run' : nat -> V + string) (w : memoWorld) (error : string),
    cached sessionId key (memoBySession w) = false ->
    run (runCalls w) = inr error ->
    let w1 := fst (withSessionMemo sessionId key run w) in
    let w2 := fst (withSessionMemo sessionId key run' w1) in
    snd (withSessionMemo sessionId key run w) = inr error /\
    runCalls w1 = S (runCalls w) /\
    (forall sid, sessionBag sid (memoBySession w1) = sessionBag sid (memoBySession w)) /\
    cached sessionId key (memoBySession w1) = false /\
    snd (withSessionMemo sessionId key run' w1) = run' (runCalls w1) /\
    runCalls w2 = S (runCalls w1).
Proof.
  intros V sessionId key run run' w error Hc Hrun w1 w2.
  destruct (withSessionMemo_uncached sessionId key run w Hc) as [Hres Hcalls].
  pose proof (withSessionMemo_rejected sessionId key run w error Hc Hrun) as Hbags.
  assert (Hc1 : cached sessionId key (memoBySession w1) = false).
  { subst w1. destruct sessionId as [sid|]; [|done]. simpl in *. by rewrite Hbags. }
  destruct (withSessionMemo_uncached sessionId key run' w1 Hc1) as [Hres' Hcalls'].
  rewrite Hres, Hrun. done.
Qed.

Lemma withSessionMemo_failure_not_cached_witness :
  let run : nat -> nat + string := fun _ => inr "ECONNREFUSED" in
  let w : memoWorld := MemoWorld ∅ 0 in
  let w1 := fst (withSessionMemo (Some "session-1") "webSearch::gdp::{}" run w) in
  let w2 := fst (withSessionMemo (Some "session-1") "webSearch::gdp::{}" run w1) in
  snd (withSessionMemo (Some "session-1") "webSearch::gdp::{}" run w) = inr "ECONNREFUSED" /\
  runCalls w1 = 1%nat /\ runCalls w2 = 2%nat.
Proof.
  intros run w w1 w2.
  pose proof (withSessionMemo_failure_not_cached nat (Some "session-1") "webSearch::gdp::{}"
                run run w "ECONNREFUSED" eq_refl eq_refl) as (H1 & H2 & _ & _ & _ & H3).
  split; [exact H1|]. split; [exact H2|]. subst w2 w1. rewrite H3, H2. reflexivity.
Defined.

Section EvictionFacts.
Context {V : Type}.
Implicit Types (store : gmap string (list (string * V))) (bag : list (string * V)).

(** Looking a key up creates the bag of the session at most; no bag
    changes. *)
Lemma memoBegin_bags (sessionId : option string) (key : string) store (sid' : string) :
  sessionBag sid' (fst (memoBegin sessionId key store)) = sessionBag sid' store.
Proof.
  unfold memoBegin. destruct sessionId as [sid|]; [|done].
  destruct (falsy sid); [done|].
  destruct (Map_has (sessionBag sid store) key); [destruct (Map_get _ _)|];
    simpl; apply sessionBag_create.
Qed.

(** Storing a result touches the bag of its session only. *)
Lemma memoStore_other (sid sid' key : string) (value : V) store :
  sid <> sid' -> sessionBag sid' (memoStore sid key value store) = sessionBag sid' store.
Proof. intros Hne. unfold memoStore. by apply sessionBag_insert_ne. Qed.

(** As long as the oldest key of a bag is not the empty string, storing a
    result keeps the bag within [SESSION_MEMO_MAX_KEYS]. *)
Lemma memoStore_within_capacity (sid key : string) (value : V) store :
  Map_firstKey (sessionBag sid store) <> Some "" ->
  (Map_size (sessionBag sid store) <= SESSION_MEMO_MAX_KEYS)%nat ->
  (Map_size (sessionBag sid (memoStore sid key value store)) <= SESSION_MEMO_MAX_KEYS)%nat.
Proof.
  intros Hfirst Hsize. unfold memoStore, bagStore, evictOldest. rewrite sessionBag_insert.
  unfold Map_size in *. set (bag := sessionBag sid store) in *.
  destruct (SESSION_MEMO_MAX_KEYS <=? length bag)%nat eqn:Hfull.
  - destruct bag as [|[k0 v0] rest]; [done|]. simpl in Hfirst |- *.
    destruct (falsy k0) eqn:Hk0.
    { apply falsy_true in Hk0 as ->. done. }
    unfold Map_delete. simpl. rewrite String.eqb_refl. simpl.
    pose proof (Map_set_length (List.filter (fun kv => negb (fst kv =? k0)%string) rest) key value).
    pose proof (List.filter_length_le (fun kv : string * V => negb (fst kv =? k0)%string) rest).
    simpl in Hsize. lia.
  - apply Nat.leb_gt in Hfull.
    pose proof (Map_set_length bag key value). lia.
Qed.

(** First in, first out: storing a new key in a full bag whose oldest key
    is not the empty string removes exactly the oldest entry and appends
    the new one; the other entries keep their order. *)
Lemma memoStore_evicts_oldest (sid key k0 : string) (value v0 : V) store
      (rest : list (string * V)) :
  sessionBag sid store = (k0, v0) :: rest ->
  k0 <> "" ->
  Map_has rest k0 = false ->
  Map_has ((k0, v0) :: rest) key = false ->
  length ((k0, v0) :: rest) = SESSION_MEMO_MAX_KEYS ->
  sessionBag sid (memoStore sid key value store) = (rest ++ [(key, value)])%list.
Proof.
  intros Hbag Hk0 Hnodup Hfresh Hfull. unfold memoStore, bagStore, evictOldest.
  rewrite sessionBag_insert, Hbag.
  unfold Map_size. rewrite Hfull, Nat.leb_refl. simpl Map_firstKey. cbv iota beta.
  apply falsy_false in Hk0 as Hf. rewrite Hf.
  unfold Map_delete. simpl List.filter. rewrite String.eqb_refl. simpl negb. cbv iota.
  fold (Map_delete rest k0). rewrite Map_delete_absent by done.
  apply Map_set_fresh. simpl in Hfresh. by destruct (k0 =? key)%string.
Qed.

(** Below capacity nothing is removed. *)
Lemma memoStore_below_capacity (sid key : string) (value : V) store :
  (Map_size (sessionBag sid store) < SESSION_MEMO_MAX_KEYS)%nat ->
  sessionBag sid (memoStore sid key value store) = Map_set (sessionBag sid store) key value.
Proof.
  intros Hlt. unfold memoStore, bagStore, evictOldest. rewrite sessionBag_insert.
  apply Nat.leb_gt in Hlt. by rewrite Hlt.
Qed.

(** A hit returns the cached value, invokes nothing and changes no bag:
    reading does not move an entry. *)
Lemma withSessionMemo_hit (sid key : string) (run : nat -> V + string) (w : memoWorld)
      (value : V) (sid' : string) :
  sid <> "" ->
  Map_get (sessionBag sid (memoBySession w)) key = Some value ->
  snd (withSessionMemo (Some sid) key run w) = inl value /\
  runCalls (fst (withSessionMemo (Some sid) key run w)) = runCalls w /\
  sessionBag sid' (memoBySession (fst (withSessionMemo (Some sid) key run w))) =
  sessionBag sid' (memoBySession w).
Proof.
  intros Hsid Hget. unfold withSessionMemo, memoBegin.
  apply falsy_false in Hsid. rewrite Hsid.
  assert (Hhas : Map_has (sessionBag sid (memoBySession w)) key = true)
    by (apply Map_has_get; eauto).
  rewrite Hhas, Hget. simpl. repeat split. apply sessionBag_create.
Qed.
End EvictionFacts.

Lemma memoStore_within_capacity_witness :
  (Map_size (sessionBag "s" (memoStore "s" "201" 0%nat {["s" := fullBag]})) <= 200)%nat.
Proof.
  apply (memoStore_within_capacity "s" "201" 0%nat {["s" := fullBag]}).
  - vm_compute. discriminate.
  - vm_compute. reflexivity.
Defined.

Lemma memoStore_evicts_oldest_witness :
  sessionBag "s" (memoStore "s" "201" 0%nat {["s" := fullBag]}) =
  (map (fun n => (numberedKey n, n)) (seq 2 199) ++ [("201", 0%nat)])%list.
Proof.
  apply (memoStore_evicts_oldest "s" "201" "1" 0%nat 1%nat {["s" := fullBag]}
           (map (fun n => (numberedKey n, n)) (seq 2 199))).
  - vm_compute. reflexivity.
  - discriminate.
  - vm_compute. reflexivity.
  - vm_compute. reflexivity.
  - vm_compute. reflexivity.
Defined.

Section SequentialFacts.
Context {V : Type}.

Lemma withSessionMemo_bag (sid key : string) (value : V) (w : memoWorld) :
  sid <> "" ->
  sessionBag sid (memoBySession (fst (withSessionMemo (Some sid) key (fun _ => inl value) w))) =
  bagCall value (sessionBag sid (memoBySession w)) key.
Proof.
  intros Hsid. unfold withSessionMemo, memoBegin, bagCall.
  apply falsy_false in Hsid. rewrite Hsid.
  destruct (Map_has (sessionBag sid (memoBySession w)) key) eqn:Hhas.
  - apply Map_has_get in Hhas as [v Hv]. rewrite Hv. simpl. apply sessionBag_insert.
  - simpl. unfold memoStore. by rewrite !sessionBag_insert.
Qed.

(** Calls made one after the other act on the bag one after the other. *)
Lemma sequentially_bag (sid : string) (value : V) (keys : list string) :
  sid <> "" ->
  forall w : memoWorld,
    sessionBag sid (memoBySession (sequentially (Some sid) keys (fun _ => inl value) w)) =
    fold_left (bagCall value) keys (sessionBag sid (memoBySession w)).
Proof.
  intros Hsid. unfold sequentially.
  induction keys as [|key keys IH]; intros w; simpl; [done|].
  rewrite IH. by rewrite withSessionMemo_bag.
Qed.
End SequentialFacts.

(** Why the keys must not be empty. [withSessionMemo] is not exported and
    its callers pass keys made by [buildToolKey]; were it given the empty
    string as a key, the guard [if (firstKey)] would take that key, once it
    is the oldest, for no key and evict nothing. In one session, 201 calls
    are made one after the other for 201 distinct keys, and every [run]
    succeeds: when the first key is the empty string the bag ends with 201
    entries, when it is not the bag ends with 200 and the first-inserted
    key is gone. *)
Example withSessionMemo_empty_oldest_key_exceeds_capacity :
  let run : nat -> unit + string := fun _ => inl tt in
  let keys := "" :: map numberedKey (seq 1 200) in
  let keys' := "first" :: map numberedKey (seq 1 200) in
  let bag := sessionBag "s" (memoBySession (sequentially (Some "s") keys run (MemoWorld ∅ 0))) in
  let bag' := sessionBag "s" (memoBySession (sequentially (Some "s") keys' run (MemoWorld ∅ 0))) in
  NoDup keys /\
  Map_size bag = 201%nat /\
  Map_firstKey bag = Some "" /\
  NoDup keys' /\
  Map_size bag' = 200%nat /\
  Map_firstKey bag' = Some "1".
Proof.
  intros run keys keys' bag bag'.
  assert (Hbag : bag = fold_left (bagCall tt) keys []).
  { subst bag run. rewrite sequentially_bag; [reflexivity|discriminate]. }
  assert (Hbag' : bag' = fold_left (bagCall tt) keys' []).
  { subst bag' run. rewrite sequentially_bag; [reflexivity|discriminate]. }
  rewrite Hbag, Hbag'. clear Hbag Hbag' bag bag'.
  refine (conj _ (conj _ (conj _ (conj _ (conj _ _))))).
  - apply (bool_decide_unpack _). vm_compute. reflexivity.
  - vm_compute. reflexivity.
  - vm_compute. reflexivity.
  - apply (bool_decide_unpack _). vm_compute. reflexivity.
  - vm_compute. reflexivity.
  - vm_compute. reflexivity.
Qed.

(** ** The capacity under overlapping calls *)

Section MemoInvariant.
Context {V : Type}.
Implicit Types (m bag : list (string * V)) (k key : string) (v value : V)
         (store : gmap string (list (string * V))).

Lemma Map_has_elem m k : Map_has m k = true <-> k ∈ map fst m.
Proof.
  unfold Map_has. induction m as [|[k' v'] m IH]; simpl.
  - split; [done|]. intros H. by apply elem_of_nil in H.
  - rewrite elem_of_cons, orb_true_iff, IH, String.eqb_eq. naive_solver.
Qed.

(** [set] keeps the keys in their order and puts a new key last. *)
Lemma Map_set_keys m k v :
  map fst (Map_set m k v) = if Map_has m k then map fst m else (map fst m ++ [k])%list.
Proof.
  induction m as [|[k' v'] m IH]; simpl; [done|].
  destruct (String.eqb k' k) eqn:E; simpl.
  - apply String.eqb_eq in E. by subst.
  - rewrite IH. by destruct (Map_has m k).
Qed.

(** The eviction on a full bag whose oldest key is not empty removes the
    oldest entry and nothing else. *)
Lemma evictOldest_full (k0 : string) (v0 : V) (rest : list (string * V)) :
  k0 <> "" -> k0 ∉ map fst rest ->
  (SESSION_MEMO_MAX_KEYS <= length ((k0, v0) :: rest))%nat ->
  evictOldest ((k0, v0) :: rest) = rest.
Proof.
  intros Hk0 Hnew Hfull. unfold evictOldest, Map_size.
  apply Nat.leb_le in Hfull. rewrite Hfull. simpl Map_firstKey. cbv iota beta.
  apply falsy_false in Hk0. rewrite Hk0.
  unfold Map_delete. simpl List.filter. rewrite String.eqb_refl. simpl negb. cbv iota.
  fold (Map_delete rest k0). apply Map_delete_absent.
  destruct (Map_has rest k0) eqn:E; [|done]. by apply Map_has_elem in E.
Qed.

Lemma evictOldest_below bag :
  (length bag < SESSION_MEMO_MAX_KEYS)%nat -> evictOldest bag = bag.
Proof.
  intros Hlt. unfold evictOldest, Map_size. apply Nat.leb_gt in Hlt. by rewrite Hlt.
Qed.

(** After the eviction there is room for one entry. *)
Lemma evictOldest_ok bag :
  bagOk bag ->
  NoDup (map fst (evictOldest bag)) /\ Forall (fun k => k <> "") (map fst (evictOldest bag)) /\
  (length (evictOldest bag) < SESSION_MEMO_MAX_KEYS)%nat.
Proof.
  intros (Hnodup & Hkeys & Hsize).
  destruct (decide (length bag < SESSION_MEMO_MAX_KEYS)%nat) as [Hlt|Hge].
  { by rewrite evictOldest_below. }
  destruct bag as [|[k0 v0] rest]; [simpl in Hge; unfold SESSION_MEMO_MAX_KEYS in Hge; lia|].
  simpl in Hnodup, Hkeys. apply NoDup_cons in Hnodup as [Hnew Hnodup].
  apply Forall_cons in Hkeys as [Hk0 Hkeys].
  rewrite evictOldest_full; [|done|done|lia].
  simpl in Hsize. repeat split; [done|done|lia].
Qed.

Lemma bagStore_ok bag key value : key <> "" -> bagOk bag -> bagOk (bagStore bag key value).
Proof.
  intros Hkey Hbag. apply evictOldest_ok in Hbag as (Hnodup & Hkeys & Hsize).
  unfold bagStore, bagOk. rewrite Map_set_keys.
  pose proof (Map_set_length (evictOldest bag) key value) as Hlen.
  destruct (Map_has (evictOldest bag) key) eqn:Hhas.
  - repeat split; [done|done|lia].
  - repeat split; [| |lia].
    + apply NoDup_app. repeat split; [done| |apply NoDup_singleton].
      intros k Hk Hk'. apply list_elem_of_singleton in Hk' as ->.
      apply Map_has_elem in Hk. by rewrite Hk in Hhas.
    + apply Forall_app. split; [done|]. by repeat constructor.
Qed.

Lemma memoStep_ok (e : memoEvent V) store :
  eventKey e <> "" ->
  (forall sid, bagOk (sessionBag sid store)) ->
  forall sid, bagOk (sessionBag sid (memoStep store e)).
Proof.
  intros Hkey Hstore sid. destruct e as [sessionId key|sid0 key value]; simpl in *.
  - rewrite memoBegin_bags. apply Hstore.
  - destruct (decide (sid0 = sid)) as [->|Hne].
    + unfold memoStore. rewrite sessionBag_insert. by apply bagStore_ok.
    + rewrite memoStore_other by done. apply Hstore.
Qed.

(** However the calls overlap, every bag keeps its invariant. *)
Lemma memoAfter_ok (events : list (memoEvent V)) :
  Forall (fun e => eventKey e <> "") events ->
  forall sid, bagOk (sessionBag sid (memoAfter events)).
Proof.
  unfold memoAfter. intros Hkeys.
  assert (Hgen : forall store, (forall sid, bagOk (sessionBag sid store)) ->
                               forall sid, bagOk (sessionBag sid (fold_left memoStep events store))).
  { induction Hkeys as [|e events He _ IH]; intros store Hstore; simpl; [done|].
    apply IH. by apply memoStep_ok. }
  apply Hgen. intros sid. unfold sessionBag. rewrite lookup_empty. simpl.
  split; [apply NoDup_nil_2|]. split; [constructor|]. simpl. unfold SESSION_MEMO_MAX_KEYS. lia.
Qed.
End MemoInvariant.

(** A key made by [buildToolKey] is never the empty string: it holds the
    two separators. *)
Lemma buildToolKey_not_empty (number : Type) (Number_toJSON : number -> string)
      (localeCompare : string -> string -> comparison) (tool query : string)
      (opts : value number) :
  buildToolKey Number_toJSON localeCompare tool query opts <> "".
Proof.
  unfold buildToolKey. destruct tool; discriminate.
Qed.

(** A call that resumes after another call has stored the same key evicts
    again, although its [set] adds no entry: two overlapping misses for one
    new key take two entries from a full bag. The bound is kept. *)
Example bagStore_same_key_twice :
  Map_size (bagStore fullBag "201" 0%nat) = 200%nat /\
  bagStore (bagStore fullBag "201" 0%nat) "201" 1%nat =
  (map (fun n => (numberedKey n, n)) (seq 3 198) ++ [("201", 1%nat)])%list.
Proof. split; vm_compute; reflexivity. Qed.



(* ===================================================================== *)
(** * Properties of the identity resolver *)
(* ===================================================================== *)

(** The model of SHA-256 on the digests of FIPS 180-2 (one block, the empty
    message, two blocks), and [keyToUuid] on a DOI. *)
Example sha256_known_digests :
  toHex (Sha256.digest (utf8 "abc")) =
  "ba7816bf8f01cfea414140de5dae2223b00361a396177a9cb410ff61f20015ad" /\
  toHex (Sha256.digest (utf8 "")) =
  "e3b0c44298fc1c149afbf4c8996fb92427ae41e4649b934ca495991b7852b855" /\
  toHex (Sha256.digest (utf8 "abcdbcdecdefdefgefghfghighijhijkijkljklmklmnlmnomnopnopq")) =
  "248d6a61d20638b8e5c026930c3e6039a33ce45964ff2167f6ecedd419db06c1" /\
  keyToUuid "10.1000/xyz" = "4a986f41-603a-4a62-a4ae-e8d0b9d0af7f".
Proof. refine (conj _ (conj _ (conj _ _))); vm_compute; reflexivity. Qed.

(** The two patterns on a few texts: the DOI is lower-cased, a DOI needs
    four to nine digits after the prefix, the arXiv id stops at the first
    character outside the class. *)
Example extract_examples :
  extractDoi (Some "see https://doi.org/10.1000/XYZ-1 here") = Some "10.1000/xyz-1" /\
  extractDoi (Some "10.123/abc") = None /\
  extractDoi (Some "x10.1234567890/abc 10.12345/Q(1);z") = Some "10.12345/q(1);z" /\
  extractDoi (Some "") = None /\
  extractArxivId (Some "https://ArXiv.org/abs/2101.00001v2?context=econ") = Some "2101.00001v2" /\
  extractArxivId (Some "https://arxiv.org/list/econ/new") = None.
Proof. repeat split; vm_compute; reflexivity. Qed.

Lemma orElse_empty (a : option string) (b : string) : isEmpty a = true -> orElse a b = b.
Proof. destruct a as [s|]; simpl; [|done]. by intros ->. Qed.

Lemma orElse_some (s b : string) : s <> "" -> orElse (Some s) b = s.
Proof. intros H. simpl. apply falsy_false in H. by rewrite H. Qed.

Lemma orElseOpt_empty (a b : option string) : isEmpty a = true -> orElseOpt a b = b.
Proof. destruct a as [s|]; simpl; [|done]. by intros ->. Qed.

(** [||] is associative: a chain can be read with its operands grouped. *)
Lemma orElse_orElseOpt (a b : option string) (c : string) :
  orElse (orElseOpt a b) c = orElse a (orElse b c).
Proof. destruct a as [s|]; simpl; [|done]. by destruct (falsy s) eqn:E; simpl; rewrite ?E. Qed.

Section IdentityFacts.
Variable URL_parse : string -> option URL.
Variable URLSearchParams_toString : list (string * string) -> string.

Local Abbreviation resultKey' := (resultKey URL_parse URLSearchParams_toString).
Local Abbreviation resultId' := (resultId URL_parse URLSearchParams_toString).
Local Abbreviation webSearchId' := (webSearchId URL_parse URLSearchParams_toString).

(** The chain of [resultId] with the registry ids and the DOI fields
    grouped. *)
Lemma resultKey_grouped (r : result) :
  exists fallback : string,
    resultKey' r = orElse (registryId r) (orElse (fieldDoi r) fallback).
Proof.
  eexists. unfold resultKey, registryId, fieldDoi.
  rewrite !orElse_orElseOpt. reflexivity.
Qed.

(** Without registry id, a record with a DOI field is keyed by it. *)
Lemma resultKey_field_doi (r : result) (d : string) :
  isEmpty (registryId r) = true -> fieldDoi r = Some d -> d <> "" -> resultKey' r = d.
Proof.
  intros Hreg Hdoi Hd. destruct (resultKey_grouped r) as [fallback ->].
  rewrite (orElse_empty _ _ Hreg), Hdoi. by apply orElse_some.
Qed.

(** A record from which the [webSearch] tool extracts a DOI is keyed by it. *)
Lemma webSearchId_extracted_doi (r : result) (d : string) :
  extractedDoi r = Some d -> d <> "" -> webSearchId' r = keyToUuid d.
Proof.
  intros Hdoi Hd. unfold webSearchId. rewrite Hdoi.
  apply falsy_false in Hd as Hf. cbv zeta. simpl orElseOpt. rewrite Hf.
  simpl orElse. by rewrite !Hf.
Qed.
End IdentityFacts.

(** C8, as the code has it. Two records that carry no registry id (nct_id,
    data.nct_id, metadata.pmid, pmid) and whose DOI field (metadata.doi,
    else doi) is the same non-empty string get the same [resultId], the
    fingerprint of that DOI, whatever their URLs and other fields are. And
    two records from which the [webSearch] tool extracts the same DOI (from
    the URL, else from the content) get the same id there. *)
Theorem resultId_same_doi_field_same_fingerprint :
  forall (URL_parse : string -> option URL)
         (URLSearchParams_toString : list (string * string) -> string)
         (r1 r2 : result) (d : string),
    d <> "" ->
    (isEmpty (registryId r1) = true -> isEmpty (registryId r2) = true ->
     fieldDoi r1 = Some d -> fieldDoi r2 = Some d ->
     resultId URL_parse URLSearchParams_toString r1 = keyToUuid d /\
     resultId URL_parse URLSearchParams_toString r2 = keyToUuid d) /\
    (extractedDoi r1 = Some d -> extractedDoi r2 = Some d ->
     webSearchId URL_parse URLSearchParams_toString r1 = keyToUuid d /\
     webSearchId URL_parse URLSearchParams_toString r2 = keyToUuid d).
Proof.
  intros URL_parse toStr r1 r2 d Hd. split.
  - intros Hreg1 Hreg2 Hdoi1 Hdoi2. unfold resultId.
    by rewrite (resultKey_field_doi _ _ r1 d), (resultKey_field_doi _ _ r2 d).
  - intros Hdoi1 Hdoi2.
    by rewrite (webSearchId_extracted_doi _ _ r1 d), (webSearchId_extracted_doi _ _ r2 d).
Qed.

Lemma resultId_same_doi_field_same_fingerprint_witness :
  let parse : string -> option URL := fun _ => None in
  let r1 := MkResult None None None None (Some "10.1000/xyz")
              (Some "https://journal.example/article/42") (Some "GDP growth") None None None in
  let r2 := MkResult None None (Some (MkMetadata None (Some "10.1000/xyz") None)) None None
              (Some "https://mirror.example/pdf/42.pdf") None None None None in
  resultId parse (fun _ => "") r1 = keyToUuid "10.1000/xyz" /\
  resultId parse (fun _ => "") r2 = keyToUuid "10.1000/xyz".
Proof.
  intros parse r1 r2.
  apply (resultId_same_doi_field_same_fingerprint parse (fun _ => "") r1 r2 "10.1000/xyz");
    [discriminate|reflexivity|reflexivity|reflexivity|reflexivity].
Defined.

(** C8 as stated fails. Two records with the same DOI field and different
    pmid get different fingerprints, since pmid comes first in the chain;
    and two records whose content holds the same DOI, and that have neither
    URL nor identifier fields, get different fingerprints from [resultId],
    which never looks for a DOI in the URL or the content. *)
Lemma resultId_same_doi_different_fingerprint :
  let r1 := MkResult None None None (Some "31452104") (Some "10.1000/xyz")
              None None None None None in
  let r2 := MkResult None None None (Some "31452105") (Some "10.1000/xyz")
              None None None None None in
  let r3 := MkResult None None None None None None (Some "Growth and debt") None None
              (Some "Published as doi:10.1000/xyz in 2019.") in
  let r4 := MkResult None None None None None None (Some "Growth and debt (preprint)") None None
              (Some "See https://doi.org/10.1000/XYZ for the final version") in
  (fieldDoi r1 = Some "10.1000/xyz" /\ fieldDoi r2 = Some "10.1000/xyz" /\
   forall parse toStr, resultId parse toStr r1 <> resultId parse toStr r2) /\
  (extractedDoi r3 = Some "10.1000/xyz" /\ extractedDoi r4 = Some "10.1000/xyz" /\
   forall parse toStr, resultId parse toStr r3 <> resultId parse toStr r4).
Proof.
  intros r1 r2 r3 r4. repeat split; try (vm_compute; reflexivity);
    intros parse toStr; vm_compute; discriminate.
Qed.

(* ===================================================================== *)
(** * Properties of the in-flight coalescer *)
(* ===================================================================== *)

Section CoalescerFacts.
Variable number : Type.
Variable Number_toJSON : number -> string.
Variable Number_truthy : number -> bool.
Context {T : Type}.
Implicit Types (st : coalescer T) (p q : nat) (key : string).

Local Abbreviation once' := (once Number_toJSON Number_truthy).
Local Abbreviation step' := (step Number_toJSON Number_truthy).
Local Abbreviation steps' := (steps Number_toJSON Number_truthy).
Local Abbreviation key' := (inflightKey Number_toJSON Number_truthy).

Lemma consistent_empty : consistent (@emptyCoalescer T).
Proof.
  split.
  - intros key p H. simpl in H. by rewrite lookup_empty in H.
  - intros key p (call & H & _). simpl in H. by rewrite lookup_nil in H.
Qed.

Lemma once_registered (tool query : string) (opts : value number) st (p : nat) :
  inflight st !! key' tool query opts = Some p ->
  once' tool query opts st = (st, p).
Proof. intros H. unfold once. by rewrite H. Qed.

Lemma once_fresh (tool query : string) (opts : value number) st :
  inflight st !! key' tool query opts = None ->
  once' tool query opts st =
  (Coalescer (<[key' tool query opts := length (promises st)]> (inflight st))
             (promises st ++ [SharedCall (key' tool query opts) Pending])
             (runLog st ++ [key' tool query opts]),
   length (promises st)).
Proof. intros H. unfold once. by rewrite H. Qed.

Lemma inFlightFor_lt key st p : inFlightFor key st p -> (p < length (promises st))%nat.
Proof. intros (call & H & _). by apply lookup_lt_Some in H. Qed.

Lemma once_consistent (tool query : string) (opts : value number) st :
  consistent st -> consistent (fst (once' tool query opts st)).
Proof.
  intros [Hreg Hpend].
  destruct (inflight st !! key' tool query opts) as [p|] eqn:Hkey.
  { by rewrite (once_registered _ _ _ _ _ Hkey). }
  rewrite (once_fresh _ _ _ _ Hkey). simpl. set (k := key' tool query opts) in *.
  split; intros key p; unfold inFlightFor; simpl.
  - destruct (decide (k = key)) as [<-|Hne].
    + rewrite lookup_insert_eq. intros [= <-].
      eexists. rewrite lookup_app_r, Nat.sub_diag by lia. done.
    + rewrite lookup_insert_ne by done. intros H.
      destruct (Hreg _ _ H) as (call & Hp & ? & ?).
      exists call. by rewrite lookup_app_l by (by apply lookup_lt_Some in Hp).
  - intros (call & Hp & Hk & Hs).
    destruct (decide (p < length (promises st))%nat) as [Hlt|Hge].
    + rewrite lookup_app_l in Hp by done.
      assert (Hin : inFlightFor key st p) by (by exists call).
      apply Hpend in Hin. rewrite lookup_insert_ne; [done|]. congruence.
    + rewrite lookup_app_r in Hp by lia.
      destruct (p - length (promises st))%nat as [|n] eqn:Hd; simpl in Hp; [|done].
      injection Hp as <-. simpl in Hk. subst key.
      rewrite lookup_insert_eq. f_equal. lia.
Qed.

Lemma settle_pending (p : nat) (outcome : T + string) st (call : sharedCall T) :
  promises st !! p = Some call -> callState call = Pending ->
  settle p outcome st =
  Coalescer (delete (callKey call) (inflight st))
            (<[p := SharedCall (callKey call) (settledAs outcome)]> (promises st))
            (runLog st).
Proof. intros Hp Hs. unfold settle. by rewrite Hp, Hs. Qed.

Lemma settle_not_pending (p : nat) (outcome : T + string) st :
  ~ (exists key, inFlightFor key st p) -> settle p outcome st = st.
Proof.
  intros Hn. unfold settle. destruct (promises st !! p) as [call|] eqn:Hp; [|done].
  destruct (callState call) eqn:Hs; simpl; try done.
  exfalso. apply Hn. exists (callKey call), call. done.
Qed.

Lemma settle_consistent (p : nat) (outcome : T + string) st :
  consistent st -> consistent (settle p outcome st).
Proof.
  intros [Hreg Hpend].
  destruct (promises st !! p) as [call|] eqn:Hp.
  2:{ rewrite settle_not_pending; [done|]. intros (key & c & H & _). congruence. }
  destruct (callState call) eqn:Hs.
  2,3: rewrite settle_not_pending; [done|]; intros (key & c & H & _ & Hc); congruence.
  rewrite (settle_pending _ _ _ _ Hp Hs).
  assert (Hmine : inflight st !! callKey call = Some p) by (apply Hpend; by exists call).
  split; intros key q; unfold inFlightFor; simpl.
  - intros H. apply lookup_delete_Some in H as [Hne H].
    destruct (Hreg _ _ H) as (c & Hq & Hk & Hc).
    exists c. rewrite list_lookup_insert_ne; [done|]. congruence.
  - intros (c & Hq & Hk & Hc).
    destruct (decide (p = q)) as [<-|Hne].
    { rewrite list_lookup_insert_eq in Hq by (by apply lookup_lt_Some in Hp).
      injection Hq as <-. simpl in Hc. by destruct outcome. }
    rewrite list_lookup_insert_ne in Hq by done.
    assert (Hin : inflight st !! key = Some q) by (apply Hpend; by exists c).
    rewrite lookup_delete_ne; [done|]. congruence.
Qed.

Lemma step_consistent st (t : turn number T) : consistent st -> consistent (step' st t).
Proof. destruct t; simpl; [apply once_consistent|apply settle_consistent]. Qed.

Lemma steps_consistent (ts : list (turn number T)) :
  forall st, consistent st -> consistent (steps' st ts).
Proof.
  induction ts as [|t ts IH]; intros st H; [done|].
  simpl. apply IH. by apply step_consistent.
Qed.

(** At most one call is in flight per key. *)
Lemma consistent_single_flight st key p q :
  consistent st -> inFlightFor key st p -> inFlightFor key st q -> p = q.
Proof. intros [_ Hpend] Hp Hq. apply Hpend in Hp, Hq. congruence. Qed.

Lemma runsFor_snoc key key0 (st st' : coalescer T) :
  runLog st' = (runLog st ++ [key0])%list -> key0 <> key -> runsFor key st' = runsFor key st.
Proof.
  intros Hlog Hne. unfold runsFor. rewrite Hlog, List.filter_app, length_app. simpl.
  assert (E : (key =? key0)%string = false) by (apply String.eqb_neq; congruence).
  rewrite E. simpl. lia.
Qed.

(** A turn that does not settle the promise registered under a key leaves
    it registered, and invokes no [run] for that key. *)
Lemma step_keeps_flight st key p (t : turn number T) :
  consistent st -> inflight st !! key = Some p -> settles p t = false ->
  inflight (step' st t) !! key = Some p /\ runsFor key (step' st t) = runsFor key st.
Proof.
  intros Hc Hkey Ht. destruct t as [tool query opts|q outcome]; simpl.
  - destruct (inflight st !! key' tool query opts) as [p'|] eqn:Hk.
    + by rewrite (once_registered _ _ _ _ _ Hk).
    + rewrite (once_fresh _ _ _ _ Hk). simpl.
      assert (Hne : key' tool query opts <> key) by congruence.
      split; [by rewrite lookup_insert_ne|]. by eapply runsFor_snoc.
  - simpl in Ht. apply Nat.eqb_neq in Ht.
    destruct (promises st !! q) as [call|] eqn:Hq.
    2:{ rewrite settle_not_pending; [done|]. intros (k & c & H & _). congruence. }
    destruct (callState call) eqn:Hs.
    2,3: rewrite settle_not_pending; [done|]; intros (k & c & H & _ & Hcs); congruence.
    rewrite (settle_pending _ _ _ _ Hq Hs). simpl. split; [|done].
    rewrite lookup_delete_ne; [done|]. intros Heq.
    destruct Hc as [_ Hpend].
    assert (inflight st !! callKey call = Some q) by (apply Hpend; by exists call).
    congruence.
Qed.

Lemma steps_keep_flight (ts : list (turn number T)) :
  forall st key p,
    consistent st -> inflight st !! key = Some p ->
    Forall (fun t => settles p t = false) ts ->
    inflight (steps' st ts) !! key = Some p /\ runsFor key (steps' st ts) = runsFor key st.
Proof.
  induction ts as [|t ts IH]; intros st key p Hc Hkey Hts; [done|].
  apply Forall_cons in Hts as [Ht Hts]. simpl.
  destruct (step_keeps_flight st key p t Hc Hkey Ht) as [Hkey' Hruns].
  destruct (IH (step' st t) key p (step_consistent _ _ Hc) Hkey' Hts) as [? ?].
  split; [done|congruence].
Qed.

(** After [once], the key is registered to the promise returned. *)
Lemma once_registers (tool query : string) (opts : value number) st :
  inflight (fst (once' tool query opts st)) !! key' tool query opts =
  Some (snd (once' tool query opts st)).
Proof.
  destruct (inflight st !! key' tool query opts) as [p|] eqn:Hk.
  - by rewrite (once_registered _ _ _ _ _ Hk).
  - rewrite (once_fresh _ _ _ _ Hk). simpl. by rewrite lookup_insert_eq.
Qed.

(** A settled promise stays as it settled. *)
Lemma step_settled_stable st p (t : turn number T) (s : settlement T) :
  outcomeOf st p = Some s -> isPending s = false -> outcomeOf (step' st t) p = Some s.
Proof.
  unfold outcomeOf. intros Hp Hs.
  destruct (promises st !! p) as [call|] eqn:Hcall; [|done]. injection Hp as <-.
  destruct t as [tool query opts|q outcome]; simpl.
  - destruct (inflight st !! key' tool query opts) as [p'|] eqn:Hk.
    + rewrite (once_registered _ _ _ _ _ Hk). simpl. by rewrite Hcall.
    + rewrite (once_fresh _ _ _ _ Hk). simpl.
      rewrite lookup_app_l by (by apply lookup_lt_Some in Hcall). by rewrite Hcall.
  - unfold settle. destruct (promises st !! q) as [c|] eqn:Hq; [|by rewrite Hcall].
    destruct (isPending (callState c)) eqn:Hc; [|by rewrite Hcall]. simpl.
    rewrite list_lookup_insert_ne; [by rewrite Hcall|].
    intros ->. congruence.
Qed.

Lemma steps_settled_stable (ts : list (turn number T)) :
  forall st p (s : settlement T),
    outcomeOf st p = Some s -> isPending s = false -> outcomeOf (steps' st ts) p = Some s.
Proof.
  induction ts as [|t ts IH]; intros st p s Hp Hs; [done|].
  simpl. apply IH; [|done]. by apply step_settled_stable.
Qed.
End CoalescerFacts.

(** C1. From any state the process can reach, let [once] be called for
    (tool, query, options), let any turns follow that do not settle the
    promise it returned, and let [once] be called again with the same
    arguments. Then the second call returns the same promise and no [run]
    is invoked for the key after the first call; if the key was not in
    flight before, the first call invoked [run] exactly once. In every
    reachable state at most one promise per key is in flight. When the
    shared promise settles, fulfilled or rejected, the key leaves the
    registry, no call for it is in flight, and the promise shows that one
    outcome in every later state. *)
Theorem once_coalesces_concurrent_calls :
  forall (number : Type) (Number_toJSON : number -> string) (Number_truthy : number -> bool)
         (T : Type) (history between later : list (turn number T))
         (tool query : string) (opts : value number) (outcome : T + string),
    let key := inflightKey Number_toJSON Number_truthy tool query opts in
    let st0 := steps Number_toJSON Number_truthy emptyCoalescer history in
    let first := once Number_toJSON Number_truthy tool query opts st0 in
    let st2 := steps Number_toJSON Number_truthy (fst first) between in
    let second := once Number_toJSON Number_truthy tool query opts st2 in
    let st4 := settle (snd first) outcome (fst second) in
    Forall (fun t => settles (snd first) t = false) between ->
    snd second = snd first /\
    runsFor key (fst second) = runsFor key (fst first) /\
    (inflight st0 !! key = None -> runsFor key (fst first) = S (runsFor key st0)) /\
    inFlightFor key (fst second) (snd first) /\
    (forall k p q, inFlightFor k st0 p -> inFlightFor k st0 q -> p = q) /\
    inflight st4 !! key = None /\
    (forall p, ~ inFlightFor key st4 p) /\
    outcomeOf (steps Number_toJSON Number_truthy st4 later) (snd first) =
    Some (settledAs outcome).
Proof.
  intros number toJSON truthy T history between later tool query opts outcome
         key st0 first st2 second st4 Hbetween.
  assert (Hc0 : consistent st0) by (apply steps_consistent, consistent_empty).
  assert (Hc1 : consistent (fst first)) by (by apply once_consistent).
  assert (Hreg1 : inflight (fst first) !! key = Some (snd first)) by apply once_registers.
  destruct (steps_keep_flight _ toJSON truthy between (fst first) key (snd first)
              Hc1 Hreg1 Hbetween) as [Hreg2 Hruns2].
  fold st2 in Hreg2, Hruns2.
  assert (Hc2 : consistent st2) by (by apply steps_consistent).
  assert (Hsecond : second = (st2, snd first)) by (by apply once_registered).
  assert (Hflight : inFlightFor key st2 (snd first)) by (by apply Hc2).
  destruct Hflight as (call & Hcall & Hkey & Hstate).
  assert (Hst4 : st4 = Coalescer (delete key (inflight st2))
                         (<[snd first := SharedCall key (settledAs outcome)]> (promises st2))
                         (runLog st2)).
  { subst st4. rewrite Hsecond. simpl.
    rewrite (settle_pending _ _ _ _ Hcall Hstate), Hkey. reflexivity. }
  assert (Hc4 : consistent st4).
  { subst st4. rewrite Hsecond. simpl. by apply settle_consistent. }
  rewrite Hsecond. simpl. repeat split.
  - done.
  - intros Hnone. subst first. rewrite (once_fresh _ _ _ _ _ _ _ Hnone).
    fold key. unfold runsFor. simpl. rewrite List.filter_app, length_app. simpl.
    rewrite String.eqb_refl. simpl. lia.
  - by exists call.
  - intros k p q. by apply consistent_single_flight.
  - rewrite Hst4. simpl. apply lookup_delete_eq.
  - intros p Hp. apply Hc4 in Hp. rewrite Hst4 in Hp. simpl in Hp.
    by rewrite lookup_delete_eq in Hp.
  - apply steps_settled_stable.
    + rewrite Hst4. unfold outcomeOf. simpl.
      by rewrite list_lookup_insert_eq by (by apply lookup_lt_Some in Hcall).
    + by destruct outcome.
Qed.

Lemma once_coalesces_concurrent_calls_witness :
  let toJSON := intToJSON in
  let opts : value Z := Obj [("searchType", Str "all")] in
  let first := once toJSON intTruthy "webSearch" "gdp growth" opts (@emptyCoalescer nat) in
  let between := [CallOnce "webSearch" "inflation" opts] in
  let st2 := steps toJSON intTruthy (fst first) between in
  let second := once toJSON intTruthy "webSearch" "gdp growth" opts st2 in
  snd second = snd first /\
  runsFor (inflightKey toJSON intTruthy "webSearch" "gdp growth" opts) (fst second) = 1%nat.
Proof.
  intros toJSON opts first between st2 second.
  pose proof (once_coalesces_concurrent_calls Z intToJSON intTruthy nat []
                [CallOnce "webSearch" "inflation" opts] [] "webSearch" "gdp growth" opts
                (inl 7%nat)) as H.
  cbv zeta in H.
  destruct H as (Hsame & Hruns & Hfirst & _).
  { repeat constructor. }
  split; [exact Hsame|].
  etransitivity; [exact Hruns|]. apply Hfirst. reflexivity.
Defined.

(* ===================================================================== *)
(** * Properties of the key canonicalizer *)
(* ===================================================================== *)

(** ** Sorting by a comparator *)

Section SortFacts.
Context {A : Type}.
Variable cmp : A -> A -> comparison.

Lemma insertBy_Permutation (x : A) (l : list A) : insertBy cmp x l ≡ₚ x :: l.
Proof.
  induction l as [|y l IH]; simpl; [done|].
  destruct (cmp x y); try done.
  rewrite IH. apply Permutation_swap.
Qed.

Lemma sortBy_Permutation (l : list A) : sortBy cmp l ≡ₚ l.
Proof.
  induction l as [|x l IH]; simpl; [done|].
  rewrite insertBy_Permutation. by rewrite IH.
Qed.

(** Sorting by a key: the keys of the sorted list are the sorted keys. *)
Lemma insertBy_map {B : Type} (f : B -> A) (x : B) (l : list B) :
  map f (insertBy (fun a b => cmp (f a) (f b)) x l) = insertBy cmp (f x) (map f l).
Proof.
  induction l as [|y l IH]; simpl; [done|].
  destruct (cmp (f x) (f y)); simpl; by rewrite ?IH.
Qed.

Lemma sortBy_map {B : Type} (f : B -> A) (l : list B) :
  map f (sortBy (fun a b => cmp (f a) (f b)) l) = sortBy cmp (map f l).
Proof.
  induction l as [|x l IH]; simpl; [done|].
  by rewrite insertBy_map, IH.
Qed.

Hypothesis cmp_linear : linearOrder cmp.

Local Abbreviation notAfterC := (notAfter cmp).

Lemma notAfter_total (x y : A) : cmp x y = Gt -> notAfterC y x.
Proof.
  destruct cmp_linear as (_ & Hsym & _). unfold notAfter.
  intros H. rewrite Hsym, H. done.
Qed.

Lemma cmp_refl (x : A) : cmp x x = Eq.
Proof.
  destruct cmp_linear as (_ & Hsym & _).
  specialize (Hsym x x). by destruct (cmp x x).
Qed.

Instance notAfter_trans : Transitive notAfterC.
Proof.
  destruct cmp_linear as (Heq & Hsym & Htrans).
  intros x y z Hxy Hyz. unfold notAfter in *.
  destruct (cmp x y) eqn:Exy; [| |done].
  - apply Heq in Exy as ->. done.
  - destruct (cmp y z) eqn:Eyz; [| |done].
    + apply Heq in Eyz as <-. by rewrite Exy.
    + by rewrite (Htrans _ _ _ Exy Eyz).
Qed.

Instance notAfter_antisym : AntiSymm (=) notAfterC.
Proof.
  destruct cmp_linear as (Heq & Hsym & _).
  intros x y Hxy Hyx. unfold notAfter in *.
  rewrite Hsym in Hyx. destruct (cmp x y) eqn:E; [by apply Heq|done|done].
Qed.

Lemma insertBy_Sorted (x : A) (l : list A) :
  Sorted notAfterC l -> Sorted notAfterC (insertBy cmp x l).
Proof.
  induction l as [|y l IH]; intros Hl; simpl.
  - repeat constructor.
  - destruct (cmp x y) eqn:E.
    + constructor; [done|]. constructor. unfold notAfter. by rewrite E.
    + constructor; [done|]. constructor. unfold notAfter. by rewrite E.
    + apply Sorted_inv in Hl as [Hl Hhd].
      constructor; [by apply IH|].
      destruct l as [|z l]; simpl.
      * constructor. by apply notAfter_total.
      * destruct (cmp x z); constructor;
          try (by apply notAfter_total); by apply HdRel_inv in Hhd.
Qed.

Lemma sortBy_Sorted (l : list A) : Sorted notAfterC (sortBy cmp l).
Proof.
  induction l as [|x l IH]; simpl; [constructor|]. by apply insertBy_Sorted.
Qed.

(** A linear order leaves one way to sort: lists with the same elements
    sort to the same list. *)
Lemma sortBy_unique (l1 l2 : list A) : l1 ≡ₚ l2 -> sortBy cmp l1 = sortBy cmp l2.
Proof.
  intros Hp. apply (Sorted_unique notAfterC); try apply sortBy_Sorted.
  by rewrite !sortBy_Permutation.
Qed.

(** Sorted lists without repetition that have the same members are the
    same list. *)
Lemma Sorted_same_members (l1 l2 : list A) :
  Sorted notAfterC l1 -> Sorted notAfterC l2 -> NoDup l1 -> NoDup l2 ->
  (forall x, x ∈ l1 <-> x ∈ l2) -> l1 = l2.
Proof.
  intros H1 H2 N1 N2 Hmem. apply (Sorted_unique notAfterC); try done.
  by apply NoDup_Permutation.
Qed.

Lemma Sorted_filter (p : A -> bool) (l : list A) :
  Sorted notAfterC l -> Sorted notAfterC (List.filter p l).
Proof.
  intros H. apply Sorted_StronglySorted in H; [|apply _].
  apply StronglySorted_Sorted.
  induction H as [|x l Hl IH Hx]; simpl; [constructor|].
  destruct (p x); [|done]. constructor; [done|].
  apply List.Forall_forall. intros y Hy. apply List.filter_In in Hy as [Hy _].
  by apply (proj1 (List.Forall_forall _ _) Hx).
Qed.
End SortFacts.

(** Sorting by a comparator under which different elements may compare
    equal. *)
Section SortTies.
Context {A : Type}.
Variable cmp : A -> A -> comparison.
Hypothesis cmp_consistent : consistentComparator cmp.

Lemma insertBy_StronglySorted (x : A) (l : list A) :
  StronglySorted (notAfter cmp) l -> StronglySorted (notAfter cmp) (insertBy cmp x l).
Proof.
  destruct cmp_consistent as [Hsym Htrans].
  induction 1 as [|y l Hl IH Hy]; simpl.
  - repeat constructor.
  - assert (Hle : cmp x y <> Gt -> StronglySorted (notAfter cmp) (x :: y :: l)).
    { intros Hxy. constructor; [by constructor|].
      constructor; [done|]. eapply Forall_impl; [exact Hy|].
      intros z Hz. by apply (Htrans x y z). }
    destruct (cmp x y) eqn:E; [by apply Hle|by apply Hle|].
    constructor; [done|].
    apply Forall_forall. intros z Hz.
    rewrite insertBy_Permutation in Hz. apply elem_of_cons in Hz as [->|Hz].
    + unfold notAfter. rewrite Hsym, E. done.
    + by apply (proj1 (Forall_forall _ _) Hy).
Qed.

Lemma sortBy_StronglySorted (l : list A) : StronglySorted (notAfter cmp) (sortBy cmp l).
Proof.
  induction l as [|x l IH]; simpl; [constructor|]. by apply insertBy_StronglySorted.
Qed.

(** Sorted lists with the same elements are the same list when none of
    their different elements compare equal. *)
Lemma StronglySorted_untied_unique (l1 l2 : list A) :
  (forall a b, a ∈ l1 -> b ∈ l1 -> cmp a b = Eq -> a = b) ->
  StronglySorted (notAfter cmp) l1 -> StronglySorted (notAfter cmp) l2 ->
  l1 ≡ₚ l2 -> l1 = l2.
Proof.
  destruct cmp_consistent as [Hsym _].
  intros Hties H1. revert l2.
  induction H1 as [|x l1 Hl1 IH Hx]; intros l2 H2 Hp.
  - by apply Permutation_nil_l in Hp.
  - destruct H2 as [|y l2 Hl2 Hy].
    { by apply Permutation_nil_r in Hp. }
    assert (Hxy : x = y).
    { assert (Hx2 : x ∈ y :: l2) by (rewrite <- Hp; apply elem_of_cons; by left).
      assert (Hy1 : y ∈ x :: l1) by (rewrite Hp; apply elem_of_cons; by left).
      apply elem_of_cons in Hx2 as [Hx2|Hx2]; [done|].
      apply elem_of_cons in Hy1 as [Hy1|Hy1]; [done|].
      apply (proj1 (Forall_forall _ _) Hy) in Hx2.
      apply (proj1 (Forall_forall _ _) Hx) in Hy1.
      unfold notAfter in *. rewrite Hsym in Hx2.
      apply Hties.
      - apply elem_of_cons; by left.
      - rewrite Hp. apply elem_of_cons; by left.
      - destruct (cmp x y); done. }
    subst y. f_equal. apply IH; [|done|by apply Permutation_cons_inv in Hp].
    intros a b Ha Hb. apply Hties; apply elem_of_cons; by right.
Qed.

(** Without ties there is one way to sort. *)
Lemma sortBy_untied_unique (l1 l2 : list A) :
  (forall a b, a ∈ l1 -> b ∈ l1 -> cmp a b = Eq -> a = b) ->
  l1 ≡ₚ l2 -> sortBy cmp l1 = sortBy cmp l2.
Proof.
  intros Hties Hp. apply StronglySorted_untied_unique; try apply sortBy_StronglySorted.
  - intros a b Ha Hb. rewrite sortBy_Permutation in Ha, Hb. by apply Hties.
  - by rewrite !sortBy_Permutation.
Qed.
End SortTies.

(** The order of code units is linear. *)
Lemma String_compare_linear : linearOrder String.compare.
Proof.
  repeat split.
  - intros a b. apply String_as_OT.cmp_eq.
  - intros a b. apply String_as_OT.cmp_antisym.
  - intros a b c Hab Hbc. apply String_as_OT.cmp_lt.
    apply String_as_OT.cmp_lt in Hab, Hbc.
    eapply String_as_OT.lt_trans; eauto.
Qed.

(** A collation that skips a character is still a consistent comparator. *)
Lemma ignoringSoftHyphens_consistent : consistentComparator ignoringSoftHyphens.
Proof.
  destruct String_compare_linear as (Heq & Hsym & Htrans).
  unfold ignoringSoftHyphens. split.
  - intros a b. apply Hsym.
  - intros a b c. apply (notAfter_trans String.compare String_compare_linear).
Qed.

(** ** Objects *)

Section ObjectFacts.
Variable number : Type.
Implicit Types (props out : list (string * value number)) (k : string) (v : value number).

Lemma obj_has_In props k : obj_has props k = true <-> k ∈ Object_keys props.
Proof.
  unfold obj_has, Object_keys. induction props as [|[k' v'] props IH]; simpl.
  - split; [done|]. intros H. by apply elem_of_nil in H.
  - rewrite elem_of_cons, orb_true_iff, IH, String.eqb_eq. naive_solver.
Qed.

Lemma obj_get_Some_In props k v : obj_get props k = Some v -> (k, v) ∈ props.
Proof.
  induction props as [|[k' v'] props IH]; simpl; [done|].
  destruct (String.eqb k' k) eqn:E.
  - apply String.eqb_eq in E as ->. intros [= ->]. apply elem_of_cons. by left.
  - intros H. apply elem_of_cons. right. by apply IH.
Qed.

Lemma obj_get_is_Some props k : is_Some (obj_get props k) <-> k ∈ Object_keys props.
Proof.
  unfold Object_keys. induction props as [|[k' v'] props IH]; simpl.
  - split; [by intros [? ?]|]. intros H. by apply elem_of_nil in H.
  - rewrite elem_of_cons. destruct (String.eqb k' k) eqn:E.
    + apply String.eqb_eq in E as ->. split; eauto.
    + apply String.eqb_neq in E. rewrite IH. naive_solver.
Qed.

(** Looking a key up in a list of recursive results. *)
Lemma obj_get_map (f : value number -> value number) props k :
  obj_get (map (fun kv => (fst kv, f (snd kv))) props) k = f <$> obj_get props k.
Proof.
  induction props as [|[k' v'] props IH]; simpl; [done|].
  by destruct (String.eqb k' k).
Qed.

Lemma liveGet_Some props k v :
  liveGet props k = Some v <-> obj_get props k = Some v /\ nullish v = false.
Proof.
  unfold liveGet. destruct (obj_get props k) as [w|].
  - destruct (nullish w) eqn:E; split.
    + done.
    + intros [[= ->] ?]. congruence.
    + by intros [= ->].
    + by intros [[= ->] _].
  - split; [done|]. by intros [? _].
Qed.

Lemma Object_keys_replace out k v : Object_keys (obj_replace out k v) = Object_keys out.
Proof.
  unfold Object_keys. induction out as [|[k' v'] out IH]; simpl; [done|].
  destruct (String.eqb k' k) eqn:E; simpl; [|by rewrite IH].
  by apply String.eqb_eq in E as ->.
Qed.

Lemma Object_keys_insertIndex out (n : N) k v :
  Object_keys (obj_insertIndex out n k v) ≡ₚ k :: Object_keys out.
Proof.
  unfold Object_keys. induction out as [|[k' v'] out IH]; simpl; [done|].
  destruct (arrayIndex k'); [|done].
  destruct (n <? n0)%N; simpl; [done|].
  rewrite IH. apply Permutation_swap.
Qed.

(** The keys of an object after an assignment. *)
Lemma obj_set_keys out k v (k' : string) :
  k' ∈ Object_keys (obj_set out k v) <->
  k' ∈ Object_keys out \/ (k' = k /\ k <> "__proto__").
Proof.
  unfold obj_set. destruct (String.eqb k "__proto__") eqn:Eproto.
  { apply String.eqb_eq in Eproto. naive_solver. }
  apply String.eqb_neq in Eproto.
  destruct (obj_has out k) eqn:Ehas.
  { rewrite Object_keys_replace. apply obj_has_In in Ehas. naive_solver. }
  destruct (arrayIndex k) as [n|].
  - rewrite Object_keys_insertIndex, elem_of_cons. naive_solver.
  - unfold Object_keys. rewrite map_app, elem_of_app. simpl.
    rewrite list_elem_of_singleton. naive_solver.
Qed.

(** The values of an object after an assignment. *)
Lemma obj_set_values out k v (k' : string) (v' : value number) :
  (k', v') ∈ obj_set out k v -> (k', v') ∈ out \/ v' = v.
Proof.
  unfold obj_set. destruct (String.eqb k "__proto__"); [by left|].
  destruct (obj_has out k).
  { clear. induction out as [|[k0 v0] out IH]; simpl; [by left|].
    destruct (String.eqb k0 k); rewrite !elem_of_cons; naive_solver. }
  destruct (arrayIndex k) as [n|].
  - clear. induction out as [|[k0 v0] out IH]; simpl.
    + rewrite list_elem_of_singleton. naive_solver.
    + destruct (arrayIndex k0); [destruct (n <? n0)%N|]; rewrite !elem_of_cons; naive_solver.
  - rewrite elem_of_app, list_elem_of_singleton. naive_solver.
Qed.

(** The keys that are not array indices after an assignment: a new one
    goes last. *)
Lemma nameKeys_insertIndex out (n : N) k v :
  arrayIndex k = Some n -> nameKeys (obj_insertIndex out n k v) = nameKeys out.
Proof.
  intros Hk. unfold nameKeys, Object_keys.
  induction out as [|[k' v'] out IH]; simpl.
  - by rewrite Hk.
  - destruct (arrayIndex k') as [n'|] eqn:Ek'.
    + destruct (n <? n')%N; simpl; rewrite ?Hk, ?Ek'; simpl; [done|]. apply IH.
    + simpl. by rewrite Hk, Ek'.
Qed.

Lemma nameKeys_set out k v :
  nameKeys (obj_set out k v) =
  if String.eqb k "__proto__" || obj_has out k || isSome (arrayIndex k)
  then nameKeys out
  else (nameKeys out ++ [k])%list.
Proof.
  unfold obj_set. destruct (String.eqb k "__proto__"); [done|].
  destruct (obj_has out k); simpl.
  { unfold nameKeys. by rewrite Object_keys_replace. }
  destruct (arrayIndex k) as [n|] eqn:Ek; simpl.
  - by apply nameKeys_insertIndex.
  - unfold nameKeys, Object_keys. rewrite map_app, List.filter_app. simpl. by rewrite Ek.
Qed.
End ObjectFacts.

(** ** [canonOptions] *)

Section CanonFacts.
Variable number : Type.
Variable Number_toJSON : number -> string.
Variable localeCompare : string -> string -> comparison.
Implicit Types (props out ps qs : list (string * value number)) (k : string)
         (v w : value number).

Local Abbreviation canon := (canonOptions Number_toJSON localeCompare).
Local Abbreviation stringify := (JSON_stringify Number_toJSON).

Lemma fold_left_ext_in {B C : Type} (f g : B -> C -> B) (l : list C) (b : B) :
  (forall b' x, x ∈ l -> f b' x = g b' x) -> fold_left f l b = fold_left g l b.
Proof.
  revert b. induction l as [|x l IH]; intros b H; simpl; [done|].
  rewrite (H b x) by (apply elem_of_cons; by left).
  apply IH. intros b' y Hy. apply H. apply elem_of_cons. by right.
Qed.

(** The object case of [canonOptions] as the source has it: the recursive
    call is made on [input[k]]. *)
Lemma canonOptions_obj props :
  canon (Obj props) =
  Obj (fold_left (canonStep props (fun k => default Undefined (canon <$> obj_get props k)))
                 (sortKeys (Object_keys props)) []).
Proof.
  simpl. f_equal. apply fold_left_ext_in. intros out k _.
  unfold canonStep. by rewrite obj_get_map.
Qed.

Lemma canonOptions_arr (items : list (value number)) :
  canon (Arr items) =
  Arr (Array_sort (compareJson Number_toJSON localeCompare) (map canon items)).
Proof. reflexivity. Qed.

(** [canonOptions] turns nothing into [null] or [undefined] and leaves
    both as they are. *)
Lemma canonOptions_nullish v : nullish (canon v) = nullish v.
Proof. by destruct v. Qed.

Lemma canonOptions_isUndefined v : isUndefined (canon v) = isUndefined v.
Proof. by destruct v. Qed.

(** The loop only assigns the properties that have a value. *)
Lemma fold_canonStep props (recur : string -> value number) (ks : list string) out :
  fold_left (canonStep props recur) ks out =
  fold_left (fun o k => obj_set o k (recur k))
            (List.filter (fun k => isSome (liveGet props k)) ks) out.
Proof.
  revert out. induction ks as [|k ks IH]; intros out; simpl; [done|].
  rewrite IH. unfold canonStep at 1, liveGet at 2.
  destruct (obj_get props k) as [v|]; simpl; [|done].
  by destruct (nullish v).
Qed.

Lemma liveKeys_elem props k : k ∈ liveKeys props <-> is_Some (liveGet props k).
Proof.
  unfold liveKeys. rewrite list_elem_of_In, List.filter_In, <- list_elem_of_In.
  unfold sortKeys. rewrite sortBy_Permutation.
  split.
  - intros [_ H]. by destruct (liveGet props k).
  - intros [v Hv]. rewrite Hv. split; [|done].
    apply liveGet_Some in Hv as [Hv _].
    apply obj_get_is_Some. by exists v.
Qed.

Lemma liveKeys_Sorted props : Sorted (notAfter String.compare) (liveKeys props).
Proof.
  apply Sorted_filter; [apply String_compare_linear|].
  apply sortBy_Sorted, String_compare_linear.
Qed.

Lemma liveKeys_NoDup props : NoDup (Object_keys props) -> NoDup (liveKeys props).
Proof.
  intros H. unfold liveKeys. apply NoDup_ListNoDup, List.NoDup_filter, NoDup_ListNoDup.
  unfold sortKeys. by rewrite sortBy_Permutation.
Qed.

Lemma canonOptions_obj_live props :
  canon (Obj props) =
  Obj (fold_left (fun o k => obj_set o k (default Undefined (canon <$> obj_get props k)))
                 (liveKeys props) []).
Proof. rewrite canonOptions_obj. f_equal. apply fold_canonStep. Qed.

(** Induction on [sameUpToKeys] with the hypothesis on the values of the
    properties and on the elements. *)
Section sameUpToKeys_nested.
Variable P : value number -> value number -> Prop.
Hypothesis case_refl : forall v, P v v.
Hypothesis case_arr : forall xs ys : list (value number),
  Forall2 sameUpToKeys xs ys -> Forall2 P xs ys -> P (Arr xs) (Arr ys).
Hypothesis case_obj : forall ps qs,
  NoDup (Object_keys ps) -> NoDup (Object_keys qs) ->
  (forall k v, liveGet ps k = Some v ->
               exists w, liveGet qs k = Some w /\ sameUpToKeys v w /\ P v w) ->
  (forall k w, liveGet qs k = Some w -> exists v, liveGet ps k = Some v) ->
  P (Obj ps) (Obj qs).

Fixpoint sameUpToKeys_nested_ind (v w : value number) (H : sameUpToKeys v w) {struct H}
  : P v w :=
  match H with
  | sameUpToKeys_refl _ v => case_refl v
  | sameUpToKeys_arr _ xs ys Hall =>
      case_arr xs ys Hall
        ((fix elements (l1 l2 : list (value number)) (Hl : Forall2 sameUpToKeys l1 l2)
              {struct Hl} : Forall2 P l1 l2 :=
            match Hl with
            | List.Forall2_nil _ => List.Forall2_nil P
            | List.Forall2_cons x y Hxy Hrest =>
                List.Forall2_cons x y (sameUpToKeys_nested_ind x y Hxy) (elements _ _ Hrest)
            end) xs ys Hall)
  | sameUpToKeys_obj _ ps qs Hps Hqs Hfwd Hbwd =>
      case_obj ps qs Hps Hqs
        (fun k v Hk =>
           match Hfwd k v Hk with
           | ex_intro _ w (conj Hw Hvw) =>
               ex_intro _ w (conj Hw (conj Hvw (sameUpToKeys_nested_ind v w Hvw)))
           end)
        Hbwd
  end.
End sameUpToKeys_nested.

(** Values that differ only by key order and by keys without a value have
    the same canonical form. *)
Lemma canonOptions_sameUpToKeys v w : sameUpToKeys v w -> canon v = canon w.
Proof.
  revert v w. apply sameUpToKeys_nested_ind.
  - done.
  - intros xs ys Hall IH. rewrite !canonOptions_arr. do 2 f_equal.
    clear Hall. induction IH as [|x y xs' ys' Hxy _ IH']; simpl; [done|].
    by rewrite Hxy, IH'.
  - intros ps qs Hps Hqs Hfwd Hbwd. rewrite !canonOptions_obj_live.
    assert (Hkeys : liveKeys ps = liveKeys qs).
    { apply (Sorted_same_members String.compare String_compare_linear);
        try apply liveKeys_Sorted; try by apply liveKeys_NoDup.
      intros k. rewrite !liveKeys_elem. split.
      - intros [v Hv]. destruct (Hfwd k v Hv) as (w & Hw & _). by exists w.
      - intros [w Hw]. destruct (Hbwd k w Hw) as (v & Hv). by exists v. }
    rewrite <- Hkeys. f_equal. apply fold_left_ext_in. intros out k Hk.
    apply liveKeys_elem in Hk as [v Hv].
    destruct (Hfwd k v Hv) as (w & Hw & _ & Hcanon).
    apply liveGet_Some in Hv as [-> _]. apply liveGet_Some in Hw as [-> _].
    simpl. by rewrite Hcanon.
Qed.

(** Induction on values with the hypothesis on the elements of an array
    and on the values of the properties of an object. *)
Section value_nested.
Variable P : value number -> Prop.
Hypothesis case_undefined : P Undefined.
Hypothesis case_null : P Null.
Hypothesis case_bool : forall b, P (Bool b).
Hypothesis case_num : forall n, P (Num n).
Hypothesis case_str : forall s, P (Str s).
Hypothesis case_arr : forall items, Forall P items -> P (Arr items).
Hypothesis case_obj : forall props, Forall (fun kv => P (snd kv)) props -> P (Obj props).

Fixpoint value_nested_ind (v : value number) : P v :=
  match v with
  | Undefined => case_undefined
  | Null => case_null
  | Bool b => case_bool b
  | Num n => case_num n
  | Str s => case_str s
  | Arr items =>
      case_arr items
        ((fix elements (l : list (value number)) : Forall P l :=
            match l with
            | [] => @List.Forall_nil _ P
            | x :: rest => @List.Forall_cons _ P x rest (value_nested_ind x) (elements rest)
            end) items)
  | Obj props =>
      case_obj props
        ((fix properties (l : list (string * value number))
            : Forall (fun kv => P (snd kv)) l :=
            match l with
            | [] => @List.Forall_nil _ _
            | kv :: rest =>
                @List.Forall_cons _ (fun kv => P (snd kv)) kv rest
                  (value_nested_ind (snd kv)) (properties rest)
            end) props)
  end.
End value_nested.

Lemma Array_sort_elem (cmp : value number -> value number -> comparison)
      (l : list (value number)) (x : value number) :
  x ∈ Array_sort cmp l -> x ∈ l.
Proof.
  unfold Array_sort. rewrite elem_of_app, sortBy_Permutation.
  rewrite !list_elem_of_In, !List.filter_In. naive_solver.
Qed.

(** What the loop of the object case leaves in [out]. *)
Lemma fold_obj_set_values (recur : string -> value number) (ks : list string) out
      (k' : string) (v' : value number) :
  (k', v') ∈ fold_left (fun o k => obj_set o k (recur k)) ks out ->
  (k', v') ∈ out \/ exists k, k ∈ ks /\ v' = recur k.
Proof.
  revert out. induction ks as [|k ks IH]; intros out; simpl; [by left|].
  intros H. apply IH in H as [H|(k0 & Hk0 & ->)].
  - apply obj_set_values in H as [H| ->]; [by left|].
    right. exists k. split; [|done]. apply elem_of_cons. by left.
  - right. exists k0. split; [|done]. apply elem_of_cons. by right.
Qed.

Lemma fold_obj_set_keys (recur : string -> value number) (ks : list string) out (k' : string) :
  k' ∈ Object_keys (fold_left (fun o k => obj_set o k (recur k)) ks out) <->
  k' ∈ Object_keys out \/ (k' ∈ ks /\ k' <> "__proto__").
Proof.
  revert out. induction ks as [|k ks IH]; intros out; simpl.
  - rewrite elem_of_nil. naive_solver.
  - rewrite IH, obj_set_keys, elem_of_cons. naive_solver.
Qed.

Lemma ascending_snoc (l : list string) (k : string) :
  ascending l = true -> (forall n, n ∈ l -> String.compare n k = Lt) ->
  ascending (l ++ [k]) = true.
Proof.
  induction l as [|a l IH]; intros Hl Hk; [done|].
  destruct l as [|b l].
  - simpl. by rewrite (Hk a) by (apply elem_of_cons; by left).
  - simpl in Hl |- *. destruct (String.compare a b); try done.
    apply IH; [done|]. intros n Hn. apply Hk. apply elem_of_cons. by right.
Qed.

(** Assigning keys in ascending order leaves the keys that are not array
    indices in ascending order. *)
Lemma fold_obj_set_nameKeys (recur : string -> value number) (ks : list string) :
  StronglySorted (notAfter String.compare) ks ->
  forall out,
    ascending (nameKeys out) = true ->
    (forall n k, n ∈ nameKeys out -> k ∈ ks -> notAfter String.compare n k) ->
    ascending (nameKeys (fold_left (fun o k => obj_set o k (recur k)) ks out)) = true.
Proof.
  induction 1 as [|k ks Hks IH Hk]; intros out Hasc Hle; simpl; [done|].
  assert (Hmem : forall n, n ∈ nameKeys out -> n ∈ Object_keys out).
  { intros n Hn. unfold nameKeys in Hn.
    apply list_elem_of_In, List.filter_In in Hn as [Hn _]. by apply list_elem_of_In. }
  apply IH; rewrite nameKeys_set;
    destruct (String.eqb k "__proto__" || obj_has out k || isSome (arrayIndex k)) eqn:E.
  - done.
  - apply ascending_snoc; [done|]. intros n Hn.
    assert (Hnk : notAfter String.compare n k) by (apply Hle; [done|apply elem_of_cons; by left]).
    unfold notAfter in Hnk. destruct (String.compare n k) eqn:Ec; [|done|done].
    apply String_compare_linear in Ec as ->.
    apply Hmem, obj_has_In in Hn. rewrite Hn in E. by rewrite orb_true_r in E.
  - intros n k' Hn Hk'. apply Hle; [done|]. apply elem_of_cons. by right.
  - intros n k' Hn Hk'. apply elem_of_app in Hn as [Hn|Hn].
    + apply Hle; [done|]. apply elem_of_cons. by right.
    + apply list_elem_of_singleton in Hn as ->.
      by apply (proj1 (List.Forall_forall _ _) Hk), list_elem_of_In.
Qed.

Lemma liveKeys_StronglySorted props :
  StronglySorted (notAfter String.compare) (liveKeys props).
Proof.
  apply Sorted_StronglySorted; [|apply liveKeys_Sorted].
  apply notAfter_trans, String_compare_linear.
Qed.

(** The value the loop assigns under a key with a value is the canonical
    form of that value. *)
Lemma liveKeys_recur props k :
  k ∈ liveKeys props ->
  exists v, (k, v) ∈ props /\ nullish v = false /\
            default Undefined (canon <$> obj_get props k) = canon v.
Proof.
  intros Hk. apply liveKeys_elem in Hk as [v Hv].
  apply liveGet_Some in Hv as [Hget Hnull].
  exists v. split; [by apply obj_get_Some_In|]. split; [done|]. by rewrite Hget.
Qed.

(** In a canonical form no object holds a property whose value is [null]
    or [undefined]. *)
Lemma canonOptions_noNullishValue v : everyObject noNullishValue (canon v) = true.
Proof.
  induction v as [| | | | |items IH|props IH] using value_nested_ind; try done.
  - rewrite canonOptions_arr. simpl. apply forallb_forall. intros x Hx.
    apply list_elem_of_In, Array_sort_elem, list_elem_of_fmap in Hx as (y & -> & Hy).
    by apply (proj1 (Forall_forall _ _) IH).
  - rewrite canonOptions_obj_live. simpl. apply andb_true_iff.
    split; apply forallb_forall; intros [k' v'] Hin; simpl;
      apply list_elem_of_In, fold_obj_set_values in Hin as [Hin|(k & Hk & ->)];
      try (by apply elem_of_nil in Hin);
      apply liveKeys_recur in Hk as (v & Hv & Hnull & ->).
    + by rewrite canonOptions_nullish, Hnull.
    + by apply (proj1 (Forall_forall _ _) IH (k, v)).
Qed.

(** In a canonical form the keys of every object that are not array
    indices are in ascending order. *)
Lemma canonOptions_nameKeysAscending v : everyObject nameKeysAscending (canon v) = true.
Proof.
  induction v as [| | | | |items IH|props IH] using value_nested_ind; try done.
  - rewrite canonOptions_arr. simpl. apply forallb_forall. intros x Hx.
    apply list_elem_of_In, Array_sort_elem, list_elem_of_fmap in Hx as (y & -> & Hy).
    by apply (proj1 (Forall_forall _ _) IH).
  - rewrite canonOptions_obj_live. simpl. apply andb_true_iff. split.
    + apply (fold_obj_set_nameKeys _ _ (liveKeys_StronglySorted props)); [done|].
      intros n k Hn. by apply elem_of_nil in Hn.
    + apply forallb_forall. intros [k' v'] Hin. simpl.
      apply list_elem_of_In, fold_obj_set_values in Hin as [Hin|(k & Hk & ->)];
        [by apply elem_of_nil in Hin|].
      apply liveKeys_recur in Hk as (v & Hv & Hnull & ->).
      by apply (proj1 (Forall_forall _ _) IH (k, v)).
Qed.

(** The keys of the canonical form of an object are the keys that have a
    value, but for [__proto__]. *)
Lemma canonOptions_emitted props k :
  (exists out, canon (Obj props) = Obj out /\
               (k ∈ Object_keys out <-> is_Some (liveGet props k) /\ k <> "__proto__")).
Proof.
  eexists. split; [apply canonOptions_obj_live|].
  rewrite fold_obj_set_keys, liveKeys_elem. simpl. rewrite elem_of_nil. naive_solver.
Qed.
End CanonFacts.

(** ** Serialized canonical forms *)

Section SerializeFacts.
Variable number : Type.
Variable Number_toJSON : number -> string.
Variable localeCompare : string -> string -> comparison.
Implicit Types (props out ps qs : list (string * value number)) (k : string)
         (v w : value number).

Local Abbreviation canon := (canonOptions Number_toJSON localeCompare).
Local Abbreviation stringify := (JSON_stringify Number_toJSON).
Local Abbreviation ser := (fun v => JSON_stringify Number_toJSON
                                      (canonOptions Number_toJSON localeCompare v)).
Local Abbreviation sortedTexts' := (sortedTexts localeCompare).
Local Abbreviation sameText' := (sameText Number_toJSON).
Local Abbreviation sameShape' := (sameShape Number_toJSON localeCompare).

Lemma stringify_None v : stringify v = None <-> isUndefined v = true.
Proof. by destruct v. Qed.

Lemma stringify_defined v : isUndefined v = false -> stringify v = Some (interpolate (stringify v)).
Proof. by destruct v. Qed.

Lemma Array_sort_texts (l : list (value number)) :
  map (fun x => default "null" (stringify x))
      (Array_sort (compareJson Number_toJSON localeCompare) l) =
  sortedTexts' (map stringify l).
Proof.
  unfold Array_sort, sortedTexts. rewrite map_app. f_equal.
  - transitivity (map (fun x => interpolate (stringify x))
                      (sortBy (compareJson Number_toJSON localeCompare)
                              (List.filter (fun v => negb (isUndefined v)) l))).
    { apply map_ext_in. intros x Hx.
      apply list_elem_of_In in Hx. rewrite sortBy_Permutation in Hx.
      apply list_elem_of_In, List.filter_In in Hx as [_ Hx].
      apply negb_true_iff, stringify_defined in Hx. by rewrite Hx. }
    unfold compareJson.
    rewrite (sortBy_map localeCompare (fun x => interpolate (stringify x))). f_equal.
    induction l as [|x l IH]; simpl; [done|].
    destruct (isUndefined x) eqn:E; simpl.
    + apply stringify_None in E. by rewrite E.
    + rewrite (stringify_defined x E). simpl. by rewrite IH.
  - induction l as [|x l IH]; simpl; [done|].
    destruct (isUndefined x) eqn:E; simpl.
    + apply stringify_None in E as E'. rewrite E'. simpl. by rewrite IH.
    + rewrite (stringify_defined x E). simpl. apply IH.
Qed.

Lemma ser_arr (items : list (value number)) :
  ser (Arr items) = Some ("[" ++ join "," (sortedTexts' (map ser items)) ++ "]").
Proof.
  simpl. rewrite Array_sort_texts. by rewrite map_map.
Qed.

Lemma stringify_sameText out1 out2 :
  sameText' out1 out2 -> stringify (Obj out1) = stringify (Obj out2).
Proof.
  intros H.
  assert (Htexts : forall f : string -> string -> list string,
             flat_map (fun kv => match stringify (snd kv) with
                                 | Some text => f (fst kv) text
                                 | None => []
                                 end) out1 =
             flat_map (fun kv => match stringify (snd kv) with
                                 | Some text => f (fst kv) text
                                 | None => []
                                 end) out2).
  { intros f. induction H as [|[k1 v1] [k2 v2] o1 o2 [Hk Hv] _ IH]; simpl in *; [done|].
    by rewrite Hk, Hv, IH. }
  simpl. by rewrite (Htexts (fun k text => [quote k ++ ":" ++ text])).
Qed.

Lemma sameText_has out1 out2 k : sameText' out1 out2 -> obj_has out1 k = obj_has out2 k.
Proof.
  unfold obj_has. induction 1 as [|[k1 v1] [k2 v2] o1 o2 [Hk Hv] _ IH]; simpl in *; [done|].
  by rewrite Hk, IH.
Qed.

Lemma sameText_replace out1 out2 k v w :
  sameText' out1 out2 -> stringify v = stringify w ->
  sameText' (obj_replace out1 k v) (obj_replace out2 k w).
Proof.
  intros H Hvw. induction H as [|[k1 v1] [k2 v2] o1 o2 [Hk Hv] Hrest IH]; simpl in *;
    [constructor|].
  subst k2. destruct (String.eqb k1 k); by constructor.
Qed.

Lemma sameText_insertIndex out1 out2 (n : N) k v w :
  sameText' out1 out2 -> stringify v = stringify w ->
  sameText' (obj_insertIndex out1 n k v) (obj_insertIndex out2 n k w).
Proof.
  intros H Hvw. induction H as [|[k1 v1] [k2 v2] o1 o2 [Hk Hv] Hrest IH]; simpl in *.
  { by repeat constructor. }
  subst k2. destruct (arrayIndex k1) as [n'|].
  - destruct (n <? n')%N; repeat constructor; done.
  - repeat constructor; done.
Qed.

Lemma sameText_set out1 out2 k v w :
  sameText' out1 out2 -> stringify v = stringify w ->
  sameText' (obj_set out1 k v) (obj_set out2 k w).
Proof.
  intros H Hvw. unfold obj_set. destruct (String.eqb k "__proto__"); [done|].
  rewrite (sameText_has _ _ k H). destruct (obj_has out2 k).
  { by apply sameText_replace. }
  destruct (arrayIndex k) as [n|].
  - by apply sameText_insertIndex.
  - apply Forall2_app; [done|]. by repeat constructor.
Qed.

Lemma sameShape_get ps qs k :
  sameShape' ps qs ->
  match obj_get ps k, obj_get qs k with
  | Some v, Some w => nullish v = nullish w /\ ser v = ser w
  | None, None => True
  | _, _ => False
  end.
Proof.
  induction 1 as [|[k1 v1] [k2 v2] o1 o2 (Hk & Hn & Hs) _ IH]; simpl in *; [done|].
  subst k2. by destruct (String.eqb k1 k).
Qed.

Lemma sameShape_fold ps qs (ks : list string) :
  sameShape' ps qs ->
  forall out1 out2,
    sameText' out1 out2 ->
    sameText' (fold_left (canonStep ps (fun k => default Undefined (canon <$> obj_get ps k)))
                        ks out1)
             (fold_left (canonStep qs (fun k => default Undefined (canon <$> obj_get qs k)))
                        ks out2).
Proof.
  intros Hshape. induction ks as [|k ks IH]; intros out1 out2 Hout; simpl; [done|].
  apply IH. unfold canonStep.
  pose proof (sameShape_get ps qs k Hshape) as Hget.
  destruct (obj_get ps k) as [v|], (obj_get qs k) as [w|]; try done.
  destruct Hget as [Hn Hs]. rewrite Hn. destruct (nullish w); [done|].
  by apply sameText_set.
Qed.

(** Induction on [reordered] with the hypothesis on the elements and on
    the values of the properties. *)
Section reordered_nested.
Variable P : value number -> value number -> Prop.
Hypothesis case_refl : forall v, P v v.
Hypothesis case_arr : forall xs ys zs : list (value number),
  Permutation xs ys -> Forall2 reordered ys zs -> Forall2 P ys zs -> P (Arr xs) (Arr zs).
Hypothesis case_obj : forall ps qs,
  Object_keys ps = Object_keys qs ->
  Forall2 reordered (map snd ps) (map snd qs) ->
  Forall2 P (map snd ps) (map snd qs) ->
  P (Obj ps) (Obj qs).

Fixpoint reordered_nested_ind (v w : value number) (H : reordered v w) {struct H} : P v w :=
  let each :=
    fix each (l1 l2 : list (value number)) (Hl : Forall2 reordered l1 l2) {struct Hl}
      : Forall2 P l1 l2 :=
      match Hl with
      | List.Forall2_nil _ => List.Forall2_nil P
      | List.Forall2_cons x y Hxy Hrest =>
          List.Forall2_cons x y (reordered_nested_ind x y Hxy) (each _ _ Hrest)
      end in
  match H with
  | reordered_refl _ v => case_refl v
  | reordered_arr _ xs ys zs Hperm Hall => case_arr xs ys zs Hperm Hall (each ys zs Hall)
  | reordered_obj _ ps qs Hkeys Hall => case_obj ps qs Hkeys Hall (each _ _ Hall)
  end.
End reordered_nested.

Lemma reordered_nullish v w : reordered v w -> nullish v = nullish w.
Proof. by destruct 1. Qed.

Lemma sameShape_intro ps qs :
  Object_keys ps = Object_keys qs ->
  Forall2 reordered (map snd ps) (map snd qs) ->
  Forall2 (fun v w => ser v = ser w) (map snd ps) (map snd qs) ->
  sameShape' ps qs.
Proof.
  unfold Object_keys, sameShape. revert qs.
  induction ps as [|[k1 v1] ps IH]; intros [|[k2 v2] qs]; simpl;
    intros Hkeys Hre Hser; try discriminate.
  - constructor.
  - injection Hkeys as -> Hkeys.
    apply Forall2_cons_1 in Hre as [Hre1 Hre], Hser as [Hser1 Hser].
    constructor; [|by apply IH]. simpl. split; [done|]. split; [|done].
    by apply reordered_nullish.
Qed.

(** *** Under a consistent collation *)

Hypothesis localeCompare_consistent : consistentComparator localeCompare.

Local Abbreviation tieFree' := (tieFree Number_toJSON localeCompare).

Lemma untied_spec (texts : list string) :
  untied localeCompare texts = true ->
  forall a b, a ∈ texts -> b ∈ texts -> localeCompare a b = Eq -> a = b.
Proof.
  unfold untied. intros H a b Ha Hb Hab.
  rewrite forallb_forall in H. apply list_elem_of_In, H in Ha.
  rewrite forallb_forall in Ha. apply list_elem_of_In, Ha in Hb.
  rewrite Hab in Hb. by apply String.eqb_eq.
Qed.

(** The sorted texts of an array do not depend on the order of its
    elements when no two different texts compare equal. *)
Lemma sortedTexts_untied (l1 l2 : list (option string)) :
  untied localeCompare (omap id l1) = true ->
  l1 ≡ₚ l2 -> sortedTexts' l1 = sortedTexts' l2.
Proof.
  intros Hties Hp. unfold sortedTexts. f_equal.
  - apply (sortBy_untied_unique localeCompare localeCompare_consistent).
    + by apply untied_spec.
    + by rewrite Hp.
  - f_equal. apply Permutation_length. clear Hties.
    induction Hp; simpl; try done.
    + destruct (negb (isSome x)); by rewrite ?IHHp.
    + destruct (negb (isSome x)), (negb (isSome y)); try done. apply Permutation_swap.
    + by etransitivity.
Qed.

Lemma tieFree_Permutation (xs ys : list (value number)) :
  xs ≡ₚ ys -> forallb tieFree' xs = true -> forallb tieFree' ys = true.
Proof.
  intros Hp. rewrite !forallb_forall. intros H y Hy. apply H.
  apply list_elem_of_In. rewrite Hp. by apply list_elem_of_In.
Qed.

(** Values that differ only by the order of array elements have canonical
    forms with the same text when no array holds elements whose different
    texts compare equal. *)
Lemma ser_reordered_untied v w : reordered v w -> tieFree' v = true -> ser v = ser w.
Proof.
  revert v w.
  apply (reordered_nested_ind (fun v w => tieFree' v = true -> ser v = ser w)).
  - done.
  - intros xs ys zs Hperm Hall IH Hfree. simpl in Hfree.
    apply andb_true_iff in Hfree as [Hitems Hties].
    rewrite !ser_arr. do 4 f_equal.
    transitivity (sortedTexts' (map ser ys)).
    + apply sortedTexts_untied; [done|]. by apply Permutation_map.
    + f_equal. apply (tieFree_Permutation _ _ Hperm) in Hitems.
      clear Hall Hperm Hties. induction IH as [|y z ys' zs' Hyz _ IH']; simpl; [done|].
      simpl in Hitems. apply andb_true_iff in Hitems as [Hy Hys].
      by rewrite Hyz, IH'.
  - intros ps qs Hkeys Hall IH Hfree. simpl in Hfree.
    rewrite !(canonOptions_obj number Number_toJSON localeCompare), Hkeys.
    apply stringify_sameText, sameShape_fold; [|constructor].
    apply sameShape_intro; [done|done|].
    clear Hall Hkeys. revert qs IH.
    induction ps as [|[k v] ps IHps]; intros [|[k' w] qs] IH; simpl in *.
    + constructor.
    + inversion IH.
    + inversion IH.
    + apply andb_true_iff in Hfree as [Hv Hps].
      apply Forall2_cons_1 in IH as [Hvw IH]. constructor; [by apply Hvw|by apply IHps].
Qed.
End SerializeFacts.

(** Objects without repeated keys whose keys look up to the same value, or
    to none, differ only by key order and by keys without a value. *)
Lemma sameUpToKeys_flat (number : Type) (ps qs : list (string * value number)) :
  NoDup (Object_keys ps) -> NoDup (Object_keys qs) ->
  Forall (fun k => liveGet ps k = liveGet qs k) (Object_keys ps ++ Object_keys qs) ->
  sameUpToKeys (Obj ps) (Obj qs).
Proof.
  intros Hps Hqs Hall.
  assert (Hsame : forall k v, liveGet ps k = Some v \/ liveGet qs k = Some v ->
                              liveGet ps k = liveGet qs k).
  { intros k v Hk. apply (proj1 (Forall_forall _ _) Hall). apply elem_of_app.
    destruct Hk as [Hk|Hk]; [left|right];
      apply liveGet_Some in Hk as [Hk _]; apply obj_get_is_Some; by exists v. }
  apply sameUpToKeys_obj; try done.
  - intros k v Hk. exists v. split; [|constructor].
    rewrite <- Hk. symmetry. apply (Hsame k v). by left.
  - intros k w Hk. exists w. rewrite <- Hk. apply (Hsame k w). by right.
Qed.

(** C6, as the code has it. For option values that differ only by the
    order of object keys and by keys whose value is [null] or [undefined],
    at any depth, [buildToolKey] returns the same key. In the canonical
    form no object holds a [null] or [undefined] value, the keys of every
    object that are not array indices are in ascending order of code
    units, and an object keeps exactly its keys that have a value, but for
    [__proto__]. *)
Theorem buildToolKey_ignores_key_order_and_nullish :
  forall (number : Type) (Number_toJSON : number -> string)
         (localeCompare : string -> string -> comparison)
         (tool query : string) (opts1 opts2 : value number),
    sameUpToKeys opts1 opts2 ->
    buildToolKey Number_toJSON localeCompare tool query opts1 =
    buildToolKey Number_toJSON localeCompare tool query opts2 /\
    everyObject noNullishValue (canonOptions Number_toJSON localeCompare opts1) = true /\
    everyObject nameKeysAscending (canonOptions Number_toJSON localeCompare opts1) = true /\
    (forall (props : list (string * value number)) (k : string),
        exists out, canonOptions Number_toJSON localeCompare (Obj props) = Obj out /\
                    (k ∈ Object_keys out <-> is_Some (liveGet props k) /\ k <> "__proto__")).
Proof.
  intros number toJSON cmp tool query opts1 opts2 Hsame. repeat split.
  - unfold buildToolKey. by rewrite (canonOptions_sameUpToKeys _ toJSON cmp _ _ Hsame).
  - apply canonOptions_noNullishValue.
  - apply canonOptions_nameKeysAscending.
  - intros props k. apply canonOptions_emitted.
Qed.

Lemma buildToolKey_ignores_key_order_and_nullish_witness :
  let opts1 : value Z :=
    Obj [("searchType", Str "all"); ("maxNumResults", Num 5%Z); ("category", Null);
         ("filters", Obj [("b", Num 2%Z); ("a", Num 1%Z)])] in
  let opts2 : value Z :=
    Obj [("filters", Obj [("b", Num 2%Z); ("a", Num 1%Z)]); ("maxNumResults", Num 5%Z);
         ("startDate", Undefined); ("searchType", Str "all")] in
  buildToolKey intToJSON codeUnitCompare "webSearch" "GDP growth" opts1 =
  buildToolKey intToJSON codeUnitCompare "webSearch" "GDP growth" opts2.
Proof.
  intros opts1 opts2.
  apply (buildToolKey_ignores_key_order_and_nullish Z intToJSON codeUnitCompare).
  apply sameUpToKeys_flat.
  - apply (bool_decide_unpack _). vm_compute. reflexivity.
  - apply (bool_decide_unpack _). vm_compute. reflexivity.
  - repeat constructor.
Defined.

(** C6 as stated fails on the order of the keys. [canonOptions] assigns the
    keys 10 and 9 in ascending order of code units, 10 first; the object
    enumerates its array-index keys in numeric order, so 9 is emitted first.
    And a key [__proto__] that has a value is not emitted. *)
Lemma canonOptions_index_keys_not_ascending :
  let opts : value Z := Obj [("10", Bool true); ("9", Bool false)] in
  String.compare "10" "9" = Lt /\
  canonOptions intToJSON codeUnitCompare opts = Obj [("9", Bool false); ("10", Bool true)] /\
  everyObject keysAscending (canonOptions intToJSON codeUnitCompare opts) = false /\
  canonOptions intToJSON codeUnitCompare (Obj [("__proto__", Bool true); ("a", Bool true)]) =
  (Obj [("a", Bool true)] : value Z).
Proof. repeat split. Qed.

(** Two elements whose texts compare equal keep the order they came in,
    whatever the collation is otherwise. *)
Lemma canonOptions_tied_pair (number : Type) (Number_toJSON : number -> string)
      (localeCompare : string -> string -> comparison) (a b : string) :
  localeCompare (quote a) (quote b) = Eq ->
  canonOptions Number_toJSON localeCompare (Arr [Str a; Str b]) = Arr [Str a; Str b].
Proof.
  intros Hab. simpl. unfold Array_sort. simpl. unfold compareJson. simpl. by rewrite Hab.
Qed.

(** C7 as stated fails where the collation reports different texts as
    equal. The two arrays hold the same two strings, which differ by a
    soft hyphen, in opposite orders; the comparator answers that neither
    goes first, the stable sort leaves each array as it came, and the two
    keys differ. *)
Lemma canonOptions_tied_elements_keep_input_order :
  let a : value Z := Str ("x" ++ String softHyphen "y") in
  let b : value Z := Str "xy" in
  let opts1 := Obj [("includedSources", Arr [a; b])] in
  let opts2 := Obj [("includedSources", Arr [b; a])] in
  reordered opts1 opts2 /\
  ignoringSoftHyphens (quote ("x" ++ String softHyphen "y")) (quote "xy") = Eq /\
  canonOptions intToJSON ignoringSoftHyphens opts1 = opts1 /\
  canonOptions intToJSON ignoringSoftHyphens opts2 = opts2 /\
  buildToolKey intToJSON ignoringSoftHyphens "webSearch" "gdp" opts1 <>
  buildToolKey intToJSON ignoringSoftHyphens "webSearch" "gdp" opts2.
Proof.
  intros a b opts1 opts2.
  refine (conj _ (conj _ (conj _ (conj _ _)))).
  - apply reordered_obj; [reflexivity|].
    constructor; [|constructor].
    eapply reordered_arr; [apply Permutation_swap|]. repeat constructor.
  - vm_compute. reflexivity.
  - vm_compute. reflexivity.
  - vm_compute. reflexivity.
  - vm_compute. discriminate.
Qed.

(** C7, amended. [localeCompare] is a consistent comparator. When no array
    of the options holds two elements whose canonical forms have different
    texts that [localeCompare] reports as equal, [buildToolKey] returns the
    same key for option values that differ only by the order of the
    elements of their arrays, at any depth. The text of a canonical array
    is made of the texts of its canonical elements as the stable sort by
    [localeCompare] leaves them, with [null] for each [undefined] element
    at the end. *)
Theorem buildToolKey_ignores_array_order_without_ties :
  forall (number : Type) (Number_toJSON : number -> string)
         (localeCompare : string -> string -> comparison)
         (tool query : string) (opts1 opts2 : value number),
    consistentComparator localeCompare ->
    tieFree Number_toJSON localeCompare opts1 = true ->
    reordered opts1 opts2 ->
    buildToolKey Number_toJSON localeCompare tool query opts1 =
    buildToolKey Number_toJSON localeCompare tool query opts2 /\
    (forall items : list (value number),
        JSON_stringify Number_toJSON (canonOptions Number_toJSON localeCompare (Arr items)) =
        Some ("[" ++
              join "," (sortedTexts localeCompare
                          (map (fun x => JSON_stringify Number_toJSON
                                           (canonOptions Number_toJSON localeCompare x)) items)) ++
              "]")).
Proof.
  intros number toJSON cmp tool query opts1 opts2 Hcmp Hfree Hre. split.
  - unfold buildToolKey. by rewrite (ser_reordered_untied _ toJSON cmp Hcmp _ _ Hre Hfree).
  - intros items. apply ser_arr.
Qed.

Lemma buildToolKey_ignores_array_order_without_ties_witness :
  let opts1 : value Z :=
    Obj [("includedSources",
          Arr [Str "valyu/valyu-fred"; Str ("co" ++ String softHyphen "op");
               Str "valyu/valyu-bls"]);
         ("maxNumResults", Num 5%Z)] in
  let opts2 : value Z :=
    Obj [("includedSources",
          Arr [Str "valyu/valyu-bls"; Str "valyu/valyu-fred";
               Str ("co" ++ String softHyphen "op")]);
         ("maxNumResults", Num 5%Z)] in
  buildToolKey intToJSON ignoringSoftHyphens "getFREDSeriesData" "UNRATE" opts1 =
  buildToolKey intToJSON ignoringSoftHyphens "getFREDSeriesData" "UNRATE" opts2.
Proof.
  intros opts1 opts2.
  apply (buildToolKey_ignores_array_order_without_ties Z intToJSON ignoringSoftHyphens).
  - exact ignoringSoftHyphens_consistent.
  - vm_compute. reflexivity.
  - apply reordered_obj; [reflexivity|].
    constructor; [|repeat constructor].
    eapply reordered_arr; [|repeat constructor].
    symmetry.
    apply (Permutation_cons_append
             [Str "valyu/valyu-fred"; Str ("co" ++ String softHyphen "op")]
             (Str "valyu/valyu-bls")).
Defined.

(* ===================================================================== *)
(** * Further properties of the deduplicator *)
(* ===================================================================== *)

Section DedupeComposition.
Context {T : Type}.
Variable getId : T -> string.

(** The set the filter leaves holds what it held and the ids of the kept
    records, nothing else. *)
Lemma filterUnseen_seen (arr : list T) :
  forall seen : gset string,
    snd (filterUnseen getId seen arr) =
    seen ∪ list_to_set (getId <$> fst (filterUnseen getId seen arr)).
Proof.
  induction arr as [|y rest IH]; intros seen.
  - simpl. set_solver.
  - rewrite filterUnseen_cons.
    destruct (falsy (getId y) || bool_decide (getId y ∈ seen)); simpl; [apply IH|].
    rewrite IH. set_solver.
Qed.

(** Records whose ids are all in the set are all dropped. *)
Lemma filterUnseen_all_seen (arr : list T) :
  forall seen : gset string,
    (forall x, x ∈ arr -> getId x = "" \/ getId x ∈ seen) ->
    fst (filterUnseen getId seen arr) = [].
Proof.
  induction arr as [|y rest IH]; intros seen H; [done|].
  rewrite filterUnseen_cons.
  destruct (H y) as [He|Hin]; [apply elem_of_cons; by left| |].
  - rewrite He. simpl. apply IH. intros x Hx. apply H, elem_of_cons. by right.
  - rewrite (bool_decide_eq_true_2 _ Hin), orb_true_r.
    apply IH. intros x Hx. apply H, elem_of_cons. by right.
Qed.

(** What is kept does not depend on the part of the set that holds no id of
    the input. *)
Lemma filterUnseen_ext (arr : list T) :
  forall seen seen' : gset string,
    (forall x, x ∈ arr -> getId x ∈ seen <-> getId x ∈ seen') ->
    fst (filterUnseen getId seen arr) = fst (filterUnseen getId seen' arr).
Proof.
  induction arr as [|y rest IH]; intros seen seen' H; [done|].
  rewrite !filterUnseen_cons.
  assert (Hy : bool_decide (getId y ∈ seen) = bool_decide (getId y ∈ seen')).
  { apply bool_decide_ext, H, elem_of_cons. by left. }
  rewrite Hy.
  destruct (falsy (getId y) || bool_decide (getId y ∈ seen')); simpl.
  - apply IH. intros x Hx. apply H, elem_of_cons. by right.
  - f_equal. apply IH. intros x Hx.
    assert (Hx' : x ∈ y :: rest) by (apply elem_of_cons; by right).
    specialize (H x Hx'). set_solver.
Qed.

(** A list the filter has been through passes it again unchanged, from any
    set that holds none of its ids. *)
Lemma filterUnseen_fixed (arr : list T) :
  forall seen : gset string,
    (forall x, x ∈ arr -> getId x <> "" /\ getId x ∉ seen) ->
    NoDup (getId <$> arr) ->
    fst (filterUnseen getId seen arr) = arr.
Proof.
  induction arr as [|y rest IH]; intros seen H Hnd; [done|].
  rewrite filterUnseen_cons.
  destruct (H y) as [Hne Hnin]; [apply elem_of_cons; by left|].
  apply falsy_false in Hne as Hf. rewrite Hf, (bool_decide_eq_false_2 _ Hnin). simpl.
  f_equal. rewrite fmap_cons in Hnd. apply NoDup_cons in Hnd as [Hy Hnd].
  apply IH; [|done]. intros x Hx.
  destruct (H x) as [? ?]; [apply elem_of_cons; by right|]. split; [done|].
  intros Hin. apply elem_of_union in Hin as [Hin|Hin]; [|done].
  apply elem_of_singleton in Hin. apply Hy. rewrite <- Hin.
  apply list_elem_of_fmap. by exists x.
Qed.
(** Afterwards the set holds the id of every record of the input that has
    one. *)
Lemma filterUnseen_covers (arr : list T) :
  forall (seen : gset string) (x : T),
    x ∈ arr -> getId x <> "" -> getId x ∈ snd (filterUnseen getId seen arr).
Proof.
  induction arr as [|y rest IH]; intros seen x Hx Hne.
  - by apply elem_of_nil in Hx.
  - rewrite filterUnseen_cons. apply elem_of_cons in Hx as [->|Hx].
    + apply falsy_false in Hne as Hf. rewrite Hf. simpl.
      case_bool_decide as Hin; simpl.
      * rewrite filterUnseen_seen. set_solver.
      * rewrite filterUnseen_seen. set_solver.
    + destruct (falsy (getId y) || bool_decide (getId y ∈ seen)); simpl; by apply IH.
Qed.
End DedupeComposition.

(** [dedupeBy] is idempotent. *)
Theorem dedupeBy_idempotent :
  forall (T : Type) (getId : T -> string) (arr : list T),
    dedupeBy getId (dedupeBy getId arr) = dedupeBy getId arr.
Proof.
  intros T getId arr. unfold dedupeBy at 1. apply filterUnseen_fixed.
  - intros x Hx. unfold dedupeBy in Hx. apply filterUnseen_kept in Hx as [? _].
    split; [done|set_solver].
  - apply filterUnseen_NoDup.
Qed.

(** Within one request no id is handed out twice: what a later call
    returns shares no id with what an earlier call returned, and a call
    repeated with the same records returns nothing. *)
Theorem dedupeAgainstRequest_never_repeats :
  forall (T : Type) (getId : T -> string) (rid : string) (first second : list T)
         (seenByRequest : gmap string (gset string)),
    rid <> "" ->
    let call1 := dedupeAgainstRequest getId (Some rid) first seenByRequest in
    let call2 := dedupeAgainstRequest getId (Some rid) second (snd call1) in
    (forall x y, x ∈ fst call1 -> y ∈ fst call2 -> getId x <> getId y) /\
    fst (dedupeAgainstRequest getId (Some rid) first (snd call1)) = [].
Proof.
  intros T getId rid first second seenByRequest Hrid call1 call2.
  subst call2 call1.
  unfold dedupeAgainstRequest. apply falsy_false in Hrid as Hf. rewrite Hf.
  set (bag := default ∅ (seenByRequest !! rid)).
  pose proof (filterUnseen_seen getId first bag) as Hseen.
  destruct (filterUnseen getId bag first) as [out1 bag1] eqn:H1. simpl in Hseen.
  simpl. rewrite lookup_insert_eq. simpl.
  pose proof (filterUnseen_kept getId second bag1) as Hkept2.
  destruct (filterUnseen getId bag1 second) as [out2 bag2] eqn:H2. simpl in Hkept2.
  split.
  - simpl. intros x y Hx Hy Heq. apply Hkept2 in Hy as [_ Hy]. apply Hy.
    rewrite Hseen, <- Heq. apply elem_of_union_r, elem_of_list_to_set, list_elem_of_fmap.
    by exists x.
  - pose proof (filterUnseen_all_seen getId first bag1) as Hall.
    destruct (filterUnseen getId bag1 first) as [out3 bag3]. simpl in *.
    apply Hall. intros x Hx.
    destruct (decide (getId x = "")) as [|Hne]; [by left|right].
    pose proof (filterUnseen_covers getId first bag x Hx Hne) as Hc.
    by rewrite H1 in Hc.
Qed.

Lemma dedupeAgainstRequest_never_repeats_witness :
  let items : list (string * nat) := [("a", 1); ("b", 2)] in
  let call1 := dedupeAgainstRequest fst (Some "req-1") items ∅ in
  fst (dedupeAgainstRequest fst (Some "req-1") items (snd call1)) = [].
Proof.
  intros items call1.
  apply (dedupeAgainstRequest_never_repeats (string * nat) fst "req-1" items items ∅).
  discriminate.
Defined.

(** A request seen for the first time: [dedupeAgainstRequest] is
    [dedupeBy], and what [dedupeBy] returned passes it unchanged, as in
    the tools, which call one on the result of the other. *)
Theorem dedupeAgainstRequest_fresh_request :
  forall (T : Type) (getId : T -> string) (rid : string) (items : list T)
         (seenByRequest : gmap string (gset string)),
    rid <> "" ->
    seenByRequest !! rid = None ->
    fst (dedupeAgainstRequest getId (Some rid) items seenByRequest) = dedupeBy getId items /\
    fst (dedupeAgainstRequest getId (Some rid) (dedupeBy getId items) seenByRequest) =
    dedupeBy getId items.
Proof.
  intros T getId rid items seenByRequest Hrid Hnew.
  rewrite !dedupeAgainstRequest_present by done. rewrite Hnew. simpl. split; [done|].
  apply filterUnseen_fixed.
  - intros x Hx. unfold dedupeBy in Hx. apply filterUnseen_kept in Hx as [? _].
    split; [done|set_solver].
  - apply filterUnseen_NoDup.
Qed.

Lemma dedupeAgainstRequest_fresh_request_witness :
  fst (dedupeAgainstRequest fst (Some "req-7") [("a", 1); ("", 2); ("a", 3); ("b", 4)]
         ({["req-1" := {["a"]}]} : gmap string (gset string))) =
  dedupeBy fst [("a", 1); ("", 2); ("a", 3); ("b", 4)].
Proof.
  apply (dedupeAgainstRequest_fresh_request (string * nat) fst "req-7"
           [("a", 1); ("", 2); ("a", 3); ("b", 4)] {["req-1" := {["a"]}]}).
  - discriminate.
  - vm_compute. reflexivity.
Defined.

(** Requests do not see each other: a call for one request leaves the set
    of every other request as it was, and what a call for another request
    returns does not depend on it. *)
Theorem dedupeAgainstRequest_requests_isolated :
  forall (T : Type) (getId : T -> string) (rid other : string) (items later : list T)
         (seenByRequest : gmap string (gset string)),
    rid <> other ->
    let after := snd (dedupeAgainstRequest getId (Some rid) items seenByRequest) in
    after !! other = seenByRequest !! other /\
    fst (dedupeAgainstRequest getId (Some other) later after) =
    fst (dedupeAgainstRequest getId (Some other) later seenByRequest).
Proof.
  intros T getId rid other items later seenByRequest Hne after.
  assert (Hother : after !! other = seenByRequest !! other).
  { subst after. unfold dedupeAgainstRequest. destruct (falsy rid); [done|].
    destruct (filterUnseen getId (default ∅ (seenByRequest !! rid)) items).
    simpl. by rewrite lookup_insert_ne. }
  split; [done|].
  destruct (decide (other = "")) as [->|Hother'].
  { reflexivity. }
  rewrite !dedupeAgainstRequest_present by done. by rewrite Hother.
Qed.

Lemma dedupeAgainstRequest_requests_isolated_witness :
  let seen : gmap string (gset string) := {["req-2" := {["b"]}]} in
  let after := snd (dedupeAgainstRequest fst (Some "req-1") [("a", 1)] seen) in
  after !! "req-2" = seen !! "req-2".
Proof.
  intros seen after.
  apply (dedupeAgainstRequest_requests_isolated (string * nat) fst "req-1" "req-2"
           [("a", 1)] [] seen).
  discriminate.
Defined.

(* ===================================================================== *)
(** * Strings *)
(* ===================================================================== *)

Lemma append_cons (x : ascii) (a b : string) : String x a ++ b = String x (a ++ b).
Proof. reflexivity. Qed.

Lemma append_assoc (a b c : string) : (a ++ b) ++ c = a ++ (b ++ c).
Proof. induction a as [|x a IH]; [done|]. by rewrite !append_cons, IH. Qed.

Lemma append_nil_r (a : string) : a ++ "" = a.
Proof. induction a as [|x a IH]; [done|]. by rewrite append_cons, IH. Qed.

Lemma length_append (a b : string) :
  String.length (a ++ b) = (String.length a + String.length b)%nat.
Proof. induction a as [|c a IH]; [done|]. rewrite append_cons. simpl. by rewrite IH. Qed.

Lemma substring_prefix (a b : string) : String.substring 0 (String.length a) (a ++ b) = a.
Proof.
  induction a as [|c a IH].
  - by destruct b.
  - rewrite append_cons. simpl. by rewrite IH.
Qed.

Lemma consumed_app (text rest : string) : consumed (text ++ rest) rest = text.
Proof.
  unfold consumed. rewrite length_append.
  replace (String.length text + String.length rest - String.length rest)%nat
    with (String.length text) by lia.
  apply substring_prefix.
Qed.

Lemma toLowerCase_app (a b : string) : toLowerCase (a ++ b) = toLowerCase a ++ toLowerCase b.
Proof. induction a as [|c a IH]; [done|]. rewrite append_cons. simpl. by rewrite IH. Qed.

Lemma toLowerCase_length (a : string) : String.length (toLowerCase a) = String.length a.
Proof. induction a as [|c a IH]; [done|]. simpl. by rewrite IH. Qed.

Lemma prefix_app (m rest : string) : String.prefix m (m ++ rest) = true.
Proof.
  induction m as [|c m IH]; [by destruct rest|].
  rewrite append_cons. simpl. rewrite IH. by destruct (ascii_dec c c).
Qed.

Lemma includes_prefix (m rest : string) : includes (m ++ rest) m = true.
Proof.
  destruct m as [|c m].
  - change ("" ++ rest) with rest. by destruct rest.
  - pose proof (prefix_app (String c m) rest) as H. rewrite append_cons in H |- *.
    cbn [includes]. by rewrite H.
Qed.

Lemma includes_app_r (pre s needle : string) :
  includes s needle = true -> includes (pre ++ s) needle = true.
Proof.
  intros H. induction pre as [|c pre IH]; [done|].
  rewrite append_cons. simpl. rewrite IH. apply orb_true_r.
Qed.

Lemma includes_middle (pre m rest : string) : includes (pre ++ m ++ rest) m = true.
Proof. apply includes_app_r, includes_prefix. Qed.

Lemma substring_length (n : nat) (s : string) :
  (n <= String.length s)%nat -> String.length (String.substring 0 n s) = n.
Proof.
  revert s. induction n as [|n IH]; intros s H.
  - by destruct s.
  - destruct s as [|c s]; simpl in *; [lia|]. rewrite IH; lia.
Qed.

(* ===================================================================== *)
(** * Further properties of the retrying timeout wrapper *)
(* ===================================================================== *)

(** The error of a timed-out attempt is always classified as retryable. *)
Lemma timeout_isRetryable (timeoutMs : N) :
  isRetryable ("Request timeout after " ++ decimal timeoutMs ++ "ms") = true.
Proof.
  unfold isRetryable.
  change ("Request timeout after " ++ decimal timeoutMs ++ "ms")
    with ("Request " ++ ("timeout after " ++ decimal timeoutMs ++ "ms")).
  rewrite includes_app_r; [reflexivity|]. reflexivity.
Qed.

Section RetryMore.
Context {Query Options R : Type}.
Variable valyu : Query -> Options -> Z -> attempt R.
Variable backoffLate : Z -> N.
Variables (searchQuery : Query) (searchOptions : Options).
Variables (timeoutMs : N) (maxRetries : Z).

Local Abbreviation loop :=
  (attemptLoop valyu backoffLate searchQuery searchOptions timeoutMs maxRetries).

(** An attempt that times out with a retry left: the wrapper sleeps and
    goes round again, as for a retryable rejection. *)
Lemma attemptLoop_stall_retry (remaining : nat) (attempt : Z) (lastError : option string)
      (w : timeline) (late : N) :
  valyu searchQuery searchOptions attempt = Stalls late ->
  (attempt < maxRetries)%Z ->
  let message := "Request timeout after " ++ decimal timeoutMs ++ "ms" in
  loop (S remaining) attempt lastError w =
  loop remaining (attempt + 1)%Z (Some message)
       (Timeline (now w + (timeoutMs + late) + (Z.to_N (2 ^ attempt * 1000) + backoffLate attempt))
                 (trace w ++ [Called (now w); Failed (now w + (timeoutMs + late))%N message;
                              Slept (Z.to_N (2 ^ attempt * 1000))])).
Proof.
  intros Hcall Hlt message. cbn -[isRetryable String.append]. rewrite Hcall.
  rewrite timeout_isRetryable.
  apply Z.ltb_lt in Hlt. rewrite Hlt. cbn -[String.append].
  unfold advance, record. cbn -[String.append]. by rewrite <- !app_assoc.
Qed.

Lemma attemptLoop_stall_throw (remaining : nat) (lastError : option string)
      (w : timeline) (late : N) :
  valyu searchQuery searchOptions maxRetries = Stalls late ->
  let message := "Request timeout after " ++ decimal timeoutMs ++ "ms" in
  loop (S remaining) maxRetries lastError w =
  (Timeline (now w + (timeoutMs + late))
            (trace w ++ [Called (now w); Failed (now w + (timeoutMs + late))%N message]),
   inr message).
Proof.
  intros Hcall message. cbn -[isRetryable String.append]. rewrite Hcall.
  rewrite Z.ltb_irrefl, andb_false_r.
  unfold advance, record. cbn -[String.append]. by rewrite <- !app_assoc.
Qed.

Lemma attemptLoop_fulfil (remaining : nat) (attempt : Z) (lastError : option string)
      (w : timeline) (response : R) (took : N) :
  valyu searchQuery searchOptions attempt = Fulfils response took ->
  loop (S remaining) attempt lastError w =
  (Timeline (now w + took) (trace w ++ [Called (now w)]), inl response).
Proof. intros Hcall. simpl. rewrite Hcall. reflexivity. Qed.

(** The loop from any attempt on, for any behaviour of the call. *)
Lemma attemptLoop_last_attempt :
  forall (left : nat) (attempt : Z) (lastError : option string) (w : timeline),
    (attempt + Z.of_nat left = maxRetries)%Z ->
    let r := loop (S left) attempt lastError w in
    exists n : Z,
      (attempt <= n <= maxRetries)%Z /\
      invocations (trace (fst r)) = (invocations (trace w) + Z.to_nat (n - attempt + 1))%nat /\
      match valyu searchQuery searchOptions n with
      | Fulfils response _ => snd r = inl response
      | Rejects message _ => snd r = inr message
      | Stalls _ => snd r = inr ("Request timeout after " ++ decimal timeoutMs ++ "ms")
      end.
Proof.
  induction left as [|left IH]; intros attempt lastError w Hleft r; subst r.
  - assert (attempt = maxRetries) as -> by lia.
    exists maxRetries. split; [lia|].
    replace (Z.to_nat (maxRetries - maxRetries + 1)) with 1%nat by lia.
    destruct (valyu searchQuery searchOptions maxRetries) as [response took|message took|late] eqn:Hcall.
    + rewrite (attemptLoop_fulfil _ _ _ _ _ _ Hcall). simpl.
      rewrite invocations_app. done.
    + rewrite (attemptLoop_throw _ _ _ _ _ _ _ _ _ _ _ _ Hcall)
        by (by rewrite Z.ltb_irrefl, andb_false_r).
      simpl. rewrite invocations_app. done.
    + rewrite (attemptLoop_stall_throw _ _ _ _ Hcall). simpl.
      rewrite invocations_app. done.
  - destruct (valyu searchQuery searchOptions attempt) as [response took|message took|late] eqn:Hcall.
    + exists attempt. split; [lia|]. rewrite Hcall.
      rewrite (attemptLoop_fulfil _ _ _ _ _ _ Hcall). simpl.
      rewrite invocations_app. replace (Z.to_nat (attempt - attempt + 1)) with 1%nat by lia. done.
    + destruct (isRetryable message) eqn:Hretry.
      * rewrite (attemptLoop_retry _ _ _ _ _ _ _ _ _ _ _ _ Hcall Hretry) by lia.
        edestruct (IH (attempt + 1)%Z (Some message)) as (n & Hn & Hinv & Hres); [lia|].
        exists n. split; [lia|]. split; [|exact Hres].
        rewrite Hinv. simpl trace. rewrite invocations_app. unfold invocations at 2. simpl.
        lia.
      * exists attempt. split; [lia|]. rewrite Hcall.
        rewrite (attemptLoop_throw _ _ _ _ _ _ _ _ _ _ _ _ Hcall) by (by rewrite Hretry).
        simpl. rewrite invocations_app.
        replace (Z.to_nat (attempt - attempt + 1)) with 1%nat by lia. done.
    + rewrite (attemptLoop_stall_retry _ _ _ _ _ Hcall) by lia. cbv zeta.
      edestruct (IH (attempt + 1)%Z) as (n & Hn & Hinv & Hres); [lia|].
      exists n. split; [lia|]. split; [|exact Hres].
      rewrite Hinv. simpl trace. rewrite invocations_app. unfold invocations at 2. simpl.
      lia.
Qed.

(** The loop when the attempts before [k] fail with retryable rejections
    and attempt [k] fulfils. *)
Lemma attemptLoop_recovers (message : Z -> string) (took : Z -> N) (k : Z)
      (response : R) (tookLast : N) :
  (k <= maxRetries)%Z ->
  (forall n, (n < k)%Z -> valyu searchQuery searchOptions n = Rejects (message n) (took n)) ->
  (forall n, (n < k)%Z -> isRetryable (message n) = true) ->
  valyu searchQuery searchOptions k = Fulfils response tookLast ->
  forall (before : nat) (remaining : nat) (attempt : Z) (lastError : option string) (w : timeline),
    (attempt + Z.of_nat before = k)%Z ->
    (before < remaining)%nat ->
    let r := loop remaining attempt lastError w in
    snd r = inl response /\
    invocations (trace (fst r)) = (invocations (trace w) + S before)%nat /\
    backoffs (trace (fst r)) =
    (backoffs (trace w) ++
     map (fun i => Z.to_N (2 ^ i * 1000)) (seqZ attempt (Z.of_nat before)))%list.
Proof.
  intros Hk Hcall Hretry Hlast.
  induction before as [|before IH]; intros remaining attempt lastError w Hbefore Hrem r; subst r.
  - assert (attempt = k) as -> by lia.
    destruct remaining as [|remaining]; [lia|].
    rewrite (attemptLoop_fulfil _ _ _ _ _ _ Hlast). simpl.
    rewrite invocations_app, backoffs_app. simpl. by rewrite !app_nil_r.
  - destruct remaining as [|remaining]; [lia|].
    rewrite (attemptLoop_retry _ _ _ _ _ _ _ _ _ _ _ _ (Hcall attempt ltac:(lia))
               (Hretry attempt ltac:(lia))) by lia.
    edestruct (IH remaining (attempt + 1)%Z) as (Hres & Hinv & Hback); [lia|lia|].
    split; [exact Hres|]. split.
    + rewrite Hinv. simpl trace. rewrite invocations_app. unfold invocations at 2. simpl. lia.
    + rewrite Hback. simpl trace. rewrite backoffs_app.
      rewrite Nat2Z.inj_succ, (seqZ_cons attempt) by lia.
      rewrite Z.pred_succ. replace (Z.succ attempt) with (attempt + 1)%Z by lia.
      rewrite <- app_assoc. reflexivity.
Qed.

(** The loop when every attempt times out and every timer is punctual. *)
Lemma attemptLoop_all_stall :
  (forall n, valyu searchQuery searchOptions n = Stalls 0) ->
  (forall n, backoffLate n = 0%N) ->
  forall (left : nat) (attempt : Z) (lastError : option string) (w : timeline),
    (0 <= attempt)%Z ->
    (attempt + Z.of_nat left = maxRetries)%Z ->
    let r := loop (S left) attempt lastError w in
    snd r = inr ("Request timeout after " ++ decimal timeoutMs ++ "ms") /\
    Z.of_N (now (fst r)) =
    (Z.of_N (now w) + (Z.of_nat left + 1) * Z.of_N timeoutMs +
     1000 * (2 ^ maxRetries - 2 ^ attempt))%Z.
Proof.
  intros Hcall Hlate.
  induction left as [|left IH]; intros attempt lastError w Hpos Hleft r; subst r.
  - assert (attempt = maxRetries) as -> by lia.
    rewrite (attemptLoop_stall_throw _ _ _ _ (Hcall maxRetries)). simpl. split; [done|]. lia.
  - rewrite (attemptLoop_stall_retry _ _ _ _ _ (Hcall attempt)) by lia. cbv zeta.
    edestruct (IH (attempt + 1)%Z) as (Hres & Hnow); [lia|lia|].
    split; [exact Hres|]. rewrite Hnow. simpl now. rewrite Hlate.
    rewrite Z.pow_add_r by lia.
    assert (0 < 2 ^ attempt)%Z by (apply Z.pow_pos_nonneg; lia).
    rewrite !N2Z.inj_add, Z2N.id by lia. simpl Z.of_N. lia.
Qed.
End RetryMore.

(** Whatever the underlying call does, the wrapper invokes it at most
    [maxRetries + 1] times, and its result is the outcome of the last
    invocation: the response it fulfilled with, the error it rejected
    with, or the timeout error. *)
Theorem callValyuWithTimeout_result_is_last_attempt :
  forall (Query Options R : Type) (valyu : Query -> Options -> Z -> attempt R)
         (backoffLate : Z -> N) (searchQuery : Query) (searchOptions : Options)
         (timeoutMs : N) (maxRetries : Z) (w : timeline),
    (0 <= maxRetries)%Z ->
    let r := callValyuWithTimeout valyu backoffLate searchQuery searchOptions
               timeoutMs maxRetries w in
    exists n : Z,
      (0 <= n <= maxRetries)%Z /\
      invocations (trace (fst r)) = (invocations (trace w) + Z.to_nat (n + 1))%nat /\
      match valyu searchQuery searchOptions n with
      | Fulfils response _ => snd r = inl response
      | Rejects message _ => snd r = inr message
      | Stalls _ => snd r = inr ("Request timeout after " ++ decimal timeoutMs ++ "ms")
      end.
Proof.
  intros Query Options R valyu backoffLate q o timeoutMs maxRetries w Hmax r.
  subst r. unfold callValyuWithTimeout.
  replace (Z.to_nat (maxRetries + 1)) with (S (Z.to_nat maxRetries)) by lia.
  destruct (attemptLoop_last_attempt valyu backoffLate q o timeoutMs maxRetries
              (Z.to_nat maxRetries) 0%Z None w ltac:(lia)) as (n & Hn & Hinv & Hres).
  exists n. split; [exact Hn|]. split; [|exact Hres].
  rewrite Hinv. by rewrite Z.sub_0_r.
Qed.

Lemma callValyuWithTimeout_result_is_last_attempt_witness :
  let valyu := fun (_ _ : unit) (n : Z) =>
                 if (n =? 0)%Z then Rejects "socket hang up ECONNRESET" 12 else Fulfils 5%nat 30 in
  let r := callValyuWithTimeout valyu (fun _ => 0%N) tt tt 30000 2 (Timeline 0 []) in
  exists n : Z,
    (0 <= n <= 2)%Z /\
    invocations (trace (fst r)) = (0 + Z.to_nat (n + 1))%nat /\
    match valyu tt tt n with
    | Fulfils response _ => snd r = inl response
    | Rejects message _ => snd r = inr message
    | Stalls _ => snd r = inr ("Request timeout after " ++ decimal 30000 ++ "ms")
    end.
Proof.
  intros valyu r.
  apply (callValyuWithTimeout_result_is_last_attempt unit unit nat valyu (fun _ => 0%N) tt tt
           30000%N 2%Z (Timeline 0 [])).
  lia.
Defined.

(** When the first [k] attempts reject with retryable messages and attempt
    [k] fulfils, with [k] at most [maxRetries], the wrapper returns that
    response after [k + 1] invocations and sleeps of 1 s, 2 s, ..., doubling
    each time. *)
Theorem callValyuWithTimeout_recovers_after_retries :
  forall (Query Options R : Type) (valyu : Query -> Options -> Z -> attempt R)
         (backoffLate : Z -> N) (searchQuery : Query) (searchOptions : Options)
         (timeoutMs : N) (maxRetries : Z) (w : timeline)
         (message : Z -> string) (took : Z -> N) (k : Z) (response : R) (tookLast : N),
    (0 <= k <= maxRetries)%Z ->
    (forall n, (n < k)%Z -> valyu searchQuery searchOptions n = Rejects (message n) (took n)) ->
    (forall n, (n < k)%Z -> isRetryable (message n) = true) ->
    valyu searchQuery searchOptions k = Fulfils response tookLast ->
    let r := callValyuWithTimeout valyu backoffLate searchQuery searchOptions
               timeoutMs maxRetries w in
    snd r = inl response /\
    invocations (trace (fst r)) = (invocations (trace w) + Z.to_nat (k + 1))%nat /\
    backoffs (trace (fst r)) =
    (backoffs (trace w) ++ map (fun i => Z.to_N (2 ^ i * 1000)) (seqZ 0 k))%list.
Proof.
  intros Query Options R valyu backoffLate q o timeoutMs maxRetries w message took k
         response tookLast Hk Hcall Hretry Hlast r.
  subst r. unfold callValyuWithTimeout.
  pose proof (attemptLoop_recovers valyu backoffLate q o timeoutMs maxRetries message took k
                response tookLast ltac:(lia) Hcall Hretry Hlast (Z.to_nat k)
                (Z.to_nat (maxRetries + 1)) 0%Z None w ltac:(lia) ltac:(lia)) as H.
  cbv zeta in H. rewrite Z2Nat.id in H by lia.
  replace (Z.to_nat (k + 1)) with (S (Z.to_nat k)) by lia. exact H.
Qed.

Lemma callValyuWithTimeout_recovers_after_retries_witness :
  let valyu := fun (_ _ : unit) (n : Z) =>
                 if (n <? 2)%Z then Rejects "getaddrinfo ENOTFOUND api.valyu.network" 8
                 else Fulfils 5%nat 30 in
  let r := callValyuWithTimeout valyu (fun _ => 0%N) tt tt 30000 2 (Timeline 0 []) in
  snd r = inl 5%nat /\
  invocations (trace (fst r)) = 3%nat /\
  backoffs (trace (fst r)) = [1000; 2000]%N.
Proof.
  intros valyu r.
  apply (callValyuWithTimeout_recovers_after_retries unit unit nat valyu (fun _ => 0%N) tt tt
           30000%N 2%Z (Timeline 0 [])
           (fun _ => "getaddrinfo ENOTFOUND api.valyu.network") (fun _ => 8%N) 2%Z 5%nat 30%N).
  - lia.
  - intros n Hn. subst valyu. simpl. apply Z.ltb_lt in Hn. by rewrite Hn.
  - intros n Hn. reflexivity.
  - reflexivity.
Defined.

(** When every attempt times out and timers fire on time, the wrapper
    throws the timeout error after [maxRetries + 1] timeouts and backoffs
    of 1 s, 2 s, ..., [2^(maxRetries - 1)] s: 93 seconds for the 30 s
    timeout and 2 retries the tools pass. *)
Theorem callValyuWithTimeout_all_timeouts_duration :
  forall (Query Options R : Type) (valyu : Query -> Options -> Z -> attempt R)
         (backoffLate : Z -> N) (searchQuery : Query) (searchOptions : Options)
         (timeoutMs : N) (maxRetries : Z) (w : timeline),
    (0 <= maxRetries)%Z ->
    (forall n, valyu searchQuery searchOptions n = Stalls 0) ->
    (forall n, backoffLate n = 0%N) ->
    let r := callValyuWithTimeout valyu backoffLate searchQuery searchOptions
               timeoutMs maxRetries w in
    snd r = inr ("Request timeout after " ++ decimal timeoutMs ++ "ms") /\
    Z.of_N (now (fst r)) =
    (Z.of_N (now w) + (maxRetries + 1) * Z.of_N timeoutMs + 1000 * (2 ^ maxRetries - 1))%Z.
Proof.
  intros Query Options R valyu backoffLate q o timeoutMs maxRetries w Hmax Hcall Hlate r.
  subst r. unfold callValyuWithTimeout.
  replace (Z.to_nat (maxRetries + 1)) with (S (Z.to_nat maxRetries)) by lia.
  pose proof (attemptLoop_all_stall valyu backoffLate q o timeoutMs maxRetries Hcall Hlate
                (Z.to_nat maxRetries) 0%Z None w ltac:(lia) ltac:(lia)) as H.
  cbv zeta in H. rewrite Z2Nat.id in H by lia. exact H.
Qed.

Lemma callValyuWithTimeout_all_timeouts_duration_witness :
  let r := callValyuWithTimeout (fun (_ _ : unit) (_ : Z) => @Stalls unit 0) (fun _ => 0%N)
             tt tt 30000 2 (Timeline 0 []) in
  snd r = inr "Request timeout after 30000ms" /\ Z.of_N (now (fst r)) = 93000%Z.
Proof.
  intros r.
  apply (callValyuWithTimeout_all_timeouts_duration unit unit unit
           (fun (_ _ : unit) (_ : Z) => @Stalls unit 0) (fun _ => 0%N) tt tt 30000%N 2%Z
           (Timeline 0 [])).
  - lia.
  - reflexivity.
  - reflexivity.
Defined.

(* ===================================================================== *)
(** * The layout of a fingerprint *)
(* ===================================================================== *)

Lemma compress_length (h block : list N) :
  length h = 8%nat -> length (Sha256.compress h block) = 8%nat.
Proof.
  intros Hh. unfold Sha256.compress. cbv zeta.
  rewrite length_map, length_combine, Hh. reflexivity.
Qed.

Lemma fold_compress_length (blocks : list (list N)) :
  forall h, length h = 8%nat -> length (fold_left Sha256.compress blocks h) = 8%nat.
Proof.
  induction blocks as [|b blocks IH]; intros h Hh; [done|].
  simpl. apply IH. by apply compress_length.
Qed.

Lemma digest_length (msg : list N) : length (Sha256.digest msg) = 32%nat.
Proof.
  unfold Sha256.digest. cbv zeta.
  pose proof (fold_compress_length
                (Sha256.chunks (length (Sha256.pad msg)) 64 (Sha256.pad msg)) Sha256.H0 eq_refl) as H.
  destruct (fold_left _ _ _) as [|a [|b [|c [|d [|e [|f [|g [|h [|]]]]]]]]]; try discriminate.
  reflexivity.
Qed.

Lemma hexDigit_hex (n : N) : isLowerHex (hexDigit n) = true.
Proof.
  destruct n as [|p]; [reflexivity|].
  do 4 (try destruct p as [p|p|]; try reflexivity).
Qed.

Lemma toHex_hex (bs : list N) : forallb isLowerHex (list_ascii_of_string (toHex bs)) = true.
Proof.
  induction bs as [|b bs IH]; [done|].
  simpl. by rewrite !hexDigit_hex, IH.
Qed.

Lemma land_15_cases (b : N) : (N.land b 15 < 16)%N.
Proof.
  change 15%N with (N.ones 4). rewrite N.land_ones. apply N.mod_lt. discriminate.
Qed.

Lemma land_63_cases (b : N) : (N.land b 63 < 64)%N.
Proof.
  change 63%N with (N.ones 6). rewrite N.land_ones. apply N.mod_lt. discriminate.
Qed.

(** The byte [(b & 0x0f) | 0x40] is written [4x]. *)
Lemma version_nibble (b : N) : hexDigit (N.lor (N.land b 15) 64 / 16) = "4"%char.
Proof.
  pose proof (land_15_cases b) as H. set (x := N.land b 15) in *.
  assert (Hx : x ∈ map N.of_nat (seq 0 16)).
  { apply list_elem_of_fmap. exists (N.to_nat x). split; [lia|].
    apply list_elem_of_In, in_seq. lia. }
  simpl in Hx. set_unfold in Hx.
  repeat (destruct Hx as [->|Hx]; [reflexivity|]). done.
Qed.

(** The byte [(b & 0x3f) | 0x80] is written [8x], [9x], [ax] or [bx]. *)
Lemma variant_nibble (b : N) : oneOf "89ab" (hexDigit (N.lor (N.land b 63) 128 / 16)) = true.
Proof.
  pose proof (land_63_cases b) as H. set (x := N.land b 63) in *.
  assert (Hx : x ∈ map N.of_nat (seq 0 64)).
  { apply list_elem_of_fmap. exists (N.to_nat x). split; [lia|].
    apply list_elem_of_In, in_seq. lia. }
  simpl in Hx. set_unfold in Hx.
  repeat (destruct Hx as [->|Hx]; [reflexivity|]). done.
Qed.

(** Every fingerprint has the layout of a version-4 UUID: 36 characters,
    hyphens after the 8th, 12th, 16th and 20th hexadecimal digit, the
    digit 4 opening the third group, one of 8, 9, a, b opening the
    fourth, lower-case hexadecimal digits elsewhere. *)
Theorem keyToUuid_is_version4_uuid :
  forall key : string,
    let u := keyToUuid key in
    String.length u = 36%nat /\
    forall (i : nat) (c : ascii),
      String.get i u = Some c ->
      if (i =? 8)%nat || (i =? 13)%nat || (i =? 18)%nat || (i =? 23)%nat then c = "-"%char
      else if (i =? 14)%nat then c = "4"%char
      else if (i =? 19)%nat then oneOf "89ab" c = true
      else isLowerHex c = true.
Proof.
  intros key u. subst u. unfold keyToUuid.
  pose proof (digest_length (utf8 key)) as Hlen.
  destruct (Sha256.digest (utf8 key))
    as [|b0 [|b1 [|b2 [|b3 [|b4 [|b5 [|b6 [|b7 [|b8 [|b9 [|b10 [|b11 [|b12 [|b13 [|b14 [|b15 rest]]]]]]]]]]]]]]]];
    try discriminate.
  clear Hlen.
  cbn -[hexDigit N.lor N.land N.div N.modulo].
  split; [reflexivity|].
  intros i c Hget.
  do 36 (destruct i as [|i];
         [injection Hget as <-; cbn -[hexDigit N.lor N.land N.div N.modulo isLowerHex oneOf];
          first [reflexivity | apply hexDigit_hex | apply version_nibble | apply variant_nibble]|]).
  discriminate.
Qed.

(* ===================================================================== *)
(** * Further properties of the key canonicalizer *)
(* ===================================================================== *)

Lemma isSpace_lowerChar (c : ascii) : isSpace (lowerChar c) = isSpace c.
Proof. destruct c as [[] [] [] [] [] [] [] []]; reflexivity. Qed.

Lemma lowerChar_idempotent (c : ascii) : lowerChar (lowerChar c) = lowerChar c.
Proof. destruct c as [[] [] [] [] [] [] [] []]; reflexivity. Qed.

Lemma toLowerCase_idempotent (s : string) : toLowerCase (toLowerCase s) = toLowerCase s.
Proof. induction s as [|c s IH]; [done|]. simpl. by rewrite lowerChar_idempotent, IH. Qed.

Lemma toLowerCase_trimStart (s : string) :
  toLowerCase (trimStart s) = trimStart (toLowerCase s).
Proof.
  induction s as [|c s IH]; [done|]. simpl. rewrite isSpace_lowerChar.
  destruct (isSpace c); [exact IH|reflexivity].
Qed.

Lemma toLowerCase_trimEnd (s : string) :
  toLowerCase (trimEnd s) = trimEnd (toLowerCase s).
Proof.
  induction s as [|c s IH]; [done|]. simpl. rewrite <- IH, isSpace_lowerChar.
  destruct (trimEnd s) as [|d kept]; simpl; [|reflexivity].
  by destruct (isSpace c).
Qed.

Lemma toLowerCase_collapseSpaces (s : string) :
  toLowerCase (collapseSpaces s) = collapseSpaces (toLowerCase s).
Proof.
  induction s as [|c s IH]; [done|]. simpl. rewrite isSpace_lowerChar.
  destruct (isSpace c); simpl; [|by rewrite IH].
  by rewrite toLowerCase_trimStart, IH.
Qed.

Lemma trimStart_idempotent (s : string) : trimStart (trimStart s) = trimStart s.
Proof.
  induction s as [|c s IH]; [done|]. simpl.
  destruct (isSpace c) eqn:Hc; [exact IH|]. simpl. by rewrite Hc.
Qed.

Lemma trimEnd_idempotent (s : string) : trimEnd (trimEnd s) = trimEnd s.
Proof.
  induction s as [|c s IH]; [done|]. simpl.
  destruct (trimEnd s) as [|d kept] eqn:Hs.
  - destruct (isSpace c) eqn:Hc; [done|]. simpl. by rewrite Hc.
  - simpl. simpl in IH. by rewrite IH.
Qed.

(** A string of white space only is trimmed to nothing from either end. *)
Lemma trimStart_empty_trimEnd (s : string) : trimStart s = "" -> trimEnd s = "".
Proof.
  induction s as [|c s IH]; [done|]. simpl.
  destruct (isSpace c) eqn:Hc; [|done]. intros H. by rewrite (IH H).
Qed.

Lemma trimEnd_empty_trimStart (s : string) : trimEnd s = "" -> trimStart s = "".
Proof.
  induction s as [|c s IH]; [done|]. simpl.
  destruct (trimEnd s) as [|d kept]; [|done].
  destruct (isSpace c); [|done]. intros _. by apply IH.
Qed.

Lemma trimEnd_trimStart (s : string) : trimEnd (trimStart s) = trimStart (trimEnd s).
Proof.
  induction s as [|c s IH]; [done|]. simpl.
  destruct (isSpace c) eqn:Hc.
  - rewrite IH. destruct (trimEnd s) as [|d kept]; [done|]. simpl. by rewrite Hc.
  - simpl. destruct (trimEnd s) as [|d kept]; simpl; by rewrite Hc.
Qed.

Lemma trim_idempotent (s : string) : trim (trim s) = trim s.
Proof.
  unfold trim. rewrite <- trimEnd_trimStart.
  by rewrite trimStart_idempotent, trimEnd_idempotent.
Qed.

Lemma collapseSpaces_trimStart (s : string) :
  collapseSpaces (trimStart s) = trimStart (collapseSpaces s).
Proof.
  induction s as [|c s IH]; [done|]. simpl.
  destruct (isSpace c) eqn:Hc.
  - simpl. by rewrite trimStart_idempotent.
  - simpl. by rewrite Hc.
Qed.

Lemma collapseSpaces_empty (s : string) : collapseSpaces s = "" -> s = "".
Proof. destruct s as [|c s]; [done|]. simpl. by destruct (isSpace c). Qed.

Lemma collapseSpaces_trimEnd (s : string) :
  collapseSpaces (trimEnd s) = trimEnd (collapseSpaces s).
Proof.
  induction s as [|c s IH]; [done|]. simpl.
  destruct (trimEnd s) as [|d kept] eqn:Hs.
  - simpl in IH. destruct (isSpace c) eqn:Hc; simpl.
    + rewrite ?Hc, trimEnd_trimStart, <- IH. reflexivity.
    + rewrite ?Hc, <- IH. simpl. by rewrite ?Hc.
  - destruct (isSpace c) eqn:Hc.
    + change (collapseSpaces (String c (String d kept)))
        with (if isSpace c then String " " (trimStart (collapseSpaces (String d kept)))
              else String c (collapseSpaces (String d kept))).
      rewrite Hc. rewrite IH.
      change (trimEnd (String " " (trimStart (collapseSpaces s))))
        with (match trimEnd (trimStart (collapseSpaces s)) with
              | EmptyString => if isSpace " " then EmptyString else String " " EmptyString
              | kept => String " " kept
              end).
      rewrite trimEnd_trimStart.
      destruct (trimStart (trimEnd (collapseSpaces s))) as [|e k] eqn:He; [|reflexivity].
      exfalso. apply trimStart_empty_trimEnd in He. rewrite trimEnd_idempotent in He.
      rewrite <- IH in He. by apply collapseSpaces_empty in He.
    + change (collapseSpaces (String c (String d kept)))
        with (if isSpace c then String " " (trimStart (collapseSpaces (String d kept)))
              else String c (collapseSpaces (String d kept))).
      rewrite Hc, IH.
      change (trimEnd (String c (collapseSpaces s)))
        with (match trimEnd (collapseSpaces s) with
              | EmptyString => if isSpace c then EmptyString else String c EmptyString
              | kept => String c kept
              end).
      destruct (trimEnd (collapseSpaces s)) as [|e k] eqn:He; [|reflexivity].
      by apply collapseSpaces_empty in IH.
Qed.

Lemma collapseSpaces_trim (s : string) : collapseSpaces (trim s) = trim (collapseSpaces s).
Proof. unfold trim. by rewrite collapseSpaces_trimEnd, collapseSpaces_trimStart. Qed.

Lemma collapseSpaces_idempotent (s : string) :
  collapseSpaces (collapseSpaces s) = collapseSpaces s.
Proof.
  induction s as [|c s IH]; [done|]. simpl.
  destruct (isSpace c) eqn:Hc; simpl.
  - by rewrite collapseSpaces_trimStart, IH, trimStart_idempotent.
  - by rewrite Hc, IH.
Qed.

Lemma toLowerCase_trim (s : string) : toLowerCase (trim s) = trim (toLowerCase s).
Proof. unfold trim. by rewrite toLowerCase_trimEnd, toLowerCase_trimStart. Qed.

(** What [inflightKey] does to a query leaves a canonical query as it
    is. *)
Lemma canonQuery_trimmed_lower (q : string) : toLowerCase (trim (canonQuery q)) = canonQuery q.
Proof.
  unfold canonQuery. rewrite <- toLowerCase_trim, toLowerCase_idempotent.
  by rewrite <- collapseSpaces_trim, trim_idempotent.
Qed.

(** [canonQuery] is idempotent: a canonical query is its own canonical
    form, has no white space at either end and no upper-case letter. *)
Theorem canonQuery_idempotent :
  forall q : string,
    canonQuery (canonQuery q) = canonQuery q /\
    trim (canonQuery q) = canonQuery q /\
    toLowerCase (canonQuery q) = canonQuery q.
Proof.
  intros q. unfold canonQuery. split; [|split].
  - rewrite <- toLowerCase_trim, <- toLowerCase_collapseSpaces, toLowerCase_idempotent.
    by rewrite <- collapseSpaces_trim, collapseSpaces_idempotent, trim_idempotent.
  - by rewrite <- toLowerCase_trim, <- collapseSpaces_trim, trim_idempotent.
  - apply toLowerCase_idempotent.
Qed.

(** Queries that differ only by the case of their letters, by white space
    around them or by the amount of white space between their words have
    the same canonical form. *)
Theorem canonQuery_ignores_case_and_spacing :
  forall q : string,
    canonQuery (toLowerCase q) = canonQuery q /\
    canonQuery (trim q) = canonQuery q /\
    canonQuery (collapseSpaces q) = canonQuery q /\
    (forall q', toLowerCase q = toLowerCase q' -> canonQuery q = canonQuery q').
Proof.
  intros q. unfold canonQuery. split; [|split; [|split]].
  - by rewrite <- toLowerCase_trim, <- toLowerCase_collapseSpaces, toLowerCase_idempotent.
  - by rewrite trim_idempotent.
  - by rewrite <- collapseSpaces_trim, collapseSpaces_idempotent.
  - intros q' H. rewrite !toLowerCase_collapseSpaces, !toLowerCase_trim. by rewrite H.
Qed.

Section KeyAgreement.
Variable number : Type.
Variable Number_toJSON : number -> string.
Variable Number_truthy : number -> bool.
Variable localeCompare : string -> string -> comparison.

Lemma canonOptions_truthy (opts : value number) :
  truthy Number_truthy (canonOptions Number_toJSON localeCompare opts) =
  truthy Number_truthy opts.
Proof. by destruct opts. Qed.
End KeyAgreement.

(** At the call sites [once] is given [canonQuery(query)] and
    [canonOptions(searchOptions)]: for options that are truthy, such as
    the objects the tools pass, the key it coalesces under is then the
    very key [buildToolKey] gives the session memo. *)
Theorem inflightKey_of_canonical_is_buildToolKey :
  forall (number : Type) (Number_toJSON : number -> string) (Number_truthy : number -> bool)
         (localeCompare : string -> string -> comparison)
         (tool query : string) (opts : value number),
    truthy Number_truthy opts = true ->
    inflightKey Number_toJSON Number_truthy tool (canonQuery query)
                (canonOptions Number_toJSON localeCompare opts) =
    buildToolKey Number_toJSON localeCompare tool query opts.
Proof.
  intros number toJSON ntruthy lc tool query opts Hopts.
  unfold inflightKey, buildToolKey.
  rewrite canonOptions_truthy, Hopts.
  by rewrite canonQuery_trimmed_lower.
Qed.

Lemma inflightKey_of_canonical_is_buildToolKey_witness :
  let opts : value Z := Obj [("searchType", Str "all")] in
  inflightKey intToJSON intTruthy "webSearch" (canonQuery "  US   GDP growth ")
              (canonOptions intToJSON codeUnitCompare opts) =
  buildToolKey intToJSON codeUnitCompare "webSearch" "  US   GDP growth " opts.
Proof.
  intros opts.
  apply (inflightKey_of_canonical_is_buildToolKey Z intToJSON intTruthy codeUnitCompare
           "webSearch" "  US   GDP growth " opts).
  reflexivity.
Defined.

(* ===================================================================== *)
(** * Further properties of the coalescer and of the session memo *)
(* ===================================================================== *)

(** [once] keeps no result: as soon as the promise of a key has settled,
    fulfilled or rejected, the next call for that key invokes [run] again
    and returns a new pending promise, while the settled one keeps its
    outcome. *)
Theorem once_runs_again_after_settlement :
  forall (number : Type) (Number_toJSON : number -> string) (Number_truthy : number -> bool)
         (T : Type) (history between : list (turn number T))
         (tool query : string) (opts : value number) (outcome : T + string),
    let key := inflightKey Number_toJSON Number_truthy tool query opts in
    let st0 := steps Number_toJSON Number_truthy emptyCoalescer history in
    let first := once Number_toJSON Number_truthy tool query opts st0 in
    let st2 := steps Number_toJSON Number_truthy (fst first) between in
    let st3 := settle (snd first) outcome st2 in
    let again := once Number_toJSON Number_truthy tool query opts st3 in
    Forall (fun t => settles (snd first) t = false) between ->
    snd again <> snd first /\
    runsFor key (fst again) = S (runsFor key (fst first)) /\
    outcomeOf (fst again) (snd again) = Some Pending /\
    outcomeOf (fst again) (snd first) = Some (settledAs outcome).
Proof.
  intros number toJSON truthy T history between tool query opts outcome
         key st0 first st2 st3 again Hbetween.
  assert (Hc0 : consistent st0) by (apply steps_consistent, consistent_empty).
  assert (Hc1 : consistent (fst first)) by (by apply once_consistent).
  assert (Hreg1 : inflight (fst first) !! key = Some (snd first)) by apply once_registers.
  destruct (steps_keep_flight _ toJSON truthy between (fst first) key (snd first)
              Hc1 Hreg1 Hbetween) as [Hreg2 Hruns2].
  fold st2 in Hreg2, Hruns2.
  assert (Hc2 : consistent st2) by (by apply steps_consistent).
  assert (Hflight : inFlightFor key st2 (snd first)) by (by apply Hc2).
  destruct Hflight as (call & Hcall & Hkey & Hstate).
  assert (Hst3 : st3 = Coalescer (delete key (inflight st2))
                         (<[snd first := SharedCall key (settledAs outcome)]> (promises st2))
                         (runLog st2)).
  { subst st3. rewrite (settle_pending _ _ _ _ Hcall Hstate), Hkey. reflexivity. }
  assert (Hnone : inflight st3 !! key = None).
  { rewrite Hst3. simpl. apply lookup_delete_eq. }
  assert (Hagain : again =
    (Coalescer (<[key := length (promises st3)]> (inflight st3))
               (promises st3 ++ [SharedCall key Pending])
               (runLog st3 ++ [key]),
     length (promises st3))) by (by apply once_fresh).
  assert (Hlt : (snd first < length (promises st2))%nat) by (by apply lookup_lt_Some in Hcall).
  assert (Hlen : length (promises st3) = length (promises st2)).
  { rewrite Hst3. simpl. apply length_insert. }
  rewrite Hagain. simpl. repeat split.
  - lia.
  - unfold runsFor. simpl. rewrite List.filter_app, length_app. simpl.
    rewrite String.eqb_refl. simpl.
    replace (runLog st3) with (runLog st2) by (by rewrite Hst3).
    unfold runsFor in Hruns2. lia.
  - unfold outcomeOf. simpl. by rewrite lookup_app_r, Nat.sub_diag by lia.
  - unfold outcomeOf. simpl. rewrite lookup_app_l by lia.
    rewrite Hst3. simpl. by rewrite list_lookup_insert_eq by done.
Qed.

Lemma once_runs_again_after_settlement_witness :
  let opts : value Z := Obj [("searchType", Str "all")] in
  let first := once intToJSON intTruthy "webSearch" "gdp growth" opts (@emptyCoalescer nat) in
  let st3 := settle (snd first) (inr "Request timeout after 30000ms") (fst first) in
  let again := once intToJSON intTruthy "webSearch" "gdp growth" opts st3 in
  snd again <> snd first /\
  runsFor (inflightKey intToJSON intTruthy "webSearch" "gdp growth" opts) (fst again) = 2%nat.
Proof.
  intros opts first st3 again.
  pose proof (once_runs_again_after_settlement Z intToJSON intTruthy nat [] [] "webSearch"
                "gdp growth" opts (inr "Request timeout after 30000ms")) as H.
  cbv zeta in H. destruct H as (Hne & Hruns & _).
  { constructor. }
  split; [exact Hne|]. etransitivity; [exact Hruns|]. reflexivity.
Defined.

Section MemoRoundTrip.
Context {V : Type}.
Implicit Types (store : gmap string (list (string * V))) (bag : list (string * V)).

Lemma Map_get_set (m : list (string * V)) (k : string) (v : V) :
  Map_get (Map_set m k v) k = Some v.
Proof.
  induction m as [|[k' v'] m IH]; simpl.
  - by rewrite String.eqb_refl.
  - destruct (k' =? k)%string eqn:E; simpl.
    + by rewrite String.eqb_refl.
    + by rewrite E.
Qed.
End MemoRoundTrip.

(** A call that misses and whose [run] fulfils is answered from the memo
    when it is repeated: the second call returns the same value and does
    not invoke [run], whatever the bag held, full or not. *)
Theorem withSessionMemo_repeat_is_served_from_memo :
  forall (V : Type) (sid key : string) (run run' : nat -> V + string) (w : memoWorld)
         (value : V),
    sid <> "" ->
    cached (Some sid) key (memoBySession w) = false ->
    run (runCalls w) = inl value ->
    let call1 := withSessionMemo (Some sid) key run w in
    let call2 := withSessionMemo (Some sid) key run' (fst call1) in
    snd call1 = inl value /\
    snd call2 = inl value /\
    runCalls (fst call2) = S (runCalls w) /\
    memoBySession (fst call2) = memoBySession (fst call1).
Proof.
  intros V sid key run run' w value Hsid Hmiss Hrun call1 call2.
  apply falsy_false in Hsid as Hf.
  assert (Hhas : Map_has (sessionBag sid (memoBySession w)) key = false).
  { unfold cached in Hmiss. by rewrite Hf in Hmiss. }
  assert (H1 : call1 =
    (MemoWorld (memoStore sid key value
                  (<[sid := sessionBag sid (memoBySession w)]> (memoBySession w)))
               (S (runCalls w)), inl value)).
  { subst call1. unfold withSessionMemo, memoBegin. rewrite Hf, Hhas, Hrun. reflexivity. }
  assert (Hget : Map_get (sessionBag sid (memoBySession (fst call1))) key = Some value).
  { rewrite H1. simpl. unfold memoStore. rewrite sessionBag_insert. apply Map_get_set. }
  assert (Hhas2 : Map_has (sessionBag sid (memoBySession (fst call1))) key = true)
    by (apply Map_has_get; eauto).
  assert (H2 : call2 =
    (MemoWorld (<[sid := sessionBag sid (memoBySession (fst call1))]>
                  (memoBySession (fst call1)))
               (runCalls (fst call1)), inl value)).
  { subst call2. unfold withSessionMemo, memoBegin. rewrite Hf, Hhas2, Hget. reflexivity. }
  rewrite H2, H1. simpl. repeat split.
  unfold memoStore. rewrite sessionBag_insert. by rewrite insert_insert_eq.
Qed.

Lemma withSessionMemo_repeat_is_served_from_memo_witness :
  let run : nat -> nat + string := fun n => inl (n + 40)%nat in
  let w : memoWorld := MemoWorld {["session-1" := fullBag]} 0 in
  let call1 := withSessionMemo (Some "session-1") "webSearch::gdp::{}" run w in
  let call2 := withSessionMemo (Some "session-1") "webSearch::gdp::{}" run (fst call1) in
  snd call1 = inl 40%nat /\ snd call2 = inl 40%nat /\ runCalls (fst call2) = 1%nat.
Proof.
  intros run w call1 call2.
  pose proof (withSessionMemo_repeat_is_served_from_memo nat "session-1" "webSearch::gdp::{}"
                run run w 40%nat) as H.
  cbv zeta in H. destruct H as (H1 & H2 & H3 & _).
  - discriminate.
  - vm_compute. reflexivity.
  - reflexivity.
  - exact (conj H1 (conj H2 H3)).
Defined.

(** Sessions do not see each other: a call, whatever its outcome, leaves
    the memo of every other session as it was, so what is cached for one
    session is never served to another. *)
Theorem withSessionMemo_sessions_isolated :
  forall (V : Type) (sessionId : option string) (key : string) (run : nat -> V + string)
         (w : memoWorld) (other key' : string),
    sessionId <> Some other ->
    let w1 := fst (withSessionMemo sessionId key run w) in
    sessionBag other (memoBySession w1) = sessionBag other (memoBySession w) /\
    cached (Some other) key' (memoBySession w1) = cached (Some other) key' (memoBySession w).
Proof.
  intros V sessionId key run w other key' Hne w1.
  assert (Hbag : sessionBag other (memoBySession w1) = sessionBag other (memoBySession w)).
  { subst w1. unfold withSessionMemo.
    pose proof (memoBegin_bags sessionId key (memoBySession w) other) as Hbegin.
    destruct (memoBegin sessionId key (memoBySession w)) as [store found] eqn:Hb.
    simpl in Hbegin. destruct found as [|value|sid]; simpl; try exact Hbegin.
    assert (Hsid : sessionId = Some sid).
    { unfold memoBegin in Hb. destruct sessionId as [s|]; [|done].
      destruct (falsy s); [done|].
      destruct (Map_has _ _); [destruct (Map_get _ _)|]; congruence. }
    destruct (run (runCalls w)); simpl; [|exact Hbegin].
    rewrite memoStore_other; [exact Hbegin|]. congruence. }
  split; [exact Hbag|]. unfold cached. by rewrite Hbag.
Qed.

Lemma withSessionMemo_sessions_isolated_witness :
  let w : memoWorld := MemoWorld {["session-2" := [("webSearch::gdp::{}", 7%nat)]]} 0 in
  let w1 := fst (withSessionMemo (Some "session-1") "webSearch::gdp::{}" (fun _ => inl 9%nat) w) in
  sessionBag "session-2" (memoBySession w1) = [("webSearch::gdp::{}", 7%nat)] /\
  cached (Some "session-2") "webSearch::cpi::{}" (memoBySession w1) = false.
Proof.
  intros w w1.
  apply (withSessionMemo_sessions_isolated nat (Some "session-1") "webSearch::gdp::{}"
           (fun _ => inl 9%nat) w "session-2" "webSearch::cpi::{}").
  discriminate.
Defined.

(* ===================================================================== *)
(** * What the identity helpers extract *)
(* ===================================================================== *)

Section MatcherFacts.
Context {A : Type}.
Variable ci : bool.

Lemma repeatClass_sound (p : ascii -> bool) (s : string) :
  forall (lo : nat) (hi : option nat) (k : string -> option A) (res : A),
    repeatClass ci p lo hi s k = Some res ->
    exists text rest,
      s = text ++ rest /\ (forall cap, denotes ci (RRep p lo hi) text cap cap) /\
      k rest = Some res.
Proof.
  induction s as [|c s IH]; intros lo hi k res H.
  - simpl in H. destruct lo; [|done]. exists "", "". simpl. repeat split; try done.
    destruct hi; [lia|done].
  - simpl in H.
    assert (Hstop : match lo with O => k (String c s) | S _ => None end = Some res ->
                    exists text rest, String c s = text ++ rest /\
                      (forall cap, denotes ci (RRep p lo hi) text cap cap) /\
                      k rest = Some res).
    { destruct lo; [|done]. intros Hk. exists "", (String c s). simpl. repeat split; try done.
      destruct hi; [lia|done]. }
    destruct (match hi with Some O => false | _ => true end && inClass ci p c) eqn:Hmore;
      [|by apply Hstop].
    apply andb_true_iff in Hmore as [Hhi Hc].
    destruct (repeatClass ci p (Nat.pred lo) (option_map Nat.pred hi) s k) as [r|] eqn:Hrec;
      [|by apply Hstop].
    injection H as ->.
    apply IH in Hrec as (text & rest & -> & Hd & Hk).
    destruct (Hd None) as [(Hall & Hlo & Hh) _].
    exists (String c text), rest. simpl. rewrite Hc, Hall. repeat split; try done.
    + lia.
    + destruct hi as [[|h]|]; simpl in *; try done. lia.
Qed.

Lemma matchAt_sound (r : regex) :
  forall (s : string) (cap : option string) (k : string -> option string -> option A) (res : A),
    matchAt ci r s cap k = Some res ->
    exists text rest cap',
      s = text ++ rest /\ denotes ci r text cap cap' /\ k rest cap' = Some res.
Proof.
  induction r as [c|p|r1 IH1 r2 IH2|r1 IH1 r2 IH2|p lo hi|r1 IH1]; intros s cap k res H; simpl in H.
  - destruct s as [|c' rest]; [done|]. destruct (sameChar ci c c') eqn:Hc; [|done].
    exists (String c' ""), rest, cap. simpl. eauto 10.
  - destruct s as [|c' rest]; [done|]. destruct (inClass ci p c') eqn:Hc; [|done].
    exists (String c' ""), rest, cap. simpl. eauto 10.
  - apply IH1 in H as (t1 & rest1 & cap1 & -> & Hd1 & H).
    apply IH2 in H as (t2 & rest2 & cap2 & -> & Hd2 & H).
    exists (t1 ++ t2), rest2, cap2. split; [by rewrite append_assoc|].
    split; [|done]. simpl. eauto 10.
  - destruct (matchAt ci r1 s cap k) as [res1|] eqn:H1.
    + injection H as ->. apply IH1 in H1 as (t & rest & cap' & -> & Hd & Hk).
      exists t, rest, cap'. simpl. eauto.
    + apply IH2 in H as (t & rest & cap' & -> & Hd & Hk).
      exists t, rest, cap'. simpl. eauto.
  - apply repeatClass_sound in H as (t & rest & -> & Hd & Hk).
    exists t, rest, cap. split; [done|]. split; [apply Hd|done].
  - apply IH1 in H as (t & rest & cap' & -> & Hd & Hk).
    exists t, rest, (Some (consumed (t ++ rest) rest)). simpl.
    split; [done|]. split; [|done]. split; [eauto|]. by rewrite consumed_app.
Qed.
End MatcherFacts.

(** A match is a piece of the text that the pattern denotes. *)
Lemma regexMatch_sound (ci : bool) (r : regex) (s : string) :
  forall (m0 : string) (cap : option string),
    regexMatch ci r s = Some (m0, cap) ->
    exists pre rest, s = pre ++ m0 ++ rest /\ denotes ci r m0 None cap.
Proof.
  induction s as [|c s IH]; intros m0 cap H.
  - simpl in H.
    destruct (matchAt ci r "" None _) as [m|] eqn:Hm; [|done].
    injection H as ->.
    apply matchAt_sound in Hm as (text & rest & cap' & Hs & Hd & Hk).
    injection Hk as <- <-. rewrite Hs, consumed_app. exists "", rest. done.
  - simpl in H.
    destruct (matchAt ci r (String c s) None _) as [m|] eqn:Hm.
    + injection H as ->.
      apply matchAt_sound in Hm as (text & rest & cap' & Hs & Hd & Hk).
      injection Hk as <- <-. rewrite Hs, consumed_app. exists "", rest. done.
    + apply IH in H as (pre & rest & -> & Hd). exists (String c pre), rest. done.
Qed.

(** Lower-casing the characters of a class matched under the [i] flag. *)
Lemma forallb_toLowerCase (p q : ascii -> bool) (t : string) :
  (forall c, inClass true p c = true -> q (lowerChar c) = true) ->
  forallb (inClass true p) (list_ascii_of_string t) = true ->
  forallb q (list_ascii_of_string (toLowerCase t)) = true.
Proof.
  intros Hpq. induction t as [|c t IH]; [done|]. simpl.
  intros H. apply andb_true_iff in H as [Hc Ht]. by rewrite (Hpq c Hc), IH.
Qed.

(** A character without case matches only itself, also under the [i] flag. *)
Lemma sameChar_caseless (ci : bool) (c c' : ascii) :
  isUpperAZ c = false -> isLowerAZ c = false -> sameChar ci c c' = true -> c' = c.
Proof.
  intros Hu Hl H. unfold sameChar in H.
  assert (Hc : upperChar c = c) by (unfold upperChar; by rewrite Hl).
  destruct ci.
  - rewrite Hc in H. apply Ascii.eqb_eq in H. subst c.
    unfold upperChar in *. destruct (isLowerAZ c') eqn:Hl'; [|done].
    exfalso. clear Hc Hl.
    destruct c' as [[] [] [] [] [] [] [] []]; vm_compute in Hl', Hu; congruence.
  - by apply Ascii.eqb_eq in H.
Qed.

(** What [extractDoi] returns is a lower-case DOI found in the text: [10.],
    four to nine digits, a slash and at least one character among
    [-._;()/:], letters and digits; and the lower-cased text contains it. *)
Theorem extractDoi_shape :
  forall (s : option string) (d : string),
    extractDoi s = Some d ->
    exists registrant suffix text : string,
      d = "10." ++ registrant ++ "/" ++ suffix /\
      (4 <= String.length registrant <= 9)%nat /\
      forallb isDigit (list_ascii_of_string registrant) = true /\
      suffix <> "" /\
      forallb isDoiSuffixChar (list_ascii_of_string suffix) = true /\
      s = Some text /\
      includes (toLowerCase text) d = true.
Proof.
  intros s d H. unfold extractDoi in H.
  destruct s as [text|]; [|done]. destruct (falsy text); [done|].
  destruct (regexMatch true doiPattern text) as [[m0 cap]|] eqn:Hm; [|done].
  injection H as <-.
  apply regexMatch_sound in Hm as (pre & rest & -> & Hd).
  unfold doiPattern in Hd. cbn [denotes RLit] in Hd.
  destruct Hd as (t1 & t2 & mid & -> & Hlit & Hd).
  destruct Hlit as (a1 & a2 & mid1 & -> & [(c1 & -> & Hc1) _] & Hlit).
  destruct Hlit as (a3 & a4 & mid2 & -> & [(c2 & -> & Hc2) _] & [(c3 & -> & Hc3) _]).
  apply sameChar_caseless in Hc1, Hc2, Hc3; try reflexivity. subst c1 c2 c3.
  destruct Hd as (digits & t3 & mid3 & -> & [(Hdig & Hlo & Hhi) _] & Hd).
  destruct Hd as (t4 & tail & mid4 & -> & [(c4 & -> & Hc4) _] & [(Htail & Hne & _) _]).
  apply sameChar_caseless in Hc4; try reflexivity. subst c4.
  exists (toLowerCase digits), (toLowerCase tail), (pre ++ ("10." ++ digits ++ "/" ++ tail) ++ rest).
  repeat split.
  - cbn -[String.append]. rewrite !toLowerCase_app. reflexivity.
  - by rewrite toLowerCase_length.
  - by rewrite toLowerCase_length.
  - apply (forallb_toLowerCase isDigit); [|done].
    intros c Hc. destruct c as [[] [] [] [] [] [] [] []]; vm_compute in Hc |- *; congruence.
  - intros E. apply (f_equal String.length) in E. rewrite toLowerCase_length in E.
    simpl in E. lia.
  - eapply forallb_toLowerCase; [|exact Htail].
    intros c Hc. destruct c as [[] [] [] [] [] [] [] []]; vm_compute in Hc |- *; congruence.
  - rewrite !toLowerCase_app. apply includes_middle.
Qed.

Lemma extractDoi_shape_witness :
  exists registrant suffix text : string,
    "10.1000/xyz123" = "10." ++ registrant ++ "/" ++ suffix /\
    (4 <= String.length registrant <= 9)%nat /\
    forallb isDigit (list_ascii_of_string registrant) = true /\
    suffix <> "" /\
    forallb isDoiSuffixChar (list_ascii_of_string suffix) = true /\
    Some "https://doi.org/10.1000/XYZ123" = Some text /\
    includes (toLowerCase text) "10.1000/xyz123" = true.
Proof.
  apply (extractDoi_shape (Some "https://doi.org/10.1000/XYZ123") "10.1000/xyz123").
  vm_compute. reflexivity.
Defined.

Lemma lowerChar_upperChar (c : ascii) : lowerChar (upperChar c) = lowerChar c.
Proof. destruct c as [[] [] [] [] [] [] [] []]; reflexivity. Qed.

Lemma sameChar_lowerChar (c c' : ascii) :
  sameChar true c c' = true -> lowerChar c' = lowerChar c.
Proof.
  unfold sameChar. intros H. apply Ascii.eqb_eq in H.
  by rewrite <- (lowerChar_upperChar c'), <- H, lowerChar_upperChar.
Qed.

(** Under the [i] flag a literal matches its spellings in any case. *)
Lemma denotes_RLit (lit : string) :
  forall (t : string) (cap cap' : option string),
    lit <> "" -> denotes true (RLit lit) t cap cap' -> toLowerCase t = toLowerCase lit.
Proof.
  induction lit as [|c lit IH]; intros t cap cap' Hne H; [done|].
  destruct lit as [|d lit].
  - cbn [RLit denotes] in H. destruct H as [(c' & -> & Hc) _].
    simpl. by rewrite (sameChar_lowerChar c c').
  - change (RLit (String c (String d lit))) with (RSeq (RChar c) (RLit (String d lit))) in H.
    cbn [denotes] in H. destruct H as (t1 & t2 & mid & -> & [(c' & -> & Hc) _] & H2).
    pose proof (IH t2 mid cap' ltac:(done) H2) as H3.
    rewrite append_cons. change ("" ++ t2) with t2.
    change (toLowerCase (String c' t2)) with (String (lowerChar c') (toLowerCase t2)).
    rewrite H3, (sameChar_lowerChar c c') by done. reflexivity.
Qed.

(** What [extractArxivId] returns is the identifier as it is written in
    the text: a non-empty run of letters, digits, [_], [.] and [-] that
    follows [arxiv.org/abs/] or [arxiv.org/pdf/], in any case. *)
Theorem extractArxivId_shape :
  forall (url : option string) (id : string),
    extractArxivId url = Some id ->
    id <> "" /\
    forallb isArxivIdChar (list_ascii_of_string id) = true /\
    exists (text pre site rest : string),
      url = Some text /\
      text = pre ++ site ++ id ++ rest /\
      (toLowerCase site = "arxiv.org/abs/" \/ toLowerCase site = "arxiv.org/pdf/").
Proof.
  intros url id H. unfold extractArxivId in H.
  destruct url as [text|]; [|done]. destruct (falsy text); [done|].
  destruct (regexMatch true arxivPattern text) as [[m0 cap]|] eqn:Hm; [|done].
  subst cap.
  apply regexMatch_sound in Hm as (pre & rest & -> & Hd).
  unfold arxivPattern in Hd. cbn [denotes] in Hd.
  destruct Hd as (host & t2 & mid & -> & Hhost & Hd).
  apply denotes_RLit in Hhost; [|discriminate].
  destruct Hd as (kind & t3 & mid2 & -> & Hkind & Hd).
  destruct Hd as (slash & t4 & mid3 & -> & [(c & -> & Hc) _] & Hd).
  apply sameChar_caseless in Hc; try reflexivity. subst c.
  destruct Hd as [(inner & (Hall & Hlen & _) & _) Hcap]. injection Hcap as ->.
  split; [|split].
  - intros ->. simpl in Hlen. lia.
  - clear -Hall. induction t4 as [|c t4 IH]; [done|]. simpl in *.
    apply andb_true_iff in Hall as [Hc Hall]. rewrite (IH Hall), andb_true_r.
    clear -Hc. destruct c as [[] [] [] [] [] [] [] []]; vm_compute in Hc |- *; congruence.
  - exists (pre ++ (host ++ kind ++ "/" ++ t4) ++ rest), pre, (host ++ kind ++ "/"), rest.
    split; [done|]. split.
    + by rewrite !append_assoc.
    + rewrite !toLowerCase_app, Hhost.
      destruct Hkind as [Hk|Hk]; apply denotes_RLit in Hk; try discriminate; rewrite Hk; auto.
Qed.

Lemma extractArxivId_shape_witness :
  "2301.00001v2" <> "" /\
  forallb isArxivIdChar (list_ascii_of_string "2301.00001v2") = true /\
  exists (text pre site rest : string),
    Some "https://arXiv.org/PDF/2301.00001v2?download=1" = Some text /\
    text = pre ++ site ++ "2301.00001v2" ++ rest /\
    (toLowerCase site = "arxiv.org/abs/" \/ toLowerCase site = "arxiv.org/pdf/").
Proof.
  apply (extractArxivId_shape (Some "https://arXiv.org/PDF/2301.00001v2?download=1")
           "2301.00001v2").
  vm_compute. reflexivity.
Defined.

(* ===================================================================== *)
(** * Properties of the helpers of the code execution tool *)
(* ===================================================================== *)

(** Without the [i] flag a literal matches itself only. *)
Lemma matchAt_RLit {A : Type} (lit : string) :
  forall (s : string) (cap : option string) (k : string -> option string -> option A),
    lit <> "" -> matchAt false (RLit lit) (lit ++ s) cap k = k s cap.
Proof.
  induction lit as [|c lit IH]; intros s cap k Hne; [done|].
  destruct lit as [|d lit].
  - rewrite append_cons. cbn [RLit matchAt]. unfold sameChar. by rewrite Ascii.eqb_refl.
  - change (RLit (String c (String d lit))) with (RSeq (RChar c) (RLit (String d lit))).
    rewrite append_cons. cbn [matchAt]. unfold sameChar at 1. rewrite Ascii.eqb_refl.
    by apply IH.
Qed.

(** A greedy class stops at the first character outside it, when the rest
    of the pattern matches from there. *)
Lemma repeatClass_run {A : Type} (p : ascii -> bool) (run : string) :
  forall (lo : nat) (stop : ascii) (rest : string) (k : string -> option A) (res : A),
    forallb p (list_ascii_of_string run) = true ->
    p stop = false ->
    (lo <= String.length run)%nat ->
    k (String stop rest) = Some res ->
    repeatClass false p lo None (run ++ String stop rest) k = Some res.
Proof.
  induction run as [|c run IH]; intros lo stop rest k res Hall Hstop Hlo Hk.
  - change ("" ++ String stop rest) with (String stop rest). simpl in Hlo.
    assert (lo = 0%nat) as -> by lia. cbn [repeatClass]. unfold inClass.
    by rewrite Hstop.
  - rewrite append_cons. simpl in Hall. apply andb_true_iff in Hall as [Hc Hall].
    cbn [repeatClass]. unfold inClass at 1. rewrite Hc. cbn [andb option_map].
    rewrite (IH (Nat.pred lo) stop rest k res); try done. simpl in Hlo. lia.
Qed.

(** No match starts at a character that is not the first of the pattern. *)
Lemma regexMatch_skip (r : regex) (first : ascii) (pre : string) :
  (forall (s : string) (c : ascii),
      c <> first -> matchAt false r (String c s) None
                      (fun rest cap => Some (consumed (String c s) rest, cap)) = None) ->
  forall s : string,
    forallb (fun c => negb (Ascii.eqb c first)) (list_ascii_of_string pre) = true ->
    regexMatch false r (pre ++ String first s) = regexMatch false r (String first s).
Proof.
  intros Hr s. induction pre as [|c pre IH]; intros Hpre; [done|].
  simpl in Hpre. apply andb_true_iff in Hpre as [Hc Hpre].
  rewrite append_cons. cbn [regexMatch]. rewrite Hr.
  - by apply IH.
  - intros ->. by rewrite Ascii.eqb_refl in Hc.
Qed.

(** The module name comes back from the message Python prints for a
    missing module, whatever precedes the message (as long as it has no
    capital M) and whatever follows the closing quote. *)
Theorem extractMissingModuleName_round_trip :
  forall (pre name tail : string) (q1 q2 : ascii),
    forallb (fun c => negb (Ascii.eqb c "M")) (list_ascii_of_string pre) = true ->
    name <> "" ->
    forallb (fun c => negb (isQuote c)) (list_ascii_of_string name) = true ->
    isQuote q1 = true ->
    isQuote q2 = true ->
    extractMissingModuleName
      (Some (pre ++ "ModuleNotFoundError: No module named " ++
             String q1 (name ++ String q2 tail))) = Some name.
Proof.
  intros pre name tail q1 q2 Hpre Hname Hchars Hq1 Hq2.
  unfold extractMissingModuleName.
  assert (Hf : falsy (pre ++ "ModuleNotFoundError: No module named " ++
                      String q1 (name ++ String q2 tail)) = false).
  { apply falsy_false. intros E. apply (f_equal String.length) in E.
    rewrite !length_append in E. simpl in E. lia. }
  rewrite Hf.
  change ("ModuleNotFoundError: No module named " ++ String q1 (name ++ String q2 tail))
    with (String "M" ("oduleNotFoundError: No module named " ++
                      String q1 (name ++ String q2 tail))).
  rewrite (regexMatch_skip missingModulePattern "M" pre); [|clear|exact Hpre].
  2:{ intros s c Hc. unfold missingModulePattern. cbn [RLit matchAt]. unfold sameChar at 1.
      apply Ascii.eqb_neq in Hc. rewrite Ascii.eqb_sym. by rewrite Hc. }
  change (String "M" ("oduleNotFoundError: No module named " ++
                      String q1 (name ++ String q2 tail)))
    with ("ModuleNotFoundError: No module named " ++ String q1 (name ++ String q2 tail)).
  set (text := "ModuleNotFoundError: No module named " ++ String q1 (name ++ String q2 tail)).
  assert (Hm : matchAt false missingModulePattern text None
                 (fun rest cap => Some (consumed text rest, cap)) =
               Some (consumed text tail, Some name)).
  { unfold missingModulePattern, text. cbn [matchAt].
    rewrite matchAt_RLit by discriminate.
    unfold inClass at 1. rewrite Hq1.
    erewrite repeatClass_run; [reflexivity|exact Hchars|by rewrite Hq2| |].
    - destruct name; [done|]. simpl. lia.
    - unfold inClass. rewrite Hq2. by rewrite consumed_app. }
  destruct text as [|c text'] eqn:Htext.
  { cbn [regexMatch]. by rewrite Hm. }
  cbn [regexMatch]. by rewrite Hm.
Qed.

Lemma extractMissingModuleName_round_trip_witness :
  extractMissingModuleName
    (Some ("Traceback (most recent call last):" ++
           "ModuleNotFoundError: No module named " ++
           String "'" ("scipy" ++ String "'" ""))) = Some "scipy".
Proof.
  apply (extractMissingModuleName_round_trip "Traceback (most recent call last):" "scipy" ""
           "'" "'"); try reflexivity.
  discriminate.
Defined.

(** What [extractMissingModuleName] returns is never empty, holds no
    quote, and stands in the message between two quotes right after
    [ModuleNotFoundError: No module named ]. *)
Theorem extractMissingModuleName_shape :
  forall (message : option string) (name : string),
    extractMissingModuleName message = Some name ->
    name <> "" /\
    forallb (fun c => negb (isQuote c)) (list_ascii_of_string name) = true /\
    exists (text pre rest : string) (q1 q2 : ascii),
      message = Some text /\
      isQuote q1 = true /\ isQuote q2 = true /\
      text = pre ++ "ModuleNotFoundError: No module named " ++
             String q1 (name ++ String q2 rest).
Proof.
  intros message name H. unfold extractMissingModuleName in H.
  destruct message as [text|]; [|done]. destruct (falsy text); [done|].
  destruct (regexMatch false missingModulePattern text) as [[m0 cap]|] eqn:Hm; [|done].
  subst cap.
  apply regexMatch_sound in Hm as (pre & rest & -> & Hd).
  unfold missingModulePattern in Hd. cbn [denotes] in Hd.
  destruct Hd as (lit & t2 & mid & -> & Hlit & Hd).
  destruct Hd as (o & t3 & mid2 & -> & [(q1 & -> & Hq1) _] & Hd).
  destruct Hd as (grp & t4 & mid3 & -> & [(inner & (Hall & Hlen & _) & _) Hcap] & Hd).
  destruct Hd as [(q2 & -> & Hq2) Hlast].
  rewrite Hcap in Hlast. injection Hlast as ->.
  split; [|split].
  - intros ->. simpl in Hlen. lia.
  - exact Hall.
  - exists (pre ++ (lit ++ String q1 "" ++ grp ++ String q2 "") ++ rest), pre, rest, q1, q2.
    split; [done|]. split; [exact Hq1|]. split; [exact Hq2|].
    assert (Hl : lit = "ModuleNotFoundError: No module named ").
    { clear -Hlit.
      repeat (cbn [RLit denotes] in Hlit;
              match type of Hlit with
              | exists _, _ =>
                  let c := fresh "c" in let Hc := fresh "Hc" in let t := fresh "t" in
                  destruct Hlit as (? & t & ? & -> & [(c & -> & Hc) _] & Hlit);
                  apply Ascii.eqb_eq in Hc; subst c
              end).
      destruct Hlit as [(c & -> & Hc) _]. apply Ascii.eqb_eq in Hc. by subst c. }
    rewrite Hl. rewrite !append_assoc. reflexivity.
Qed.

Lemma extractMissingModuleName_shape_witness :
  "pandas" <> "" /\
  forallb (fun c => negb (isQuote c)) (list_ascii_of_string "pandas") = true /\
  exists (text pre rest : string) (q1 q2 : ascii),
    Some "ModuleNotFoundError: No module named 'pandas'" = Some text /\
    isQuote q1 = true /\ isQuote q2 = true /\
    text = pre ++ "ModuleNotFoundError: No module named " ++
           String q1 ("pandas" ++ String q2 rest).
Proof.
  apply (extractMissingModuleName_shape
           (Some "ModuleNotFoundError: No module named 'pandas'") "pandas").
  vm_compute. reflexivity.
Defined.

(** Every occurrence is replaced, also where two touch; what is left of a
    broken tag stays. *)
Example escapeModuleTag_examples :
  escapeModuleTag (Some "File <module>, in <module><module>") =
  "File &lt;module&gt;, in &lt;module&gt;&lt;module&gt;" /\
  escapeModuleTag (Some "<<module>> and <modul<module>e>") =
  "<&lt;module&gt;> and <modul&lt;module&gt;e>" /\
  escapeModuleTag None = "" /\
  escapeModuleTag (Some "") = "".
Proof. repeat split; vm_compute; reflexivity. Qed.

Section ReplaceFacts.
Variables (needle replacement : string).

(** Where the needle does not occur nothing is replaced. *)
Lemma replaceAll_absent (s : string) :
  needle <> "" -> includes s needle = false -> replaceAll needle replacement s = s.
Proof.
  intros Hne. unfold replaceAll. induction s as [|c s IH]; intros H; [done|].
  cbn [includes] in H. apply orb_false_iff in H as [Hp Hrest].
  cbn [replaceFrom]. rewrite Hp. by rewrite IH.
Qed.
End ReplaceFacts.

(** A text that the replaced output starts with, and that has no
    ampersand, is a text the input starts with at the same place. *)
Lemma prefix_replaceFrom (p : string) :
  forall s : string,
    forallb (fun c => negb (Ascii.eqb c "&")) (list_ascii_of_string p) = true ->
    String.prefix p (replaceFrom "<module>" "&lt;module&gt;" 0 s) = true ->
    String.prefix p s = true.
Proof.
  induction p as [|x p IH]; intros s Hp H; [by destruct s|].
  simpl in Hp. apply andb_true_iff in Hp as [Hx Hp].
  destruct s as [|c s]; [done|].
  cbn [replaceFrom] in H.
  destruct (String.prefix "<module>" (String c s)) eqn:Hm.
  - exfalso. rewrite append_cons in H. cbn [String.prefix] in H.
    destruct (ascii_dec x "&") as [->|]; [done|done].
  - cbn [String.prefix] in H |- *. destruct (ascii_dec x c); [|done]. by apply IH.
Qed.

Lemma replaceFrom_no_module_tag (s : string) :
  forall skip : nat,
    includes (replaceFrom "<module>" "&lt;module&gt;" skip s) "<module>" = false.
Proof.
  induction s as [|c s IH]; intros skip; [done|].
  cbn [replaceFrom]. destruct skip as [|skip]; [|apply IH].
  destruct (String.prefix "<module>" (String c s)) eqn:Hm.
  - set (out := replaceFrom _ _ _ s). specialize (IH (String.length "<module>" - 1)%nat).
    fold out in IH. clearbody out.
    change ("&lt;module&gt;" ++ out)
      with (String "&" (String "l" (String "t" (String ";" (String "m" (String "o"
             (String "d" (String "u" (String "l" (String "e" (String "&" (String "g"
             (String "t" (String ";" out)))))))))))))).
    cbn [includes String.prefix]. 
    repeat match goal with |- context [ascii_dec ?a ?b] => destruct (ascii_dec a b); [discriminate|] end.
    exact IH.
  - cbn [includes]. rewrite IH, orb_false_r.
    destruct (String.prefix "<module>" (String c (replaceFrom "<module>" "&lt;module&gt;" 0 s)))
      eqn:Hout; [|done].
    cbn [String.prefix] in Hm, Hout.
    destruct (ascii_dec "<" c); [|done].
    apply prefix_replaceFrom in Hout; [congruence|reflexivity].
Qed.

(** The output of [escapeModuleTag] never holds the text [<module>]; a
    text without it comes back unchanged, so escaping twice is escaping
    once; [null], [undefined] and the empty string give the empty string. *)
Theorem escapeModuleTag_leaves_no_module_tag :
  forall text : option string,
    includes (escapeModuleTag text) "<module>" = false /\
    (forall t, text = Some t -> includes t "<module>" = false -> escapeModuleTag text = t) /\
    escapeModuleTag (Some (escapeModuleTag text)) = escapeModuleTag text.
Proof.
  intros text.
  assert (H1 : includes (escapeModuleTag text) "<module>" = false).
  { unfold escapeModuleTag. destruct text as [t|]; [|done].
    destruct (falsy t); [done|]. apply replaceFrom_no_module_tag. }
  assert (H2 : forall t, includes t "<module>" = false -> escapeModuleTag (Some t) = t).
  { intros t Ht. unfold escapeModuleTag. destruct (falsy t) eqn:Hf.
    - by apply falsy_true in Hf.
    - by apply replaceAll_absent. }
  split; [exact H1|]. split.
  - intros t -> Ht. by apply H2.
  - by apply H2.
Qed.

(* ===================================================================== *)
(** * Properties of the conversation truncation *)
(* ===================================================================== *)

(** A conversation of a message of 801 characters and one of 20, cut to
    150 tokens: the last message stays, and the first is cut to the 145
    tokens left, that is to 480 characters and the marker, estimated at
    124 tokens. *)
Example truncateConversationHistory_example :
  let long : Conversation.message unit :=
    Conversation.Message None
      (Some (Conversation.ContentString (String.concat "" (repeat "GDP rose." 89))))
      None tt in
  let short : Conversation.message unit :=
    Conversation.Message (Some [Conversation.Part "text" (Some "And what about 2024?") tt;
                                Conversation.Part "file" None tt])
                         None None tt in
  let result := Conversation.truncateConversationHistory [Some long; Some short] 150 in
  Conversation.calculateConversationTokens [Some long; Some short] = 206%Z /\
  length result = 2%nat /\
  List.last result None = Some short /\
  Conversation.calculateConversationTokens result = 129%Z /\
  option_map (fun m => String.length (Conversation.messageText m)) (List.hd None result) =
  Some 495%nat.
Proof. vm_compute. repeat split. Qed.

Section ConversationFacts.
Import Conversation.
Context {Other : Type}.
Implicit Types (m : message Other) (ps : list (part Other)) (om : option (message Other)).
Implicit Types (messages older acc : list (option (message Other))).

Lemma estimateTokenCount_nonneg om : (0 <= estimateTokenCount om)%Z.
Proof. destruct om as [m|]; simpl; [|lia]. apply Z.div_pos; lia. Qed.

Lemma tokens_from (messages : list (option (message Other))) :
  forall total : Z,
    fold_left (fun total om => total + estimateTokenCount om)%Z messages total =
    (total + calculateConversationTokens messages)%Z.
Proof.
  unfold calculateConversationTokens.
  induction messages as [|om messages IH]; intros total; simpl; [lia|].
  rewrite (IH (total + estimateTokenCount om)%Z), (IH (0 + estimateTokenCount om)%Z). lia.
Qed.

Lemma calculateConversationTokens_cons om messages :
  calculateConversationTokens (om :: messages) =
  (estimateTokenCount om + calculateConversationTokens messages)%Z.
Proof. unfold calculateConversationTokens at 1. simpl. by rewrite tokens_from. Qed.

Lemma calculateConversationTokens_app messages1 messages2 :
  calculateConversationTokens (messages1 ++ messages2) =
  (calculateConversationTokens messages1 + calculateConversationTokens messages2)%Z.
Proof.
  unfold calculateConversationTokens at 1. rewrite fold_left_app, !tokens_from. lia.
Qed.

Lemma calculateConversationTokens_nonneg messages :
  (0 <= calculateConversationTokens messages)%Z.
Proof.
  induction messages as [|om messages IH]; [done|].
  rewrite calculateConversationTokens_cons. pose proof (estimateTokenCount_nonneg om). lia.
Qed.

(** Every text part of the copy holds the truncated text. *)
Lemma joinText_retext (t : string) ps :
  joinText (map (retext t) ps) = join " " (repeat t (length (List.filter isTextPart ps))).
Proof.
  unfold joinText. f_equal.
  induction ps as [|p ps IH]; [done|]. simpl.
  unfold retext at 1. destruct (isTextPart p) eqn:Hp; simpl.
  - unfold isTextPart at 1. simpl. fold (isTextPart p). rewrite Hp. simpl.
    rewrite IH. f_equal. unfold retext. rewrite Hp. unfold orElse. simpl.
    destruct (falsy t) eqn:Hf; [apply falsy_true in Hf; by subst|done].
  - rewrite Hp. exact IH.
Qed.

Lemma truncatedText_length (text0 : string) (maxTokens : Z) :
  (50 <= maxTokens)%Z ->
  (maxTokens * 4 < Z.of_nat (String.length text0))%Z ->
  String.length (String.substring 0 (Z.to_nat (maxTokens * 4 - 100)) text0 ++ "... [truncated]") =
  Z.to_nat (maxTokens * 4 - 85).
Proof.
  intros Hmin Hlong. rewrite length_append, substring_length by lia. simpl. lia.
Qed.

Lemma falsy_long (s : string) : (0 < String.length s)%nat -> falsy s = false.
Proof. intros H. apply falsy_false. intros ->. simpl in H. lia. Qed.

(** What [truncateMessageContent] does to a message whose text is longer
    than the limit allows. *)
Lemma truncateMessageContent_long m (maxTokens : Z) :
  (50 <= maxTokens)%Z ->
  (maxTokens * 4 < Z.of_nat (String.length (messageText m)))%Z ->
  let truncatedText :=
    String.substring 0 (Z.to_nat (maxTokens * 4 - 100)) (messageText m) ++ "... [truncated]" in
  exists m',
    truncateMessageContent (Some m) maxTokens = Some m' /\
    messageText m' = join " " (repeat truncatedText (textSources m)).
Proof.
  intros Hmin Hlong truncatedText.
  assert (Hlen : String.length truncatedText = Z.to_nat (maxTokens * 4 - 85))
    by (by apply truncatedText_length).
  assert (Ht : falsy truncatedText = false) by (apply falsy_long; lia).
  assert (Hf : falsy (messageText m) = false) by (apply falsy_long; lia).
  unfold truncateMessageContent.
  assert (H50 : (maxTokens <? 50)%Z = false) by lia. rewrite H50, Hf.
  assert (Hover : (Z.of_nat (String.length (messageText m)) <=? maxTokens * 4)%Z = false) by lia.
  rewrite Hover. cbv zeta. fold truncatedText.
  eexists. split; [reflexivity|].
  assert (Hinto : parts m = None ->
                  orElse (text m) "" = messageText m ->
                  match content m with
                  | Some (ContentString s) => falsy s = true
                  | Some (ContentParts _) => False
                  | None => True
                  end ->
                  messageText
                    match text m with
                    | Some t => if falsy t then m
                                else Message (parts m) (content m) (Some truncatedText)
                                             (messageOther m)
                    | None => m
                    end = truncatedText).
  { intros Hparts Htext Hcontent. unfold orElse in Htext.
    destruct (text m) as [t|] eqn:Et.
    - destruct (falsy t) eqn:Eft.
      + rewrite <- Htext in Hf. done.
      + unfold messageText. simpl. rewrite Hparts.
        destruct (content m) as [[s|ps]|]; try done.
        * by rewrite Hcontent, Ht.
        * by rewrite Ht.
    - rewrite <- Htext in Hf. done. }
  unfold textSources. destruct (parts m) as [ps|] eqn:Hparts.
  - unfold messageText. simpl. apply joinText_retext.
  - destruct (content m) as [[s|ps]|] eqn:Hcontent.
    + destruct (falsy s) eqn:Hs.
      * rewrite Hinto; try done. unfold messageText. by rewrite ?Hparts, ?Hcontent, ?Hs.
      * unfold messageText. simpl. rewrite ?Hparts. by rewrite Ht.
    + unfold messageText. simpl. rewrite ?Hparts. apply joinText_retext.
    + rewrite Hinto; try done. unfold messageText. by rewrite ?Hparts, ?Hcontent.
Qed.

(** The estimate of the truncated copy of a message with one source of
    text. *)
Lemma truncateMessageContent_estimate m (maxTokens : Z) :
  (50 <= maxTokens)%Z ->
  (maxTokens * 4 < Z.of_nat (String.length (messageText m)))%Z ->
  (textSources m <= 1)%nat ->
  exists m',
    truncateMessageContent (Some m) maxTokens = Some m' /\
    estimateTokenCount (Some m') = (maxTokens - 21)%Z.
Proof.
  intros Hmin Hlong Hone.
  destruct (truncateMessageContent_long m maxTokens Hmin Hlong) as (m' & Hm' & Htext).
  exists m'. split; [exact Hm'|].
  assert (Hk : textSources m = 1%nat).
  { destruct (textSources m) as [|[|k]] eqn:Hk; [|done|lia].
    exfalso. unfold textSources in Hk. unfold messageText, joinText in Hlong.
    destruct (parts m) as [ps|].
    - apply length_zero_iff_nil in Hk. rewrite Hk in Hlong. simpl in Hlong. lia.
    - destruct (content m) as [[s|ps]|]; try done.
      apply length_zero_iff_nil in Hk. rewrite Hk in Hlong. simpl in Hlong. lia. }
  rewrite Hk in Htext. simpl in Htext.
  unfold estimateTokenCount. rewrite Htext.
  change (join " " [?t]) with t.
  rewrite truncatedText_length by done.
  rewrite Z2Nat.id by lia.
  replace (maxTokens * 4 - 85 + 3)%Z with ((maxTokens - 21) * 4 + 2)%Z by lia.
  rewrite Z.div_add_l by lia. change (2 / 4)%Z with 0%Z. lia.
Qed.

(** What the loop returns: the messages it went through before stopping,
    in conversation order, in front of what it started with, and before
    them at most one truncated copy of the message it stopped at. *)
Lemma keepRecent_shape (maxTokens : Z) older :
  forall (currentTokens : Z) acc,
    exists dropped kept head : list (option (message Other)),
      rev older = (dropped ++ kept)%list /\
      keepRecent maxTokens older currentTokens acc = (head ++ kept ++ acc)%list /\
      (head = [] \/
       exists before om truncated budget,
         dropped = (before ++ [om])%list /\
         truncateMessageContent om budget = Some truncated /\
         head = [Some truncated]).
Proof.
  induction older as [|om older IH]; intros currentTokens acc.
  - exists [], [], []. simpl. auto.
  - cbn [keepRecent].
    destruct (currentTokens + estimateTokenCount om >? maxTokens)%Z.
    + destruct (maxTokens - currentTokens >? 100)%Z;
        [destruct (truncateMessageContent om (maxTokens - currentTokens)) as [tm|] eqn:Htm|].
      * exists (rev (om :: older)), [], [Some tm]. rewrite app_nil_r. simpl.
        split; [done|]. split; [done|]. right. by exists (rev older), om, tm, (maxTokens - currentTokens)%Z.
      * exists (rev (om :: older)), [], []. rewrite app_nil_r. simpl. auto.
      * exists (rev (om :: older)), [], []. rewrite app_nil_r. simpl. auto.
    + destruct (IH (currentTokens + estimateTokenCount om)%Z (om :: acc))
        as (dropped & kept & head & Hrev & Hres & Hhead).
      exists dropped, (kept ++ [om])%list, head. simpl.
      split; [by rewrite Hrev, app_assoc|]. split; [|exact Hhead].
      rewrite Hres, <- !app_assoc. reflexivity.
Qed.

Lemma keepRecent_budget (maxTokens : Z) older :
  forall (currentTokens : Z) acc,
    currentTokens = calculateConversationTokens acc ->
    (currentTokens <= maxTokens)%Z ->
    Forall (fun om => singleText om = true) older ->
    (calculateConversationTokens (keepRecent maxTokens older currentTokens acc) <= maxTokens)%Z.
Proof.
  induction older as [|om older IH]; intros currentTokens acc Hcur Hle Hsingle.
  - simpl. lia.
  - apply Forall_cons in Hsingle as [Hom Hsingle]. cbn [keepRecent].
    destruct (currentTokens + estimateTokenCount om >? maxTokens)%Z eqn:Hover.
    + destruct (maxTokens - currentTokens >? 100)%Z eqn:Hroom; [|lia].
      destruct om as [m|]; [|simpl; lia].
      assert (Hlong : ((maxTokens - currentTokens) * 4 <
                       Z.of_nat (String.length (messageText m)))%Z).
      { simpl in Hover.
        pose proof (Z.mul_div_le (Z.of_nat (String.length (messageText m)) + 3) 4 ltac:(lia)).
        lia. }
      destruct (truncateMessageContent_estimate m (maxTokens - currentTokens)%Z)
        as (m' & Hm' & Hest); [lia|exact Hlong|simpl in Hom; by apply Nat.leb_le|].
      rewrite Hm', calculateConversationTokens_cons, Hest. lia.
    + apply IH; [|lia|exact Hsingle].
      rewrite calculateConversationTokens_cons. lia.
Qed.

Lemma keepRecent_over (maxTokens : Z) older (currentTokens : Z) acc :
  (maxTokens < currentTokens)%Z -> keepRecent maxTokens older currentTokens acc = acc.
Proof.
  intros Hover. destruct older as [|om older]; [done|]. cbn [keepRecent].
  pose proof (estimateTokenCount_nonneg om).
  assert (H1 : (currentTokens + estimateTokenCount om >? maxTokens)%Z = true) by lia.
  assert (H2 : (maxTokens - currentTokens >? 100)%Z = false) by lia.
  by rewrite H1, H2.
Qed.
End ConversationFacts.

(** [truncateConversationHistory] always returns the end of the
    conversation: the last message, before it the messages it keeps whole,
    which are the ones that directly precede it, and in front at most one
    truncated copy of the message before those. *)
Theorem truncateConversationHistory_keeps_recent :
  forall (Other : Type) (earlier : list (option (Conversation.message Other)))
         (lastMessage : Conversation.message Other) (maxTokens : Z),
    exists dropped kept head : list (option (Conversation.message Other)),
      earlier = (dropped ++ kept)%list /\
      Conversation.truncateConversationHistory (earlier ++ [Some lastMessage]) maxTokens =
      (head ++ kept ++ [Some lastMessage])%list /\
      (head = [] \/
       exists before om truncated budget,
         dropped = (before ++ [om])%list /\
         Conversation.truncateMessageContent om budget = Some truncated /\
         head = [Some truncated]).
Proof.
  intros Other earlier lastMessage maxTokens.
  unfold Conversation.truncateConversationHistory.
  rewrite rev_app_distr. simpl.
  destruct (Conversation.calculateConversationTokens (earlier ++ [Some lastMessage]) <=? maxTokens)%Z.
  - exists [], earlier, []. simpl. auto.
  - destruct (keepRecent_shape maxTokens (rev earlier)
                (Conversation.estimateTokenCount (Some lastMessage)) [Some lastMessage])
      as (dropped & kept & head & Hrev & Hres & Hhead).
    rewrite rev_involutive in Hrev.
    exists dropped, kept, head. done.
Qed.

(** When the last message alone is estimated above the limit, the result
    is that message alone, which is still above the limit. *)
Theorem truncateConversationHistory_last_message_over_limit :
  forall (Other : Type) (earlier : list (option (Conversation.message Other)))
         (lastMessage : Conversation.message Other) (maxTokens : Z),
    (maxTokens < Conversation.estimateTokenCount (Some lastMessage))%Z ->
    Conversation.truncateConversationHistory (earlier ++ [Some lastMessage]) maxTokens =
    [Some lastMessage] /\
    (maxTokens < Conversation.calculateConversationTokens
                   (Conversation.truncateConversationHistory
                      (earlier ++ [Some lastMessage]) maxTokens))%Z.
Proof.
  intros Other earlier lastMessage maxTokens Hover.
  assert (H : Conversation.truncateConversationHistory (earlier ++ [Some lastMessage]) maxTokens =
              [Some lastMessage]).
  { unfold Conversation.truncateConversationHistory.
    rewrite rev_app_distr. simpl rev. cbn [app].
    rewrite calculateConversationTokens_app.
    pose proof (calculateConversationTokens_nonneg earlier).
    rewrite calculateConversationTokens_cons.
    change (Conversation.calculateConversationTokens []) with 0%Z.
    destruct (_ <=? maxTokens)%Z eqn:Hle; [lia|].
    by apply keepRecent_over. }
  rewrite H. split; [done|].
  rewrite calculateConversationTokens_cons.
  change (Conversation.calculateConversationTokens []) with 0%Z. lia.
Qed.

(** When no message has more than one text part and the last message is
    estimated within the limit, so is what [truncateConversationHistory]
    returns. *)
Theorem truncateConversationHistory_within_budget :
  forall (Other : Type) (messages : list (option (Conversation.message Other)))
         (maxTokens : Z),
    Forall (fun om => Conversation.singleText om = true) messages ->
    (Conversation.estimateTokenCount (List.last messages None) <= maxTokens)%Z ->
    (Conversation.calculateConversationTokens
       (Conversation.truncateConversationHistory messages maxTokens) <= maxTokens)%Z.
Proof.
  intros Other messages maxTokens Hsingle Hlast.
  unfold Conversation.truncateConversationHistory.
  destruct (rev messages) as [|lastMessage older] eqn:Hrev.
  - apply (f_equal (@rev _)) in Hrev. rewrite rev_involutive in Hrev. subst messages.
    simpl in *. done.
  - destruct (_ <=? maxTokens)%Z eqn:Hle; [lia|].
    apply (f_equal (@rev _)) in Hrev. rewrite rev_involutive in Hrev. simpl in Hrev.
    subst messages. rewrite List.last_last in Hlast.
    apply Forall_app in Hsingle as [Hsingle _].
    assert (Holder : Forall (fun om => Conversation.singleText om = true) older).
    { apply Forall_forall. intros om Hom. rewrite Forall_forall in Hsingle.
      apply Hsingle. apply list_elem_of_In, in_rev. rewrite rev_involutive.
      by apply list_elem_of_In. }
    destruct lastMessage as [m|].
    + apply keepRecent_budget; [|exact Hlast|exact Holder].
      rewrite calculateConversationTokens_cons.
      change (Conversation.calculateConversationTokens []) with 0%Z. lia.
    + apply keepRecent_budget; [done|exact Hlast|exact Holder].
Qed.

(** [truncateMessageContent] gives [null] for a limit under 50 tokens and
    the message itself when its text has at most four characters per
    token of the limit. A longer text is cut to the first
    [4 * maxTokens - 100] characters followed by [... [truncated]], and
    every text part of the copy receives that whole text: a message with
    [k] text parts comes out with [k] copies of it. *)
Theorem truncateMessageContent_copies_truncated_text :
  forall (Other : Type) (m : Conversation.message Other) (maxTokens : Z),
    let text0 := Conversation.messageText m in
    let truncatedText :=
      String.substring 0 (Z.to_nat (maxTokens * 4 - 100)) text0 ++ "... [truncated]" in
    ((maxTokens < 50)%Z -> Conversation.truncateMessageContent (Some m) maxTokens = None) /\
    ((50 <= maxTokens)%Z -> (Z.of_nat (String.length text0) <= maxTokens * 4)%Z ->
     Conversation.truncateMessageContent (Some m) maxTokens = Some m) /\
    ((50 <= maxTokens)%Z -> (maxTokens * 4 < Z.of_nat (String.length text0))%Z ->
     exists m',
       Conversation.truncateMessageContent (Some m) maxTokens = Some m' /\
       Conversation.messageText m' =
       join " " (repeat truncatedText (Conversation.textSources m)) /\
       String.length truncatedText = Z.to_nat (maxTokens * 4 - 85)).
Proof.
  intros Other m maxTokens text0 truncatedText. split; [|split].
  - intros Hsmall. unfold Conversation.truncateMessageContent.
    assert (H : (maxTokens <? 50)%Z = true) by lia. by rewrite H.
  - intros Hmin Hfits. unfold Conversation.truncateMessageContent.
    assert (H : (maxTokens <? 50)%Z = false) by lia. rewrite H.
    destruct (falsy (Conversation.messageText m)); [done|].
    fold text0. assert (H' : (Z.of_nat (String.length text0) <=? maxTokens * 4)%Z = true) by lia.
    by rewrite H'.
  - intros Hmin Hlong.
    destruct (truncateMessageContent_long m maxTokens Hmin Hlong) as (m' & Hm' & Htext).
    exists m'. split; [exact Hm'|]. split; [exact Htext|].
    by apply truncatedText_length.
Qed.

Lemma truncateConversationHistory_last_message_over_limit_witness :
  let m1 : Conversation.message unit :=
    Conversation.Message None (Some (Conversation.ContentString "What is the GDP of France?"))
                         None tt in
  let m2 : Conversation.message unit :=
    Conversation.Message None (Some (Conversation.ContentString "Compare it with Germany, please."))
                         None tt in
  Conversation.truncateConversationHistory [Some m1; Some m2] 5 = [Some m2].
Proof.
  intros m1 m2.
  apply (truncateConversationHistory_last_message_over_limit unit [Some m1] m2 5%Z).
  vm_compute. reflexivity.
Defined.

Lemma truncateConversationHistory_within_budget_witness :
  let m1 : Conversation.message unit :=
    Conversation.Message None (Some (Conversation.ContentString "What is the GDP of France?"))
                         None tt in
  let m2 : Conversation.message unit :=
    Conversation.Message (Some [Conversation.Part "text" (Some "And of Germany?") tt])
                         None None tt in
  (Conversation.calculateConversationTokens
     (Conversation.truncateConversationHistory [Some m1; Some m2] 6) <= 6)%Z.
Proof.
  intros m1 m2.
  apply (truncateConversationHistory_within_budget unit [Some m1; Some m2] 6%Z).
  - repeat constructor.
  - vm_compute. discriminate.
Defined.

(* ===================================================================== *)
(** * Properties of [parseApiContent] *)
(* ===================================================================== *)

(** A text in single quotes loses them, an escaped line feed becomes one,
    a JSON text is parsed, and the passes stop at [maxDepth]. *)
Example parseApiContent_examples :
  parseApiContent parseLiteral (Str " 'GDP' ") 4 = Str "GDP" /\
  parseApiContent parseLiteral (Str (String backslash "n")) 4 = Str "" /\
  parseApiContent parseLiteral (Str " null ") 4 = Null /\
  parseApiContent parseLiteral (Str "''''GDP''''") 2 = Str "''GDP''" /\
  parseApiContent parseLiteral (Bool true) 4 = Bool true.
Proof. repeat split; vm_compute; reflexivity. Qed.

Lemma includes_char_false (s : string) (c : ascii) (rest : string) :
  forallb (fun x => negb (Ascii.eqb x c)) (list_ascii_of_string s) = true ->
  includes s (String c rest) = false.
Proof.
  induction s as [|x s IH]; intros H; [done|].
  simpl in H. apply andb_true_iff in H as [Hx Hs].
  cbn [includes String.prefix]. rewrite (IH Hs), orb_false_r.
  destruct (ascii_dec c x) as [->|]; [|done]. by rewrite Ascii.eqb_refl in Hx.
Qed.

Lemma unescape_no_backslash (s : string) :
  forallb (fun x => negb (Ascii.eqb x backslash)) (list_ascii_of_string s) = true ->
  unescape s = s.
Proof.
  intros H. unfold unescape. cbv zeta.
  do 4 (rewrite (replaceAll_absent _ _ s); [|discriminate|by apply includes_char_false]).
  reflexivity.
Qed.

(** A text that only holds white space is parsed to the empty string. A
    text that [JSON.parse] rejects, that is not wrapped in quotes and holds
    no backslash comes back as it was given, white space around it
    included. A text that [JSON.parse] turns into something other than a
    string gives that value. *)
Theorem parseApiContent_plain_text :
  forall (number : Type) (JSON_parse : string -> option (value number))
         (s : string) (maxDepth : nat),
    (0 < maxDepth)%nat ->
    (trim s = "" -> parseApiContent JSON_parse (Str s) maxDepth = Str "") /\
    (trim s <> "" ->
     JSON_parse (trim s) = None ->
     startsWith (trim s) (String dquote "") && endsWith (trim s) (String dquote "") = false ->
     startsWith (trim s) "'" && endsWith (trim s) "'" = false ->
     forallb (fun x => negb (Ascii.eqb x backslash)) (list_ascii_of_string (trim s)) = true ->
     parseApiContent JSON_parse (Str s) maxDepth = Str s) /\
    (forall v, trim s <> "" ->
      JSON_parse (trim s) = Some v ->
      (forall parsed, v <> Str parsed) ->
      parseApiContent JSON_parse (Str s) maxDepth = v).
Proof.
  intros number JSON_parse s maxDepth Hdepth.
  destruct maxDepth as [|fuel]; [lia|]. cbn [parseApiContent parseRounds].
  split; [|split].
  - intros Hblank. by rewrite Hblank.
  - intros Hne Hparse Hq1 Hq2 Hplain.
    apply falsy_false in Hne. rewrite Hne, Hparse, Hq1, Hq2. cbn [orb].
    rewrite unescape_no_backslash by done. by rewrite String.eqb_refl.
  - intros v Hne Hparse Hv.
    apply falsy_false in Hne. rewrite Hne, Hparse.
    destruct v; try done. by destruct (Hv s0).
Qed.

Lemma parseApiContent_plain_text_witness :
  parseApiContent parseLiteral (Str "  GDP, billions of chained 2017 dollars ") 4 =
  Str "  GDP, billions of chained 2017 dollars ".
Proof.
  destruct (parseApiContent_plain_text Z parseLiteral
              "  GDP, billions of chained 2017 dollars " 4 ltac:(lia)) as (_ & H & _).
  apply H; try reflexivity. discriminate.
Defined.

(* ===================================================================== *)
(** * Properties of the streamed download *)
(* ===================================================================== *)

(** A body of five bytes in two chunks under limits of five and four
    bytes. *)
Example readBody_examples :
  readBody (Some 5%N) 10 [Some [1; 2; 3]; None; Some [4; 5]]%N = Complete [1; 2; 3; 4; 5]%N /\
  readBody (Some 4%N) 10 [Some [1; 2; 3]; None; Some [4; 5]]%N = ExceedsLimit 4 /\
  readBody (Some 0%N) 10 [Some [1; 2; 3]; None; Some [4; 5]]%N = Complete [1; 2; 3; 4; 5]%N.
Proof. repeat split; vm_compute; reflexivity. Qed.

Lemma readChunks_total (limit : N) (stream : list (option (list N))) :
  forall (downloaded : N) (chunks : list (list N)),
    (downloaded <= limit)%N ->
    readChunks limit stream downloaded chunks =
    if (downloaded + N.of_nat (length (streamBytes stream)) <=? limit)%N
    then Complete (concat chunks ++ streamBytes stream)
    else ExceedsLimit limit.
Proof.
  unfold streamBytes.
  induction stream as [|[value|] stream IH]; intros downloaded chunks Hle.
  - simpl. rewrite N.add_0_r, app_nil_r.
    assert (E : (downloaded <=? limit)%N = true) by (apply N.leb_le; lia). by rewrite E.
  - cbn [readChunks omap list_omap id concat]. rewrite length_app.
    destruct (limit <? downloaded + N.of_nat (length value))%N eqn:Hover.
    + apply N.ltb_lt in Hover.
      assert (E : (downloaded + N.of_nat (length value + length (concat (omap id stream)))
                   <=? limit)%N = false) by (apply N.leb_gt; lia).
      by rewrite E.
    + apply N.ltb_ge in Hover. rewrite IH by lia. rewrite concat_app. simpl. rewrite app_nil_r, <- app_assoc.
      replace (downloaded + N.of_nat (length value) +
               N.of_nat (length (concat (omap id stream))))%N
        with (downloaded + N.of_nat (length value + length (concat (omap id stream))))%N
        by lia.
      reflexivity.
  - cbn [readChunks omap list_omap id]. by apply IH.
Qed.

(** A body is accepted exactly when it has at most [limit] bytes in all,
    however it is cut into chunks, and then all its bytes are returned in
    order; a [maxBytes] of zero or none stands for the default. *)
Theorem readBody_accepts_up_to_limit :
  forall (maxBytes : option N) (fallback : N) (stream : list (option (list N))),
    let limit := downloadLimit maxBytes fallback in
    readBody maxBytes fallback stream =
    if (N.of_nat (length (streamBytes stream)) <=? limit)%N
    then Complete (streamBytes stream)
    else ExceedsLimit limit.
Proof.
  intros maxBytes fallback stream limit. unfold readBody. fold limit.
  rewrite readChunks_total by lia. reflexivity.
Qed.

(* ===================================================================== *)
(** * Properties of the validation of Python code *)
(* ===================================================================== *)

Example extractImportedModules_examples :
  extractImportedModules
    ("import numpy as np, os.path" ++ CRLF ++
     "# import secret" ++ LF ++
     "  from pandas.core import frame" ++ LF ++
     "from . import sibling" ++ LF ++
     "import numpy" ++ LF ++
     "x = 1") = ["numpy"; "os"; "pandas"].
Proof. vm_compute. reflexivity. Qed.

Local Abbreviation chars := list_ascii_of_string (only parsing).

Lemma forallb_trimStart (p : ascii -> bool) (s : string) :
  forallb p (chars s) = true -> forallb p (chars (trimStart s)) = true.
Proof.
  induction s as [|c s IH]; [done|]. simpl. intros H.
  apply andb_true_iff in H as [Hc Hs].
  destruct (isSpace c); [by apply IH|]. simpl. by rewrite Hc, Hs.
Qed.

Lemma forallb_trimEnd (p : ascii -> bool) (s : string) :
  forallb p (chars s) = true -> forallb p (chars (trimEnd s)) = true.
Proof.
  induction s as [|c s IH]; [done|]. simpl. intros H.
  apply andb_true_iff in H as [Hc Hs]. specialize (IH Hs).
  destruct (trimEnd s) as [|d kept].
  - destruct (isSpace c); [done|]. simpl. by rewrite Hc.
  - simpl in *. by rewrite Hc, IH.
Qed.

Lemma forallb_trim (p : ascii -> bool) (s : string) :
  forallb p (chars s) = true -> forallb p (chars (trim s)) = true.
Proof. intros H. unfold trim. by apply forallb_trimEnd, forallb_trimStart. Qed.

Lemma forallb_takeUntil (p : ascii -> bool) (sep : ascii) (s : string) :
  forallb p (chars s) = true -> forallb p (chars (takeUntil sep s)) = true.
Proof.
  induction s as [|c s IH]; [done|]. simpl. intros H.
  apply andb_true_iff in H as [Hc Hs].
  destruct (Ascii.eqb c sep); [done|]. simpl. by rewrite Hc, IH.
Qed.

Lemma takeUntil_free (sep : ascii) (s : string) :
  forallb (fun c => negb (Ascii.eqb c sep)) (chars (takeUntil sep s)) = true.
Proof.
  induction s as [|c s IH]; [done|]. simpl.
  destruct (Ascii.eqb c sep) eqn:E; [done|]. simpl. by rewrite E, IH.
Qed.

Lemma forallb_beforeMatch (p : ascii -> bool) (ci : bool) (r : regex) (s : string) :
  forallb p (chars s) = true -> forallb p (chars (beforeMatch ci r s)) = true.
Proof.
  induction s as [|c s IH]; [done|]. cbn [beforeMatch]. simpl. intros H.
  apply andb_true_iff in H as [Hc Hs].
  destruct (matchAt ci r (String c s) None _); [done|]. simpl. by rewrite Hc, IH.
Qed.

Lemma splitOn_free (sep : ascii) (s : string) :
  Forall (fun piece => forallb (fun c => negb (Ascii.eqb c sep)) (chars piece) = true)
         (splitOn sep s).
Proof.
  induction s as [|c s IH]; [by repeat constructor|]. simpl.
  destruct (Ascii.eqb c sep) eqn:E.
  - by constructor.
  - destruct (splitOn sep s) as [|piece more].
    + repeat constructor. simpl. by rewrite E.
    + apply Forall_cons in IH as [Hpiece Hmore]. constructor; [|done].
      simpl. by rewrite E, Hpiece.
Qed.

Lemma Set_add_moduleSet (name : string) (modules : list string) :
  moduleSet modules -> isModuleName name -> moduleSet (Set_add name modules).
Proof.
  intros [Hnd Hall] Hname. unfold Set_add.
  destruct (existsb (String.eqb name) modules) eqn:E; [done|].
  split.
  - apply NoDup_app. split; [done|]. split; [|apply NoDup_singleton].
    intros x Hx Hx'. apply list_elem_of_singleton in Hx'. subst x.
    assert (existsb (String.eqb name) modules = true); [|congruence].
    apply existsb_exists. exists name. split; [by apply list_elem_of_In|apply String.eqb_refl].
  - apply Forall_app. split; [done|]. by constructor.
Qed.

Lemma addTarget_moduleSet (modules : list string) (target : string) :
  moduleSet modules ->
  forallb (fun c => negb (Ascii.eqb c ",")) (chars target) = true ->
  moduleSet (addTarget modules target).
Proof.
  intros Hm Htarget. unfold addTarget.
  destruct (startsWith target "."); [done|].
  destruct (falsy _) eqn:Hf; [done|].
  apply Set_add_moduleSet; [done|]. repeat split.
  - by apply falsy_false.
  - apply trim_idempotent.
  - apply forallb_trim, takeUntil_free.
  - by apply forallb_trim, forallb_takeUntil, forallb_beforeMatch.
Qed.

Lemma fold_addTarget_moduleSet (targets : list string) :
  forall modules : list string,
    moduleSet modules ->
    Forall (fun t => forallb (fun c => negb (Ascii.eqb c ",")) (chars t) = true) targets ->
    moduleSet (fold_left addTarget targets modules).
Proof.
  induction targets as [|t targets IH]; intros modules Hm Ht; [done|].
  apply Forall_cons in Ht as [Ht Hts]. simpl. apply IH; [|done].
  by apply addTarget_moduleSet.
Qed.

(** A name taken from a dotted path that does not start with a dot. *)
Lemma takeUntil_path (base : string) :
  forallb isModulePathChar (chars base) = true ->
  base <> "" ->
  startsWith base "." = false ->
  isModuleName (takeUntil "." base).
Proof.
  intros Hchars Hne Hdot.
  assert (Hword : forallb isWord (chars (takeUntil "." base)) = true).
  { clear Hne Hdot. induction base as [|c base IH]; [done|]. simpl in *.
    apply andb_true_iff in Hchars as [Hc Hbase].
    destruct (Ascii.eqb c ".") eqn:E; [done|]. simpl. rewrite (IH Hbase), andb_true_r.
    unfold isModulePathChar in Hc. rewrite E, orb_false_r in Hc. exact Hc. }
  assert (Hall : forall p : ascii -> bool,
             (forall c, isWord c = true -> p c = true) ->
             forallb p (chars (takeUntil "." base)) = true).
  { intros p Hp. clear -Hword Hp. induction (takeUntil "." base) as [|c s IH]; [done|].
    simpl in *. apply andb_true_iff in Hword as [Hc Hs]. by rewrite (Hp c Hc), IH. }
  repeat split.
  - destruct base as [|c base]; [done|]. simpl.
    destruct (Ascii.eqb c ".") eqn:E; [|done].
    apply Ascii.eqb_eq in E. subst c. unfold startsWith in Hdot. simpl in Hdot.
    by destruct base.
  - assert (Hnospace : forallb (fun c => negb (isSpace c)) (chars (takeUntil "." base)) = true).
    { apply Hall. intros c Hc.
      destruct c as [[] [] [] [] [] [] [] []]; vm_compute in Hc |- *; congruence. }
    clear -Hnospace. unfold trim.
    assert (Hs : forall s, forallb (fun c => negb (isSpace c)) (chars s) = true ->
                           trimStart s = s /\ trimEnd s = s).
    { clear. induction s as [|c s IH]; [done|]. simpl. intros H.
      apply andb_true_iff in H as [Hc Hs]. apply negb_true_iff in Hc. rewrite Hc.
      destruct (IH Hs) as [_ ->]. split; [done|]. by destruct s. }
    destruct (Hs _ Hnospace) as [-> ->]. done.
  - apply takeUntil_free.
  - apply Hall. intros c Hc.
    destruct c as [[] [] [] [] [] [] [] []]; vm_compute in Hc |- *; congruence.
Qed.

Lemma addLine_moduleSet (modules : list string) (rawLine : string) :
  moduleSet modules -> moduleSet (addLine modules rawLine).
Proof.
  intros Hm. unfold addLine. cbv zeta.
  destruct (falsy (trim rawLine) || startsWith (trim rawLine) "#"); [done|].
  unfold matchStart.
  destruct (matchAt false fromPattern (trim rawLine) None _) as [fromMatch|] eqn:Hfrom.
  - apply matchAt_sound in Hfrom as (text & rest & cap' & Hline & Hd & Hk).
    injection Hk as ->.
    unfold fromPattern, spaces in Hd. cbn [denotes] in Hd.
    destruct Hd as (t1 & t2 & mid1 & -> & _ & Hd).
    destruct Hd as (t3 & t4 & mid2 & -> & [_ ->] & Hd).
    destruct Hd as (base & t5 & mid3 & -> & [(inner & (Hchars & Hlen & _) & _) ->] & Hd).
    destruct Hd as (t6 & t7 & mid4 & -> & [_ ->] & Hd).
    destruct Hd as (t8 & t9 & mid5 & -> & Himport & [_ ->]).
    assert (Hcap : mid5 = Some base).
    { clear -Himport.
      repeat (cbn [RLit denotes] in Himport;
              match type of Himport with
              | exists _, _ => destruct Himport as (? & ? & ? & _ & [_ ->] & Himport)
              end).
      by destruct Himport as [_ ->]. }
    rewrite Hcap. simpl default.
    destruct (startsWith base ".") eqn:Hdot; [done|].
    apply Set_add_moduleSet; [done|].
    apply takeUntil_path; [exact Hchars| |exact Hdot].
    intros ->. simpl in Hlen. lia.
  - destruct (matchAt false importPattern (trim rawLine) None _) as [importMatch|] eqn:Himp;
      [|done].
    apply fold_addTarget_moduleSet; [done|].
    apply Forall_forall. intros t Ht. apply list_elem_of_In, filter_In in Ht as [Ht _].
    apply in_map_iff in Ht as (piece & <- & Hpiece).
    apply forallb_trim.
    pose proof (splitOn_free "," (default "" importMatch)) as Hfree.
    rewrite Forall_forall in Hfree. apply Hfree. by apply list_elem_of_In.
Qed.

(** The names [extractImportedModules] returns are pairwise distinct, and
    each is a non-empty text without white space at either end, without
    dot and without comma. *)
Theorem extractImportedModules_names :
  forall code : string,
    NoDup (extractImportedModules code) /\
    forall name : string,
      name ∈ extractImportedModules code ->
      name <> "" /\
      trim name = name /\
      forallb (fun c => negb (Ascii.eqb c "." || Ascii.eqb c ",")) (chars name) = true.
Proof.
  intros code. unfold extractImportedModules.
  assert (H : forall (lines modules : list string),
             moduleSet modules -> moduleSet (fold_left addLine lines modules)).
  { induction lines as [|line lines IH]; intros modules Hm; [done|].
    simpl. by apply IH, addLine_moduleSet. }
  destruct (H (splitLines code) []) as [Hnd Hall].
  { split; constructor. }
  split; [exact Hnd|]. intros name Hname.
  rewrite Forall_forall in Hall. destruct (Hall name Hname) as (H1 & H2 & H3 & H4).
  split; [exact H1|]. split; [exact H2|].
  clear -H3 H4. induction name as [|c name IH]; [done|]. simpl in *.
  apply andb_true_iff in H3 as [Hc3 H3]. apply andb_true_iff in H4 as [Hc4 H4].
  rewrite (IH H3 H4), andb_true_r. apply negb_true_iff in Hc3, Hc4. by rewrite Hc3, Hc4.
Qed.

Example detectCodeIssues_examples :
  detectCodeIssues ("import numpy as np" ++ LF ++ "x = np.exp(1)") = None /\
  option_map label (detectCodeIssues ("import numpy" ++ LF ++ "x = np.exp(1)")) =
    Some "NumPy Alias Safety" /\
  isSome (detectCodeIssues ("import numpy as np" ++ LF ++ "np = 3")) = true /\
  detectCodeIssues ("import numpyro" ++ LF ++ "np = 3") = None /\
  detectCodeIssues ("import math" ++ LF ++ "snp.x = np .real") = None.
Proof. repeat split; vm_compute; reflexivity. Qed.

Lemma prefix_split (x s : string) : String.prefix x s = true -> exists post, s = x ++ post.
Proof.
  revert s. induction x as [|c x IH]; intros s H.
  - by exists s.
  - destruct s as [|d s]; [done|]. cbn [String.prefix] in H.
    destruct (ascii_dec c d) as [->|]; [|done].
    destruct (IH s H) as [post ->]. by exists post.
Qed.

Lemma includes_split (s x : string) :
  includes s x = true -> exists pre post, s = pre ++ x ++ post.
Proof.
  induction s as [|c s IH]; cbn [includes]; intros H.
  - rewrite orb_false_r in H. apply prefix_split in H as [post ->]. by exists "", post.
  - apply orb_true_iff in H as [H|H].
    + apply prefix_split in H as [post ->]. by exists "", post.
    + destruct (IH H) as (pre & post & ->). by exists (String c pre), post.
Qed.

(** A text found in a piece of another text is found in that text. *)
Lemma includes_within (s pre piece post x : string) :
  s = pre ++ piece ++ post -> includes piece x = true -> includes s x = true.
Proof.
  intros -> H. apply includes_split in H as (pre' & post' & ->).
  rewrite !append_assoc, <- (append_assoc pre pre'). apply includes_middle.
Qed.

Lemma trimStart_split (s : string) : exists pre, s = pre ++ trimStart s.
Proof.
  induction s as [|c s [pre IH]]; [by exists ""|]. simpl.
  destruct (isSpace c); [|by exists ""].
  exists (String c pre). by rewrite append_cons, <- IH.
Qed.

Lemma trimEnd_split (s : string) : exists post, s = trimEnd s ++ post.
Proof.
  induction s as [|c s [post IH]]; [by exists ""|]. simpl.
  destruct (trimEnd s) as [|d kept].
  - destruct (isSpace c).
    + by exists (String c s).
    + exists s. done.
  - exists post. by rewrite append_cons, <- IH.
Qed.

Lemma trim_split (s : string) : exists pre post, s = pre ++ trim s ++ post.
Proof.
  destruct (trimStart_split s) as [pre Hpre].
  destruct (trimEnd_split (trimStart s)) as [post Hpost].
  exists pre, post. unfold trim. by rewrite <- Hpost.
Qed.

(** Every line is a piece of the text. *)
Lemma splitLines_split (n : nat) :
  forall (s line : string),
    (String.length s <= n)%nat ->
    line ∈ splitLines s -> exists pre post, s = pre ++ line ++ post.
Proof.
  induction n as [|n IH]; intros s line Hn Hline.
  - destruct s; [|simpl in Hn; lia]. simpl in Hline.
    apply list_elem_of_singleton in Hline as ->. by exists "", "".
  - destruct s as [|c s].
    { simpl in Hline. apply list_elem_of_singleton in Hline as ->. by exists "", "". }
    simpl in Hn.
    assert (Hkeep : line ∈ match splitLines s with
                           | first :: more => String c first :: more
                           | [] => [String c ""]
                           end -> exists pre post, String c s = pre ++ line ++ post).
    { intros H. destruct (splitLines s) as [|first more] eqn:E.
      - apply list_elem_of_singleton in H as ->. exists "", s. done.
      - apply elem_of_cons in H as [->|H].
        + destruct (IH s first ltac:(lia)) as (pre & post & Hs).
          { rewrite E. apply elem_of_cons. by left. }
          (* the first line starts the text *)
          assert (Hfirst : exists post', s = first ++ post').
          { clear -E. revert first more E. induction s as [|d s IHs]; intros first more E.
            - simpl in E. injection E as <- <-. by exists "".
            - cbn [splitLines] in E.
              destruct (code d =? 10)%N; [injection E as <- <-; by exists (String d s)|].
              destruct (code d =? 13)%N.
              + destruct s as [|d' s'].
                * simpl in E. injection E as <- <-. by exists "".
                * destruct (code d' =? 10)%N; [injection E as <- <-; by exists (String d (String d' s'))|].
                  destruct (splitLines (String d' s')) as [|f m] eqn:E'.
                  -- injection E as <- <-. exists (String d' s'). done.
                  -- injection E as <- <-. destruct (IHs f m eq_refl) as [post' ->].
                     by exists post'.
              + destruct (splitLines s) as [|f m] eqn:E'.
                * injection E as <- <-. exists s. done.
                * injection E as <- <-. destruct (IHs f m eq_refl) as [post' ->].
                  by exists post'. }
          destruct Hfirst as [post' ->]. by exists "", post'.
        + destruct (IH s line ltac:(lia)) as (pre & post & ->).
          { rewrite E. apply elem_of_cons. by right. }
          by exists (String c pre), post. }
    cbn [splitLines] in Hline.
    destruct (code c =? 10)%N.
    { apply elem_of_cons in Hline as [->|Hline]; [by exists "", (String c s)|].
      destruct (IH s line ltac:(lia) Hline) as (pre & post & ->).
      by exists (String c pre), post. }
    destruct (code c =? 13)%N; [|by apply Hkeep].
    destruct s as [|c' s']; [by apply Hkeep|].
    destruct (code c' =? 10)%N; [|by apply Hkeep].
    apply elem_of_cons in Hline as [->|Hline]; [by exists "", (String c (String c' s'))|].
    simpl in Hn.
    destruct (IH s' line ltac:(lia) Hline) as (pre & post & ->).
    by exists (String c (String c' pre)), post.
Qed.

(** Without the [i] flag a literal denotes itself only. *)
Lemma denotes_RLit_exact (lit : string) :
  forall (t : string) (cap cap' : option string),
    lit <> "" -> denotes false (RLit lit) t cap cap' -> t = lit /\ cap' = cap.
Proof.
  induction lit as [|c lit IH]; intros t cap cap' Hne H; [done|].
  destruct lit as [|d lit].
  - cbn [RLit denotes] in H. destruct H as [(c' & -> & Hc) ->].
    apply Ascii.eqb_eq in Hc. by subst.
  - change (RLit (String c (String d lit))) with (RSeq (RChar c) (RLit (String d lit))) in H.
    cbn [denotes] in H. destruct H as (t1 & t2 & mid & -> & [(c' & -> & Hc) ->] & H2).
    apply Ascii.eqb_eq in Hc. subst c'.
    destruct (IH t2 cap cap' ltac:(done) H2) as [-> ->]. done.
Qed.

(** A line that one of the three import patterns matches holds the text
    [numpy]. *)
Lemma keyword_numpy_includes {A : Type} (keyword : string) (tail : regex) (line : string)
      (k : string -> option string -> option A) (res : A) :
  keyword <> "" ->
  matchAt false (RSeq (RLit keyword) (RSeq spaces (RSeq (RLit "numpy") tail))) line None k
  = Some res ->
  includes line "numpy" = true.
Proof.
  intros Hne H. apply matchAt_sound in H as (text & rest & cap' & -> & Hd & _).
  cbn [denotes] in Hd.
  destruct Hd as (t1 & t2 & mid1 & -> & _ & Hd).
  destruct Hd as (t3 & t4 & mid2 & -> & _ & Hd).
  destruct Hd as (t5 & t6 & mid3 & -> & Hnumpy & _).
  apply denotes_RLit_exact in Hnumpy as [-> _]; [|discriminate].
  rewrite !append_assoc, <- (append_assoc t1 t3). apply includes_middle.
Qed.

Lemma namesNumpy_includes (keyword line : string) :
  keyword <> "" -> namesNumpy keyword line = true -> includes line "numpy" = true.
Proof.
  intros Hne H. unfold namesNumpy in H.
  destruct (matchAt false _ line None _) as [res|] eqn:Hm; [|done].
  apply matchAt_sound in Hm as (text & rest & cap' & -> & Hd & _).
  cbn [denotes] in Hd.
  destruct Hd as (t1 & t2 & mid1 & -> & _ & Hd).
  destruct Hd as (t3 & t4 & mid2 & -> & _ & Hnumpy).
  apply denotes_RLit_exact in Hnumpy as [-> _]; [|discriminate].
  rewrite !append_assoc, <- (append_assoc t1 t3).
  change ("numpy" ++ rest) with ("numpy" ++ rest). apply includes_middle.
Qed.

Lemma noteLine_no_numpy (st : list string * bool) (rawLine : string) :
  includes (trim rawLine) "numpy" = false -> noteLine st rawLine = st.
Proof.
  intros Hno. unfold noteLine. cbv zeta.
  destruct (falsy (trim rawLine) || startsWith (trim rawLine) "#"); [done|].
  unfold matchStart.
  destruct (matchAt false numpyAliasPattern (trim rawLine) None _) as [res|] eqn:Hm.
  { apply keyword_numpy_includes in Hm; [congruence|discriminate]. }
  destruct (namesNumpy "import" (trim rawLine)) eqn:H1.
  { apply namesNumpy_includes in H1; [congruence|discriminate]. }
  destruct (namesNumpy "from" (trim rawLine)) eqn:H2.
  { apply namesNumpy_includes in H2; [congruence|discriminate]. }
  done.
Qed.

(** Code that does not mention [numpy] raises no issue; and the only
    issue ever raised is a failure labelled [NumPy Alias Safety]. *)
Theorem detectCodeIssues_only_numpy :
  forall code : string,
    (includes code "numpy" = false -> detectCodeIssues code = None) /\
    (forall item, detectCodeIssues code = Some item ->
                  label item = "NumPy Alias Safety" /\ status item = "fail" /\
                  includes code "numpy" = true /\
                  (npFollowedBy "." false code = true \/ npFollowedBy "=" false code = true)).
Proof.
  intros code.
  assert (Hquiet : includes code "numpy" = false ->
                   fold_left noteLine (splitLines code) ([], false) = ([], false)).
  { intros Hno.
    assert (H : forall lines st,
               (forall line, line ∈ lines -> includes (trim line) "numpy" = false) ->
               fold_left noteLine lines st = st).
    { induction lines as [|line lines IH]; intros st Hlines; [done|]. simpl.
      rewrite noteLine_no_numpy by (apply Hlines, elem_of_cons; by left).
      apply IH. intros l Hl. apply Hlines, elem_of_cons. by right. }
    apply H. intros line Hline.
    destruct (includes (trim line) "numpy") eqn:E; [|done].
    destruct (splitLines_split (String.length code) code line (Nat.le_refl _) Hline)
      as (pre & post & Hcode).
    destruct (trim_split line) as (pre' & post' & Htrim).
    assert (includes line "numpy" = true) by (by eapply includes_within).
    assert (includes code "numpy" = true) by (by eapply includes_within).
    congruence. }
  split.
  - intros Hno. unfold detectCodeIssues. by rewrite (Hquiet Hno).
  - intros item Hitem.
    destruct (includes code "numpy") eqn:Hnumpy.
    2:{ unfold detectCodeIssues in Hitem. by rewrite (Hquiet eq_refl) in Hitem. }
    unfold detectCodeIssues in Hitem.
    destruct (fold_left noteLine (splitLines code) ([], false)) as [aliases imports].
    destruct imports; [|done].
    cbv zeta in Hitem.
    destruct (npFollowedBy "." false code) eqn:Huses; cbn [andb] in Hitem.
    + destruct (existsb (String.eqb "np") aliases); cbn [negb] in Hitem.
      * destruct (npFollowedBy "=" false code) eqn:Hover; [|done].
        injection Hitem as <-. cbn [label status]. auto.
      * injection Hitem as <-. cbn [label status]. auto.
    + destruct (npFollowedBy "=" false code) eqn:Hover; [|done].
      injection Hitem as <-. cbn [label status]. auto.
Qed.
